(** * Region elevation handler of fvtt-terrain-mapper

    A shallow embedding of [RegionsElevationHandler] (the class that builds
    movement paths across plateaus and ramps) and of the helper functions that
    sit next to it in the same source file.

    JavaScript numbers are idealised as exact rationals ([Q]); [===] on
    numbers is [Qeq_bool].  [Number.NEGATIVE_INFINITY], which the ground
    resolver uses as the neutral element of [Math.max], is a separate
    constructor of [num].  Square roots only occur in the coordinate mapper;
    the tracer takes the planar distance as a parameter, and the round trip
    of the mapper is studied in the doubles of the program in
    [Module MapperF] and over the real numbers in [Module MapperR].

    Two smaller classes follow the handler: [EffectHelper], which keeps the
    active effect of a terrain, and [TerrainLevel], the terrain at one level
    of a scene. *)

From Stdlib Require Import Reals Lra.
From Stdlib Require Import QArith Qabs Qround ZArith List Bool Lia Lqa PeanoNat.
From Stdlib Require String PrimFloat.
Import ListNotations.
Local Open Scope Q_scope.

Set Implicit Arguments.

(** ** Numbers *)

(** A JavaScript number that may be [-Infinity]. *)
Inductive num : Type :=
| NegInf
| Fin (q : Q).

(** [a === b] *)
Definition num_eqb (a b : num) : bool :=
  match a, b with
  | NegInf, NegInf => true
  | Fin p, Fin q => Qeq_bool p q
  | _, _ => false
  end.

(** Numeric equality as a proposition. *)
Definition num_eq (a b : num) : Prop :=
  match a, b with
  | NegInf, NegInf => True
  | Fin p, Fin q => p == q
  | _, _ => False
  end.

(** [a <= b] *)
Definition num_leb (a b : num) : bool :=
  match a, b with
  | NegInf, _ => true
  | Fin _, NegInf => false
  | Fin p, Fin q => Qle_bool p q
  end.

(** [Math.max(a, b)] *)
Definition num_max (a b : num) : num :=
  if num_leb a b then b else a.

(** ** Data model *)

(** [RegionMovementWaypoint]: a canvas position with an elevation. *)
Record Waypoint : Type := mkWaypoint {
  x : Q;
  y : Q;
  elevation : Q
}.

(** A point of a returned path.  The objects that [constructRegionsPath]
    returns are either the arguments themselves, object literals built on
    the way (which may lack the [y] property) or points produced by the
    coordinate mapper; the elevation may come from the ground resolver, which
    can answer [-Infinity]. *)
Record PathPoint : Type := mkPathPoint {
  px : Q;
  py : option Q;
  pelevation : num
}.

Definition of_waypoint (w : Waypoint) : PathPoint :=
  {| px := x w; py := Some (y w); pelevation := Fin (elevation w) |}.

(** A returned point is at a waypoint: same planar position and elevation. *)
Definition same_point (p : PathPoint) (w : Waypoint) : Prop :=
  px p == x w
  /\ (exists q, py p = Some q /\ q == y w)
  /\ num_eq (pelevation p) (Fin (elevation w)).

(** A sequence of numbers that never decreases. *)
Fixpoint nondecreasing (l : list Q) : Prop :=
  match l with
  | a :: (b :: _) as rest => a <= b /\ nondecreasing rest
  | _ => True
  end.

(** [Region.MOVEMENT_SEGMENT_TYPES] *)
Inductive MOVEMENT_SEGMENT_TYPES : Type := EXIT | MOVE | ENTER.

Definition segtype_eqb (a b : MOVEMENT_SEGMENT_TYPES) : bool :=
  match a, b with
  | EXIT, EXIT | MOVE, MOVE | ENTER, ENTER => true
  | _, _ => false
  end.

(** A movement segment as [Region#segmentizeMovement] reports it. *)
Record Segment : Type := mkSegment {
  seg_type : MOVEMENT_SEGMENT_TYPES;
  seg_from : Waypoint;
  seg_to : Waypoint
}.

(** [ELEVATION_LOCATIONS] *)
Inductive ELEVATION_LOCATIONS : Type := UNDERGROUND | GROUND | FLOATING.

Definition loc_eqb (a b : ELEVATION_LOCATIONS) : bool :=
  match a, b with
  | UNDERGROUND, UNDERGROUND | GROUND, GROUND | FLOATING, FLOATING => true
  | _, _ => false
  end.

(** The tri-state movement flags: [None] is [undefined]. *)
Definition flag := option bool.

(** [if ( f )] *)
Definition truthy (f : flag) : bool :=
  match f with Some true => true | _ => false end.

(** [f === false] *)
Definition is_false (f : flag) : bool :=
  match f with Some false => true | _ => false end.

(** [MAX_ITER = 1e04], in both loops. *)
Definition MAX_ITER : nat := 10000.

(** The three [console.error] calls of the handler. *)
Inductive LogMsg : Type :=
| GroundMaxIter   (* "nearestGroundElevation|Max iterations reached!" *)
| PathMaxIter     (* "constructRegionsPath|Iteration exceeded max iterations!" *)
| CutawayHoles.   (* "Combined cutaway polygons still have holes." *)

(** What a call hands back: the returned value and what it wrote with
    [console.error], in order. *)
Record Logged (A : Type) : Type := mkLogged {
  value : A;
  log : list LogMsg
}.

(** A call either returns or throws (a [TypeError] on a property of
    [undefined] or [null]). *)
Inductive Result (A : Type) : Type :=
| Returns (a : A)
| Throws.
Arguments Throws {A}.

(** ** Cutaway geometry *)

(** A point of the plane, canvas or cutaway. *)
Definition pt : Type := (Q * Q)%type.

(** A [PIXI.Polygon]: its vertices in order, the last edge closing it. *)
Definition Polygon : Type := list pt.

(** An edge [{ A, B }] of a polygon. *)
Record Edge : Type := mkEdge {
  eA : pt;
  eB : pt
}.

(** The objects the tracer moves between.  The march only reads them, but
    the rounding correction after it writes to the last waypoint, and that
    write is seen through every other place of [waypoints] holding the same
    object; so a cutaway point carries the identity of its object. *)
Inductive ObjId : Type :=
| OStart                      (* start2d *)
| OEnd                        (* end2d *)
| OFloor (iter : nat)         (* a [{ x, y: sceneFloor }] literal; 0 is the one before the loop *)
| OIx (iter : nat)            (* [ixs[0]] of the call made in that iteration *)
| OVertex (poly i : nat)      (* [poly._pts[i]] *)
| OEdgeB (poly i : nat).      (* [poly._edges[i].B] *)

Definition oid_eqb (a b : ObjId) : bool :=
  match a, b with
  | OStart, OStart | OEnd, OEnd => true
  | OFloor i, OFloor j | OIx i, OIx j => Nat.eqb i j
  | OVertex p i, OVertex q j | OEdgeB p i, OEdgeB q j => Nat.eqb p q && Nat.eqb i j
  | _, _ => false
  end.

(** A cutaway point: [x] is the distance from the start, [y] the elevation. *)
Record CPoint : Type := mkCPoint {
  cx : Q;
  cy : Q;
  oid : ObjId
}.

Definition cpt (p : CPoint) : pt := (cx p, cy p).

(** What [foundry.utils.lineLineIntersection] returns when it is not [null]. *)
Record LineIx : Type := mkLineIx {
  lx : Q;
  ly : Q;
  t0 : Q
}.

(** An entry of the array [polygonsIntersections] returns: the intersection
    with the [edge] and [poly] properties added ([poly] by its position in
    [combinedPolys], [edge] also by its position in [poly._edges]). *)
Record PolyIx : Type := mkPolyIx {
  pix : LineIx;
  pix_edge : Edge;
  pix_edge_index : nat;
  pix_poly : nat
}.

(** [regionWaypointsEqual] of util.js.
    Modelled from the spec: start equals end (2D and elevation). *)
Definition regionWaypointsEqual (a b : Waypoint) : bool :=
  Qeq_bool (x a) (x b) && Qeq_bool (y a) (y b) && Qeq_bool (elevation a) (elevation b).

(** [regionWaypointsXYEqual] of util.js.
    Modelled from the spec: same 2D position. *)
Definition regionWaypointsXYEqual (a b : Waypoint) : bool :=
  Qeq_bool (x a) (x b) && Qeq_bool (y a) (y b).

(** [regionWaypointsEqual] on two cutaway points, which have no [elevation]
    property: [undefined === undefined] holds, [x] and [y] decide. *)
Definition cutawayPointsEqual (a b : CPoint) : bool :=
  Qeq_bool (cx a) (cx b) && Qeq_bool (cy a) (cy b).

(** [MIN_ELEV = -1e06] *)
Definition MIN_ELEV : Q := - (1000000 # 1).

(** Insertion of an intersection into a list sorted by [t0], after the
    entries of equal [t0]. *)
Fixpoint insert_t0 (ix : PolyIx) (l : list PolyIx) : list PolyIx :=
  match l with
  | [] => [ix]
  | h :: t =>
      if Qlt_le_dec (t0 (pix ix)) (t0 (pix h)) then ix :: h :: t
      else h :: insert_t0 ix t
  end.

(** [ixs.sort((a, b) => a.t0 - b.t0)], a stable sort. *)
Definition sort_t0 (l : list PolyIx) : list PolyIx :=
  fold_left (fun acc ix => insert_t0 ix acc) l [].

(** [arr.findIndex(f)] *)
Fixpoint findIndex {A : Type} (f : A -> bool) (l : list A) : option nat :=
  match l with
  | [] => None
  | a :: t => if f a then Some O
              else match findIndex f t with Some i => Some (S i) | None => None end
  end.

Section Handler.

(** The sample points handed through to [segmentizeMovement]. *)
Variable Samples : Type.
(** The clipper paths a region contributes to the cutaway. *)
Variable Paths : Type.

(** A region, seen through the methods the handler calls on it:
    [region.testPoint], [region[MODULE_ID].elevationUponEntry],
    [region.segmentizeMovement] and [region[MODULE_ID]._region2dCutaway]. *)
Record Region : Type := mkRegion {
  testPoint : Waypoint -> num -> bool;
  elevationUponEntry : Waypoint -> Q;
  segmentizeMovement : list Waypoint -> Samples -> list Segment;
  _region2dCutaway : Waypoint -> Waypoint -> option Paths
}.

(** [elevatedRegions] of util.js: the regions to consider, given the
    optional subset of the caller. *)
Variable elevatedRegions : option (list Region) -> list Region.

(** [get sceneFloor] *)
Variable sceneFloor : Q.

(** [samples ??= [{x: 0, y: 0}]] *)
Variable defaultSamples : Samples.

(** *** Elevation classifier *)

(** The [for] loop of [elevationType]: the pair [(inside, offPlateau)]
    after the loop, which stops at the first region off whose plateau the
    waypoint is. *)
Fixpoint elevationType_loop (waypoint : Waypoint) (regions : list Region)
    (inside : bool) : bool * bool :=
  match regions with
  | [] => (inside, false)
  | region :: rest =>
      if negb (testPoint region waypoint (Fin (elevation waypoint)))
      then elevationType_loop waypoint rest inside
      else if negb (Qeq_bool (elevationUponEntry region waypoint) (elevation waypoint))
           then (true, true)
           else elevationType_loop waypoint rest true
  end.

Definition elevationType (waypoint : Waypoint) (regions : option (list Region))
    : ELEVATION_LOCATIONS :=
  let regions := elevatedRegions regions in
  let '(inside, offPlateau) := elevationType_loop waypoint regions false in
  if inside && offPlateau then UNDERGROUND
  else if inside && negb offPlateau then GROUND
  else if negb inside && Qeq_bool (elevation waypoint) sceneFloor then GROUND
  else FLOATING.

(** *** Ground resolver *)

(** One entry of [regionsIxs]: [segment.to] with the [region] and [dist]
    properties added. *)
Record RegionIx : Type := mkRegionIx {
  ix_to : Waypoint;
  ix_region : Region;
  ix_dist : Q
}.

(** The [for] loop that collects [regionsIxs] along the fall. *)
Fixpoint fall_ixs (waypoints : list Waypoint) (samples : Samples)
    (currElevation : Q) (regions : list Region) : list RegionIx :=
  match regions with
  | [] => []
  | region :: rest =>
      match segmentizeMovement region waypoints samples with
      | [] => fall_ixs waypoints samples currElevation rest
      | segment :: _ =>
          if negb (segtype_eqb (seg_type segment) ENTER)
          then fall_ixs waypoints samples currElevation rest
          else {| ix_to := seg_to segment;
                  ix_region := region;
                  ix_dist := currElevation - elevation (seg_to segment) |}
               :: fall_ixs waypoints samples currElevation rest
      end
  end.

(** The head of [regionsIxs.sort((a, b) => a.dist - b.dist)]: the sort is
    stable, so the head is the first entry of least [dist]. *)
Fixpoint first_min_dist (best : RegionIx) (ixs : list RegionIx) : RegionIx :=
  match ixs with
  | [] => best
  | ix :: rest =>
      if Qlt_le_dec (ix_dist ix) (ix_dist best)
      then first_min_dist ix rest
      else first_min_dist best rest
  end.

(** The inner [for] loop of the fixed point: the maximum of the entry
    elevations of the regions that contain the waypoint at
    [currElevation], [-Infinity] when there is none. *)
Definition max_entry (waypoint : Waypoint) (regions : list Region)
    (currElevation : num) : num :=
  fold_left
    (fun maxElevation region =>
       if negb (testPoint region waypoint currElevation) then maxElevation
       else num_max maxElevation (Fin (elevationUponEntry region waypoint)))
    regions NegInf.

(** The regions that contain the waypoint at an elevation. *)
Definition containing (waypoint : Waypoint) (e : num) (regions : list Region) : list Region :=
  filter (fun region => testPoint region waypoint e) regions.

(** The replacement of the fixed point in the words of the specification,
    to compare [max_entry] with: [m] is "the maximum entry-elevation over all
    zones containing the point at that elevation".  No entry elevation of
    such a region is above [m], and [m] is the entry elevation of one of
    them; over no region the maximum is [-Infinity]. *)
Definition max_entry_spec (waypoint : Waypoint) (regions : list Region)
    (currElevation m : num) : Prop :=
  (forall region, In region regions ->
     testPoint region waypoint currElevation = true ->
     num_leb (Fin (elevationUponEntry region waypoint)) m = true)
  /\ ((exists region, In region regions
                      /\ testPoint region waypoint currElevation = true
                      /\ m = Fin (elevationUponEntry region waypoint))
      \/ ((forall region, In region regions ->
             testPoint region waypoint currElevation = false)
          /\ m = NegInf)).

(** The [do ... while] loop.  [remaining] is [MAX_ITER - iter] on entry to
    the body; the result is [currElevation] and [MAX_ITER - iter] at exit. *)
Fixpoint ground_loop (waypoint : Waypoint) (regions : list Region)
    (remaining : nat) (maxElevation : num) : num * nat :=
  match remaining with
  | O => (maxElevation, O)
  | S r =>
      let currElevation := maxElevation in
      let maxElevation := max_entry waypoint regions currElevation in
      if negb (num_eqb maxElevation currElevation) && negb (Nat.eqb r 0)
      then ground_loop waypoint regions r maxElevation
      else (currElevation, r)
  end.

Definition nearestGroundElevation (waypoint : Waypoint)
    (regions : option (list Region)) (samples : option Samples)
    (burrowing : flag) : Logged num :=
  let samples := match samples with Some s => s | None => defaultSamples end in
  let regions := elevatedRegions regions in
  let terrainFloor := sceneFloor in
  let currElevation := Fin (elevation waypoint) in
  let currRegions :=
    filter (fun region => testPoint region waypoint currElevation) regions in
  if truthy burrowing && negb (Nat.eqb (length currRegions) 0)
  then mkLogged currElevation []
  else
    let fall : option num :=
      if Nat.eqb (length currRegions) 0 then
        if Qeq_bool (elevation waypoint) terrainFloor then None
        else
          let waypoints :=
            [waypoint; {| x := x waypoint; y := y waypoint; elevation := terrainFloor |}] in
          match fall_ixs waypoints samples (elevation waypoint) regions with
          | [] => None
          | ix :: rest =>
              let firstIx := first_min_dist ix rest in
              Some (Fin (elevationUponEntry (ix_region firstIx) waypoint))
          end
      else Some currElevation in
    match fall with
    | None => mkLogged (Fin terrainFloor) []
    | Some currElevation =>
        if truthy burrowing then mkLogged currElevation []
        else
          let '(currElevation, remaining) :=
            ground_loop waypoint regions MAX_ITER currElevation in
          mkLogged currElevation (if Nat.eqb remaining 0 then [GroundMaxIter] else [])
    end.


(** *** The geometry the handler calls into

    None of it lives in the handler's file: [PIXI.Point] and [PIXI.Polygon]
    methods, [foundry.utils] and [ClipperPaths]. *)
Record Geometry : Type := mkGeometry {
  (* PIXI.Point.distanceBetween(a, b) *)
  distanceBetween : Waypoint -> Waypoint -> Q;
  (* a.towardsPoint(b, distance) *)
  towardsPoint : pt -> pt -> Q -> pt;
  (* Math.floor *)
  floor : Q -> Q;
  (* a.almostEqual(b, epsilon) on numbers *)
  almostEqual : Q -> Q -> Q -> bool;
  (* a.almostEqual(b) on points *)
  pointAlmostEqual : pt -> pt -> bool;
  (* poly.isClockwise *)
  isClockwise : Polygon -> bool;
  (* poly.reverseOrientation() *)
  reverseOrientation : Polygon -> Polygon;
  (* poly.isPositive *)
  isPositive : Polygon -> bool;
  (* poly.contains(x, y) *)
  contains : Polygon -> Q -> Q -> bool;
  (* poly.linesCross([{ A, B }]) *)
  linesCross : Polygon -> pt -> pt -> bool;
  (* [...poly.iteratePoints({ close: false })] *)
  iteratePoints : Polygon -> list pt;
  (* [...poly.iterateEdges({ close: true })] *)
  iterateEdges : Polygon -> list Edge;
  (* poly.lineSegmentIntersects(a, b, { edges }) *)
  lineSegmentIntersects : Polygon -> pt -> pt -> list Edge -> bool;
  (* poly.segmentIntersections(a, b, { edges, indices: true }) *)
  segmentIntersections : Polygon -> pt -> pt -> list Edge -> list nat;
  (* foundry.utils.lineLineIntersection(a, b, c, d); None is null *)
  lineLineIntersection : pt -> pt -> pt -> pt -> option LineIx;
  (* foundry.utils.closestPointToSegment(c, a, b) *)
  closestPointToSegment : pt -> pt -> pt -> pt;
  (* ClipperPaths.fromPolygons([poly]) *)
  fromPolygons : list Polygon -> Paths;
  (* ClipperPaths.combinePaths(paths) *)
  combinePaths : list Paths -> Paths;
  (* paths.clean() *)
  clean : Paths -> Paths;
  (* paths.toPolygons() *)
  toPolygons : Paths -> list Polygon
}.

Variable G : Geometry.

(** *** Coordinate mapper *)

Definition _to2dCutawayCoordinate (waypoint start : Waypoint) : pt :=
  (distanceBetween G start waypoint, elevation waypoint).

Definition _from2dCutawayCoordinate (p : pt) (start end_ : Waypoint) : PathPoint :=
  let canvasPt := towardsPoint G (x start, y start) (x end_, y end_) (fst p) in
  {| px := fst canvasPt; py := Some (snd canvasPt); pelevation := Fin (snd p) |}.

(** *** Cutaway projector *)

(** The [for] loop of [_regions2dCutaway]. *)
Fixpoint cutaway_paths (start end_ : Waypoint) (regions : list Region) : list Paths :=
  match regions with
  | [] => []
  | region :: rest =>
      match _region2dCutaway region start end_ with
      | Some combined => combined :: cutaway_paths start end_ rest
      | None => cutaway_paths start end_ rest
      end
  end.

(** The scene floor polygon of [_regions2dCutaway]. *)
Definition floorPoly (dist : Q) : Polygon :=
  [(0, sceneFloor); (0, MIN_ELEV); (dist, MIN_ELEV); (dist, sceneFloor)].

Definition _regions2dCutaway (start end_ : Waypoint) (regions : list Region)
    : Logged (list Polygon) :=
  let paths := cutaway_paths start end_ regions in
  let dist := distanceBetween G start end_ in
  let paths := paths ++ [fromPolygons G [floorPoly dist]] in
  let combinedPaths := combinePaths G paths in
  let combinedPolys := toPolygons G (clean G combinedPaths) in
  if Nat.eqb (length combinedPolys) 0
     || forallb (fun poly => negb (isPositive G poly)) combinedPolys
  then mkLogged [] []
  else if existsb (fun poly => negb (isPositive G poly)) combinedPolys
       then mkLogged combinedPolys [CutawayHoles]
       else mkLogged combinedPolys [].

(** *** Helper functions of the tracer *)

(** [pointOnPolygonEdge]: the first edge the point is on. *)
Definition pointOnPolygonEdge (a : pt) (poly : Polygon) : option Edge :=
  find (fun edge => pointAlmostEqual G a (closestPointToSegment G a (eA edge) (eB edge)))
       (iterateEdges G poly).

Definition cutawayElevationType (a : pt) (polys : list Polygon) : ELEVATION_LOCATIONS :=
  if existsb (fun poly => contains G poly (fst a) (snd a)) polys then UNDERGROUND
  else if existsb (fun poly => match pointOnPolygonEdge a poly with Some _ => true | None => false end) polys
       then GROUND
       else FLOATING.

(** The inner [forEach] of [polygonsIntersections], over the edge indices
    of one polygon.  [poly._edges[i]] of an index out of range is
    [undefined], and so is [ix] when the lines are parallel: both throw at
    the next property access. *)
Fixpoint polygon_ixs (a b : pt) (polyIndex : nat) (edges : list Edge)
    (ixIndices : list nat) : Result (list PolyIx) :=
  match ixIndices with
  | [] => Returns []
  | i :: rest =>
      match nth_error edges i with
      | None => Throws
      | Some edge =>
          match lineLineIntersection G a b (eA edge) (eB edge) with
          | None => Throws
          | Some ix =>
              match polygon_ixs a b polyIndex edges rest with
              | Throws => Throws
              | Returns more =>
                  if Qeq_bool (t0 ix) 0 then Returns more
                  else Returns ({| pix := ix; pix_edge := edge;
                                   pix_edge_index := i; pix_poly := polyIndex |} :: more)
              end
          end
      end
  end.

(** The outer [forEach] of [polygonsIntersections].  [skipPoly] is the
    position of the polygon to skip.  The test on [poly._xMinMax] never
    fires: the property that is cached is called [_minMax]. *)
Fixpoint polygons_ixs (a b : pt) (polyIndex : nat) (polys : list Polygon)
    (skipPoly : option nat) : Result (list PolyIx) :=
  match polys with
  | [] => Returns []
  | poly :: rest =>
      let here :=
        if match skipPoly with Some k => Nat.eqb k polyIndex | None => false end
        then Returns []
        else
          let edges := iterateEdges G poly in
          if negb (lineSegmentIntersects G poly a b edges) then Returns []
          else polygon_ixs a b polyIndex edges (segmentIntersections G poly a b edges) in
      match here with
      | Throws => Throws
      | Returns ixs =>
          match polygons_ixs a b (S polyIndex) rest skipPoly with
          | Throws => Throws
          | Returns more => Returns (ixs ++ more)
          end
      end
  end.

Definition polygonsIntersections (a b : pt) (combinedPolys : list Polygon)
    (skipPoly : option nat) : Result (list PolyIx) :=
  match polygons_ixs a b 0 combinedPolys skipPoly with
  | Throws => Throws
  | Returns ixs => Returns (sort_t0 ixs)
  end.

(** *** Path tracer *)

(** The variables of the [while] loop.  [currEnd] is [None] when it was
    read from [currPoly._pts] at an index that has no element.  [waypoints]
    holds the array in reverse, the waypoint pushed last first. *)
Record March : Type := mkMarch {
  currPosition : CPoint;
  currEnd : option CPoint;
  currPoly : option nat;
  currPolyIndex : Z;
  waypoints : list CPoint
}.

(** How one pass through the loop body ends (a break with the waypoints,
    in reverse). *)
Inductive Step : Type :=
| Break (waypoints : list CPoint)
| Continue (m : March)
| Throw.

(** [destPoly === currPoly]: [destPoly] is a polygon or [undefined],
    [currPoly] a polygon or [null]; they are equal only as the same
    polygon. *)
Definition same_poly (destPoly currPoly : option nat) : bool :=
  match destPoly, currPoly with
  | Some i, Some j => Nat.eqb i j
  | _, _ => false
  end.

(** [poly._pts[i]] as a cutaway point. *)
Definition vertex (combinedPolys : list Polygon) (polyIndex : nat) (i : Z)
    : option CPoint :=
  match nth_error combinedPolys polyIndex with
  | None => None
  | Some poly =>
      if (i <? 0)%Z then None
      else match nth_error (iteratePoints G poly) (Z.to_nat i) with
           | None => None
           | Some p => Some {| cx := fst p; cy := snd p; oid := OVertex polyIndex (Z.to_nat i) |}
           end
  end.

(** Step 6 of the loop body: cycle to the next point of the polygon. *)
Definition cycle (combinedPolys : list Polygon) (polyIndex : nat)
    (currEnd : CPoint) (currPolyIndex : Z) (waypoints : list CPoint) : Step :=
  match nth_error combinedPolys polyIndex with
  | None => Throw
  | Some poly =>
      let currPolyIndex := (currPolyIndex + 1)%Z in
      let currPolyIndex :=
        if (Z.of_nat (length (iteratePoints G poly)) <=? currPolyIndex)%Z
        then 0%Z else currPolyIndex in
      Continue {| currPosition := currEnd;
                  currEnd := vertex combinedPolys polyIndex currPolyIndex;
                  currPoly := Some polyIndex;
                  currPolyIndex := currPolyIndex;
                  waypoints := waypoints |}
  end.

(** The body of the [while] loop, in the iteration that makes [iter]
    equal to the given number. *)
Definition march_body (flying burrowing : flag) (endType : ELEVATION_LOCATIONS)
    (combinedPolys : list Polygon) (end2d : CPoint) (destPoly : option nat)
    (iter : nat) (m : March) : Step :=
  let currPosition := currPosition m in
  let waypoints := currPosition :: waypoints m in
  match currEnd m with
  | None => Throw
  | Some currEnd =>
      let currPoly := currPoly m in
      (* 1. Is end moving us backwards? *)
      let '(currEnd, currPoly) :=
        if Qlt_le_dec (cx currEnd) (cx currPosition)
        then ((if truthy flying then end2d
               else {| cx := cx currPosition; cy := sceneFloor; oid := OFloor iter |}),
              None)
        else (currEnd, currPoly) in
      (* 2. Flying and end would take us lower. *)
      let '(currEnd, currPoly) :=
        if truthy flying
           && (if Qlt_le_dec (cy currEnd) (cy end2d) then true else false)
           && (if Qlt_le_dec (cy currEnd) (cy currPosition) then true else false)
        then (end2d, None)
        else (currEnd, currPoly) in
      (* 3. Are we at the end? *)
      let '(currEnd, currPoly) :=
        if cutawayPointsEqual currPosition currEnd then (end2d, None)
        else (currEnd, currPoly) in
      if Qle_bool (cx end2d) (cx currPosition) then Break waypoints
      else
        (* 4. Line of sight to the end. *)
        let hasLOSToEnd :=
          if truthy flying || truthy burrowing
          then negb (existsb (fun poly => linesCross G poly (cpt currPosition) (cpt end2d))
                             combinedPolys)
          else false in
        if hasLOSToEnd
           && ((truthy flying && loc_eqb endType FLOATING)
               || (truthy burrowing && same_poly destPoly currPoly))
        then Continue {| currPosition := currEnd; currEnd := Some currEnd;
                         currPoly := None; currPolyIndex := currPolyIndex m;
                         waypoints := waypoints |}
        else
          match currPoly with
          | Some polyIndex =>
              (* 6. *)
              cycle combinedPolys polyIndex currEnd (currPolyIndex m) waypoints
          | None =>
              (* 5. Check for polygons between position and end. *)
              match polygonsIntersections (cpt currPosition) (cpt currEnd)
                                          combinedPolys currPoly with
              | Throws => Throw
              | Returns [] =>
                  Continue {| currPosition := currEnd; currEnd := Some currEnd;
                              currPoly := None; currPolyIndex := currPolyIndex m;
                              waypoints := waypoints |}
              | Returns (ix0 :: _) =>
                  let currPosition :=
                    {| cx := lx (pix ix0); cy := ly (pix ix0); oid := OIx iter |} in
                  let polyIndex := pix_poly ix0 in
                  let waypoints := currPosition :: waypoints in
                  (* [this.ix] is undefined, so [ixs.find] stops at
                     [ixs[0]], whose [poly] is [currPoly]. *)
                  if truthy burrowing
                  then Continue {| currPosition := currPosition; currEnd := Some end2d;
                                   currPoly := None; currPolyIndex := currPolyIndex m;
                                   waypoints := waypoints |}
                  else
                    let edgeB := eB (pix_edge ix0) in
                    let currEnd :=
                      {| cx := fst edgeB; cy := snd edgeB;
                         oid := OEdgeB polyIndex (pix_edge_index ix0) |} in
                    match nth_error combinedPolys polyIndex with
                    | None => Throw
                    | Some poly =>
                        let currPolyIndex :=
                          match findIndex (fun p => pointAlmostEqual G p edgeB)
                                          (iteratePoints G poly) with
                          | Some i => Z.of_nat i
                          | None => (-1)%Z
                          end in
                        cycle combinedPolys polyIndex currEnd currPolyIndex waypoints
                    end
              end
          end
  end.

(** The [while ( iter < MAX_ITER )] loop.  [remaining] is
    [MAX_ITER - iter] at the test; the result is the waypoints and
    [MAX_ITER - iter] after the loop. *)
Fixpoint march (flying burrowing : flag) (endType : ELEVATION_LOCATIONS)
    (combinedPolys : list Polygon) (end2d : CPoint) (destPoly : option nat)
    (remaining : nat) (m : March) : Result (list CPoint * nat) :=
  match remaining with
  | O => Returns (rev (waypoints m), O)
  | S r =>
      match march_body flying burrowing endType combinedPolys end2d destPoly
                       (MAX_ITER - r) m with
      | Throw => Throws
      | Break waypoints => Returns (rev waypoints, r)
      | Continue m' => march flying burrowing endType combinedPolys end2d destPoly r m'
      end
  end.


(** *** What the tracer needs of the cutaway not to throw *)



(** "Undo rounding of the end point": the write to [endWaypoint.x], seen
    at every place of [waypoints] that holds the same object. *)
Definition undo_rounding (end2d : CPoint) (waypoints : list CPoint) : list CPoint :=
  match rev waypoints with
  | [] => waypoints
  | endWaypoint :: _ =>
      if almostEqual G (cx end2d) (cx endWaypoint) (51 # 100)
      then map (fun w => if oid_eqb (oid w) (oid endWaypoint)
                         then {| cx := cx end2d; cy := cy w; oid := oid w |} else w)
               waypoints
      else waypoints
  end.

(** [combinedPolys.forEach(poly => ...)]: orient every polygon for the
    direction of the walk. *)
Definition orient_polys (walk_cw : bool) (combinedPolys : list Polygon) : list Polygon :=
  map (fun poly => if xorb (isClockwise G poly) walk_cw
                   then reverseOrientation G poly else poly)
      combinedPolys.

(** [combinedPolys.find(poly => poly.contains(end2d.x, end2d.y)
    || pointOnPolygonEdge(end2d, poly))], as a position. *)
Definition find_destPoly (end2d : pt) (combinedPolys : list Polygon) : option nat :=
  findIndex (fun poly => contains G poly (fst end2d) (snd end2d)
                         || match pointOnPolygonEdge end2d poly with
                            | Some _ => true | None => false end)
            combinedPolys.

(** What [constructRegionsPath] sets up between the cutaway and the loop:
    the oriented polygons, [end2d], [destPoly] and the variables of the loop
    at its start. *)
Definition march_setup (start end_ : Waypoint) (endType : ELEVATION_LOCATIONS)
    (flying burrowing : flag) (combinedPolys : list Polygon)
    : list Polygon * CPoint * option nat * March :=
  let start2d :=
    let p := _to2dCutawayCoordinate start start in
    {| cx := fst p; cy := snd p; oid := OStart |} in
  let end2d :=
    let p := _to2dCutawayCoordinate end_ start in
    {| cx := floor G (fst p); cy := snd p; oid := OEnd |} in
  let walk_cw := if Qlt_le_dec (cx start2d) (cx end2d) then false else true in
  let combinedPolys := orient_polys walk_cw combinedPolys in
  let startType := cutawayElevationType (cpt start2d) combinedPolys in
  let currEnd :=
    if (is_false burrowing && loc_eqb startType UNDERGROUND)
       || (is_false flying && loc_eqb startType FLOATING)
    then {| cx := cx start2d; cy := sceneFloor; oid := OFloor 0 |}
    else end2d in
  let destPoly :=
    if loc_eqb endType UNDERGROUND
    then find_destPoly (cpt end2d) combinedPolys else None in
  (combinedPolys, end2d, destPoly,
   {| currPosition := start2d; currEnd := Some currEnd;
      currPoly := None; currPolyIndex := (-1)%Z;
      waypoints := [] |}).

Definition constructRegionsPath (start end_ : Waypoint)
    (regions : option (list Region)) (flying burrowing : flag)
    (samples : option Samples) : Result (Logged (list PathPoint)) :=
  if regionWaypointsEqual start end_ || (truthy flying && truthy burrowing)
  then Returns (mkLogged [of_waypoint start; of_waypoint end_] [])
  else
    let regions := elevatedRegions regions in
    if Nat.eqb (length regions) 0
    then Returns (mkLogged [of_waypoint start; of_waypoint end_] [])
    else
      let endType := elevationType end_ (Some regions) in
      if regionWaypointsXYEqual start end_
      then
        if (is_false flying && loc_eqb endType FLOATING)
           || (is_false burrowing && loc_eqb endType UNDERGROUND)
        then
          let endE := nearestGroundElevation end_ (Some regions) samples burrowing in
          Returns (mkLogged [of_waypoint start;
                             {| px := x end_; py := None; pelevation := value endE |}]
                            (log endE))
        else Returns (mkLogged [of_waypoint start; of_waypoint end_] [])
      else
        let cutaway := _regions2dCutaway start end_ regions in
        let combinedPolys := value cutaway in
        if Nat.eqb (length combinedPolys) 0
        then Returns (mkLogged [of_waypoint start; of_waypoint end_] (log cutaway))
        else
          let '(combinedPolys, end2d, destPoly, m) :=
            march_setup start end_ endType flying burrowing combinedPolys in
          match march flying burrowing endType combinedPolys end2d destPoly MAX_ITER m with
          | Throws => Throws
          | Returns (waypoints, remaining) =>
              let waypoints := undo_rounding end2d waypoints in
              Returns
                (mkLogged
                   (map (fun waypoint => _from2dCutawayCoordinate (cpt waypoint) start end_)
                        waypoints)
                   (log cutaway ++ if Nat.eqb remaining 0 then [PathMaxIter] else []))
          end.

(** *** The statements of the specification about the tracer *)

(** The condition under which an elevation-only move snaps its end to the
    ground. *)
Definition end_is_snapped (end_ : Waypoint) (regions : option (list Region))
    (flying burrowing : flag) : bool :=
  let endType := elevationType end_ (Some (elevatedRegions regions)) in
  (is_false flying && loc_eqb endType FLOATING)
  || (is_false burrowing && loc_eqb endType UNDERGROUND).

(** The specification of the elevation-only move: the path is [start] and
    an end at the 2D position of [end_], whose elevation is the answer of
    the ground resolver exactly when the end is to be snapped, and which is
    [end_] itself otherwise. *)
Definition vertical_move_spec (start end_ : Waypoint) (regions : option (list Region))
    (flying burrowing : flag) (samples : option Samples) : Prop :=
  regionWaypointsXYEqual start end_ = true ->
  Qeq_bool (elevation start) (elevation end_) = false ->
  exists end' lg,
    constructRegionsPath start end_ regions flying burrowing samples
    = Returns (mkLogged [of_waypoint start; end'] lg)
    /\ px end' == x end_
    /\ (exists q, py end' = Some q /\ q == y end_)
    /\ (if end_is_snapped end_ regions flying burrowing
        then num_eq (pelevation end')
                    (value (nearestGroundElevation end_ (Some (elevatedRegions regions))
                                                   samples burrowing))
        else end' = of_waypoint end_).

(** The specification of the endpoints: the path starts at [start] and
    ends at [end_]. *)
Definition endpoints_spec (start end_ : Waypoint) (regions : option (list Region))
    (flying burrowing : flag) (samples : option Samples) : Prop :=
  exists path lg first last_,
    constructRegionsPath start end_ regions flying burrowing samples
    = Returns (mkLogged path lg)
    /\ hd_error path = Some first /\ same_point first start
    /\ hd_error (rev path) = Some last_ /\ same_point last_ end_.

(** The cutaway distance coordinate of a returned point (none when the
    point has no [y]). *)
Definition cutawayDistance (start : Waypoint) (p : PathPoint) : option Q :=
  match py p with
  | Some py => Some (distanceBetween G start {| x := px p; y := py; elevation := 0 |})
  | None => None
  end.

(** The specification of the order: the cutaway distances of the returned
    points never decrease. *)
Definition monotone_spec (start end_ : Waypoint) (regions : option (list Region))
    (flying burrowing : flag) (samples : option Samples) : Prop :=
  exists path lg ds,
    constructRegionsPath start end_ regions flying burrowing samples
    = Returns (mkLogged path lg)
    /\ map (cutawayDistance start) path = map (@Some Q) ds
    /\ nondecreasing ds.

End Handler.

(** ** The geometry over the rationals

    The library functions behind [Geometry], written out over [Q] for the
    scenarios below: Foundry's orientation tests and intersections, PIXI's
    ray-casting containment, Clipper's orientation by signed area.  The
    square root is exact on squares of rationals and rounded down otherwise.
    The union of the paths is a parameter: [concat] is the union of pairwise
    disjoint paths. *)
Module QGeom.

(** [foundry.utils.orient2dFast] *)
Definition orient2dFast (a b c : pt) : Q :=
  (snd a - snd c) * (fst b - fst c) - (fst a - fst c) * (snd b - snd c).

Definition Qltb (a b : Q) : bool := negb (Qle_bool b a).

(** [foundry.utils.lineSegmentIntersects] *)
Definition segmentIntersects (a b c d : pt) : bool :=
  let xa := orient2dFast a b c in
  let xb := orient2dFast a b d in
  if Qeq_bool xa 0 && Qeq_bool xb 0 then false
  else Qle_bool (xa * xb) 0 && Qle_bool (orient2dFast c d a * orient2dFast c d b) 0.

(** [lineSegmentCrosses]: the segments cross at a point interior to both. *)
Definition segmentCrosses (a b c d : pt) : bool :=
  let xa := orient2dFast a b c in
  let xb := orient2dFast a b d in
  let xc := orient2dFast c d a in
  let xd := orient2dFast c d b in
  if Qeq_bool xa 0 || Qeq_bool xb 0 || Qeq_bool xc 0 || Qeq_bool xd 0 then false
  else Qltb (xa * xb) 0 && Qltb (xc * xd) 0.

(** [foundry.utils.lineLineIntersection] *)
Definition lineLineIntersection (a b c d : pt) : option LineIx :=
  if (Qeq_bool (fst a) (fst b) && Qeq_bool (snd a) (snd b))
     || (Qeq_bool (fst c) (fst d) && Qeq_bool (snd c) (snd d)) then None
  else
    let dnm := (snd d - snd c) * (fst b - fst a) - (fst d - fst c) * (snd b - snd a) in
    if Qeq_bool dnm 0 then None
    else
      let t := Qred (((fst d - fst c) * (snd a - snd c) - (snd d - snd c) * (fst a - fst c)) / dnm) in
      Some {| lx := Qred (fst a + t * (fst b - fst a));
              ly := Qred (snd a + t * (snd b - snd a));
              t0 := t |}.

(** [foundry.utils.closestPointToSegment] *)
Definition closestPointToSegment (c a b : pt) : pt :=
  let dx := fst b - fst a in
  let dy := snd b - snd a in
  let u := ((fst c - fst a) * dx + (snd c - snd a) * dy) / (dx * dx + dy * dy) in
  if Qltb u 0 then a
  else if Qltb 1 u then b
  else (Qred (fst a + u * dx), Qred (snd a + u * dy)).

(** [almostEqual] on numbers *)
Definition almostEqual (a b epsilon : Q) : bool := Qltb (Qabs (a - b)) epsilon.

(** [almostEqual] on points, with the default epsilon [1e-8] *)
Definition pointAlmostEqual (a b : pt) : bool :=
  almostEqual (fst a) (fst b) (1 # 100000000)
  && almostEqual (snd a) (snd b) (1 # 100000000).

(** The edges of a polygon, the last one closing it. *)
Fixpoint edges_from (first : pt) (prev : pt) (rest : list pt) : list Edge :=
  match rest with
  | [] => [{| eA := prev; eB := first |}]
  | p :: rest' => {| eA := prev; eB := p |} :: edges_from first p rest'
  end.

Definition iterateEdges (poly : Polygon) : list Edge :=
  match poly with
  | [] | [_] => []
  | first :: rest => edges_from first first rest
  end.

(** Twice the signed area, positive for a polygon that runs
    counter-clockwise with the y axis up (Clipper's orientation). *)
Definition area2 (poly : Polygon) : Q :=
  Qred (fold_left (fun acc e => acc + (fst (eA e) * snd (eB e) - fst (eB e) * snd (eA e)))
                  (iterateEdges poly) 0).

(** [PIXI.Polygon#contains]: cast a ray and count the crossings. *)
Definition contains (poly : Polygon) (px py : Q) : bool :=
  fold_left
    (fun inside e =>
       let xi := fst (eB e) in let yi := snd (eB e) in
       let xj := fst (eA e) in let yj := snd (eA e) in
       if negb (Bool.eqb (Qltb py yi) (Qltb py yj))
          && Qltb px ((xj - xi) * ((py - yi) / (yj - yi)) + xi)
       then negb inside else inside)
    (iterateEdges poly) false.

(** [Math.sqrt] *)
Definition sqrt (q : Q) : Q := Qred (Z.sqrt (Qnum q * Zpos (Qden q)) # Qden q).

Definition distanceBetween (a b : Waypoint) : Q :=
  sqrt ((x b - x a) * (x b - x a) + (y b - y a) * (y b - y a)).

(** [a.towardsPoint(b, distance)] *)
Definition towardsPoint (a b : pt) (distance : Q) : pt :=
  let dx := fst b - fst a in
  let dy := snd b - snd a in
  let t := distance / sqrt (dx * dx + dy * dy) in
  (Qred (fst a + dx * t), Qred (snd a + dy * t)).

End QGeom.

(** The [Geometry] of these functions. *)
Definition QGeometry (union : list (list Polygon) -> list Polygon)
    : Geometry (list Polygon) :=
  {| distanceBetween := QGeom.distanceBetween;
     towardsPoint := QGeom.towardsPoint;
     floor := fun q => inject_Z (Qfloor q);
     almostEqual := QGeom.almostEqual;
     pointAlmostEqual := QGeom.pointAlmostEqual;
     isClockwise := fun poly => Qle_bool 0 (QGeom.area2 poly);
     reverseOrientation := @rev pt;
     isPositive := fun poly => QGeom.Qltb 0 (QGeom.area2 poly);
     contains := QGeom.contains;
     linesCross := fun poly a b =>
       existsb (fun e => QGeom.segmentCrosses a b (eA e) (eB e)) (QGeom.iterateEdges poly);
     iteratePoints := fun poly => poly;
     iterateEdges := QGeom.iterateEdges;
     lineSegmentIntersects := fun _ a b edges =>
       existsb (fun e => QGeom.segmentIntersects a b (eA e) (eB e)) edges;
     segmentIntersections := fun _ a b edges =>
       map fst (filter (fun ie => QGeom.segmentIntersects a b (eA (snd ie)) (eB (snd ie)))
                       (combine (seq 0 (length edges)) edges));
     lineLineIntersection := QGeom.lineLineIntersection;
     closestPointToSegment := QGeom.closestPointToSegment;
     fromPolygons := fun polys => polys;
     combinePaths := union;
     clean := filter (fun poly => negb (Qeq_bool (QGeom.area2 poly) 0));
     toPolygons := fun polys => polys |}.


(** ** The union of the cutaway *)

(** [Math.round] on both coordinates. *)
Definition roundPoint (p : pt) : pt :=
  (inject_Z (Qfloor (fst p + (1 # 2))), inject_Z (Qfloor (snd p + (1 # 2)))).

(** Modelled from the spec: [ClipperPaths] is not in src/; the spec has the
    projector "Boolean-union all polygons, clean degenerate edges, decompose
    into positive-area polygons" and says that "clipping introduces integer
    rounding"; the handler has "Clipper will end up rounding the polygon
    points to integers".  This is the union of paths that do not overlap:
    their polygons, with every point rounded to integers. *)
Definition roundingUnion (paths : list (list Polygon)) : list Polygon :=
  map (map roundPoint) (concat paths).


(** ** Scenarios *)

(** The regions of the scenarios: no sample shape, and clipper paths as a
    list of polygons. *)
Abbreviation Zone := (Region unit (list Polygon)).

(** [elevatedRegions] in a scene whose regions ([canvas]) are all elevated. *)
Definition elevatedOf (canvas : list Zone) (regions : option (list Zone)) : list Zone :=
  match regions with
  | Some l => l
  | None => canvas
  end.

(** A region over the strip [x0 <= x <= x1] of the canvas, between the
    elevations [bottom] and [top], whose elevation on entry is [surface],
    and whose contribution to the cutaway is [cut].  A vertical fall from
    above enters it at [top]. *)
Definition stripZone (x0 x1 bottom top : Q) (surface : Waypoint -> Q)
    (cut : option (list Polygon)) : Zone :=
  {| testPoint := fun w e =>
       Qle_bool x0 (x w) && Qle_bool (x w) x1
       && match e with
          | Fin q => Qle_bool bottom q && Qle_bool q top
          | NegInf => false
          end;
     elevationUponEntry := surface;
     segmentizeMovement := fun waypoints _ =>
       match waypoints with
       | [a; b] =>
           if Qle_bool x0 (x a) && Qle_bool (x a) x1
              && Qle_bool (elevation b) top && QGeom.Qltb top (elevation a)
           then [{| seg_type := ENTER;
                    seg_from := {| x := x a; y := y a; elevation := top |};
                    seg_to := {| x := x a; y := y a; elevation := top |} |}]
           else []
       | _ => []
       end;
     _region2dCutaway := fun _ _ => cut |}.

(** A plateau: the elevation on entry is the same everywhere. *)
Definition boxZone (x0 x1 bottom top plateau : Q) (cut : option (list Polygon)) : Zone :=
  stripZone x0 x1 bottom top (fun _ => plateau) cut.

(** A box over [5, 15] between the elevations 2 and 4, above a scene floor
    at 0. *)
Definition lowBox : Zone :=
  boxZone 5 15 2 4 4 (Some [[(5, 2); (15, 2); (15, 4); (5, 4)]]).




(** The plateau of the specification's scenarios: entry elevation 10 over
    [5, 15], on a scene floor at 0, across a move of 20. *)
Definition plateau10 : Zone :=
  boxZone 5 15 0 10 10 (Some [[(5, 0); (15, 0); (15, 10); (5, 10)]]).

(** The union of that plateau with the scene floor: one polygon. *)
Definition plateauUnion (paths : list (list Polygon)) : list Polygon :=
  [[(0, MIN_ELEV); (20, MIN_ELEV); (20, 0); (15, 0); (15, 10); (5, 10); (5, 0); (0, 0)]].

(** A plateau at elevation 5 over [0, 20], from the scene floor (0) up. *)
Definition plateau5 : Zone := boxZone 0 20 0 5 5 None.

(** A ramp over [0, 20] that rises from 3 at [x = 0] by half a unit per
    unit of [x], inside a region between the elevations 0 and 13. *)
Definition ramp3 : Zone := stripZone 0 20 0 13 (fun w => 3 + (1 # 2) * x w) None.

(** Two regions that send a waypoint at [x = 10] back and forth: the lower
    one, between 0 and 5, puts it at 10 on entry; the upper one, between 10
    and 12, puts it at 0. *)
Definition lowerZone : Zone := boxZone 0 20 0 5 10 None.

(** A region that floats: a box over [5, 15] between the elevations 4 and
    6, above a scene floor at 0. *)
Definition floatingBox : Zone :=
  boxZone 5 15 4 6 6 (Some [[(5, 4); (15, 4); (15, 6); (5, 6)]]).

(** A region with the top of [plateau5], from 3 up, whose elevation on
    entry is 7: a fall from above enters both at the same elevation. *)
Definition ledge : Zone := boxZone 0 20 3 5 7 None.


(** ** The coordinate mapper over the real numbers

    The planar distance is a square root, which the rationals do not have;
    the round trip of the mapper is stated over the real numbers, where the
    arithmetic of the two functions is exact. *)
Module MapperR.

Local Open Scope R_scope.

(** [RegionMovementWaypoint] with real coordinates. *)
Record WaypointR : Type := mkWaypointR {
  xR : R;
  yR : R;
  elevationR : R
}.

(** Modelled from the spec: [PIXI.Point.distanceBetween] is not in src/;
    the spec has it as [planarDistance(start, point)]. *)
Definition distanceBetween (a b : WaypointR) : R :=
  sqrt ((xR b - xR a) * (xR b - xR a) + (yR b - yR a) * (yR b - yR a)).

(** Modelled from the spec: [towardsPoint] is not in src/; the spec has it
    give the "canvas point located [distance] along the start→end ray". *)
Definition towardsPoint (a b : WaypointR) (distance : R) : R * R :=
  let t := distance / distanceBetween a b in
  (xR a + (xR b - xR a) * t, yR a + (yR b - yR a) * t).

Definition _to2dCutawayCoordinate (waypoint start : WaypointR) : R * R :=
  (distanceBetween start waypoint, elevationR waypoint).

Definition _from2dCutawayCoordinate (p : R * R) (start end_ : WaypointR) : WaypointR :=
  let canvasPt := towardsPoint start end_ (fst p) in
  {| xR := fst canvasPt; yR := snd canvasPt; elevationR := snd p |}.

(** [p] lies on the segment from [start] to [end_] of the canvas. *)
Definition on_segment (p start end_ : WaypointR) : Prop :=
  exists s, 0 <= s <= 1
            /\ xR p = xR start + s * (xR end_ - xR start)
            /\ yR p = yR start + s * (yR end_ - yR start).

End MapperR.

(** ** The coordinate mapper in the numbers of the program

    JavaScript numbers are IEEE 754 doubles, which are the primitive floats
    of the kernel: the same formulas, with every operation rounded. *)
Module MapperF.

Import PrimFloat.
Local Open Scope float_scope.

(** [RegionMovementWaypoint] with double coordinates. *)
Record WaypointF : Type := mkWaypointF {
  xF : float;
  yF : float;
  elevationF : float
}.

(** Modelled from the spec: [PIXI.Point.distanceBetween] is not in src/;
    the spec has it as [planarDistance(start, point)]. *)
Definition distanceBetween (a b : WaypointF) : float :=
  sqrt ((xF b - xF a) * (xF b - xF a) + (yF b - yF a) * (yF b - yF a)).

(** Modelled from the spec: [towardsPoint] is not in src/; the spec has it
    give the "canvas point located [distance] along the start→end ray". *)
Definition towardsPoint (a b : WaypointF) (distance : float) : float * float :=
  let t := distance / distanceBetween a b in
  (xF a + (xF b - xF a) * t, yF a + (yF b - yF a) * t).

Definition _to2dCutawayCoordinate (waypoint start : WaypointF) : float * float :=
  (distanceBetween start waypoint, elevationF waypoint).

Definition _from2dCutawayCoordinate (p : float * float) (start end_ : WaypointF)
    : WaypointF :=
  let canvasPt := towardsPoint start end_ (fst p) in
  {| xF := fst canvasPt; yF := snd canvasPt; elevationF := snd p |}.

(** [p] lies on the segment from [start] to [end_] of the canvas. *)
Definition on_segment (p start end_ : WaypointF) : Prop :=
  exists s, (0 <=? s) = true /\ (s <=? 1) = true
            /\ xF p = xF start + s * (xF end_ - xF start)
            /\ yF p = yF start + s * (yF end_ - yF start).

(** The specification of the mapper: the round trip of a point of the
    segment is exact. *)
Definition round_trip_spec (p start end_ : WaypointF) : Prop :=
  on_segment p start end_ ->
  _from2dCutawayCoordinate (_to2dCutawayCoordinate p start) start end_ = p.

(** Three quarters of the way from (0, 0) to (4, 4); and a segment between
    two waypoints at one place of the canvas, one above the other. *)
Definition corner : WaypointF := {| xF := 0; yF := 0; elevationF := 0 |}.
Definition far : WaypointF := {| xF := 4; yF := 4; elevationF := 0 |}.
Definition between : WaypointF := {| xF := 3; yF := 3; elevationF := 0 |}.
Definition above : WaypointF := {| xF := 0; yF := 0; elevationF := 5 |}.

End MapperF.


(** * The effect helper

    [EffectHelper] of scripts/EffectHelper.js: the class that keeps the
    active effect of a terrain in the terrains item and puts it on tokens.
    Foundry's documents are records of the properties the class reads; its
    database calls are modelled by the data they are called with.  What the
    class takes from elsewhere is a variable: [Settings.terrainEffectsItem],
    [CONFIG.ActiveEffect.documentClass], [fromUuidSync], and [COLORS],
    [FLAGS.EFFECT_ID] of const.js. *)
Module EffectHelper.

Import String.
Local Open Scope string_scope.

(** [flags[MODULE_ID]]: an object with string values, as its properties in
    the order of their creation. *)
Definition Flags : Type := list (string * string).

(** [flags[key]] *)
Fixpoint flag_get (key : string) (flags : Flags) : option string :=
  match flags with
  | [] => None
  | (k, v) :: rest => if String.eqb k key then Some v else flag_get key rest
  end.

(** [flags[key] = v] *)
Fixpoint flag_set (key v : string) (flags : Flags) : Flags :=
  match flags with
  | [] => [(key, v)]
  | (k, w) :: rest =>
      if String.eqb k key then (k, v) :: rest else (k, w) :: flag_set key v rest
  end.

(** The property that [removeFromToken] reads: [.effectId]. *)
Definition effectId : string := "effectId".

(** An active effect, or the plain data of one. *)
Record Effect : Type := mkEffect {
  _id : string;
  name : string;
  isActiveEffect : bool;          (* [effect instanceof ActiveEffect] *)
  moduleFlags : option Flags;     (* [effect.flags[MODULE_ID]] *)
  img : option string
}.

(** [Settings.terrainEffectsItem]: an [Item], whose [effects] is a
    collection keyed by the [_id] of its documents, or stored data, whose
    [effects] is an array. *)
Record Item : Type := mkItem {
  isItem : bool;                  (* [item instanceof Item] *)
  item_effects : list Effect
}.

(** An effect on an actor: its [_id] and its [flags?.[MODULE_ID]]. *)
Record ActorEffect : Type := mkActorEffect {
  actor_effect_id : string;
  actor_effect_flags : option Flags
}.

Record Actor : Type := mkActor {
  actor_effects : list ActorEffect
}.

Record TokenObject : Type := mkTokenObject {
  actor : option Actor
}.

Record TokenDocument : Type := mkTokenDocument {
  object : option TokenObject
}.

(** The instance: [this.effect]. *)
Record Helper : Type := mkHelper {
  effect : option Effect
}.

(** What [addToToken] passes to [actor.createEmbeddedDocuments]:
    [this.effect.toObject()] with the properties it writes. *)
Record EffectData : Type := mkEffectData {
  data_of : Effect;
  origin : string;
  data_flags : Flags;             (* [effectData.flags[MODULE_ID]] *)
  statuses : option (list string) (* [None]: as in the effect *)
}.

Section Class.

Variable Color : Type.
Variable COLORS : list Color.
Variable terrainEffectsItem : option Item.

(** What [_createActiveEffect] reads of its [config] for the colour:
    whether [config.origin] is there, [config.color], and
    [config.flags[MODULE_ID][FLAGS.COLOR]], when [config.flags] has it. *)
Record Config : Type := mkConfig {
  config_origin : bool;
  config_color : option Color;
  config_flags_color : option Color
}.
Variable documentClass : Effect -> Effect.
Variable fromUuidSync : string -> option TokenDocument.
Variable FLAGS_EFFECT_ID : string.
(** [Settings.get(Settings.KEYS.AUTO_TERRAIN.DISPLAY_ICON)] *)
Variable DISPLAY_ICON : bool.

(** [nextColor]: the colour, and [#colorId] after the call. *)
Definition nextColor (colorId : nat) : option Color * nat :=
  (nth_error COLORS colorId, S colorId).

(** [_createActiveEffect], as far as the colour goes: the colour flag of
    the data handed to the document class for the effect created, and
    [#colorId] after the call.  Without an item the call throws: at
    [item.uuid] when the config has no origin, and otherwise at
    [item.createEmbeddedDocuments], after the default colour was taken.
    [tf[FLAGS.COLOR] = config.color ?? this.constructor.nextColor()] sets the
    colour, and [mergeObject(terrainFlags, config.flags)] overwrites it with
    the colour flag of [config.flags], when there is one. *)
Definition _createActiveEffect_color (config : Config) (colorId : nat)
    : Result (option Color) * nat :=
  match terrainEffectsItem, config_origin config with
  | None, false => (Throws, colorId)
  | item, _ =>
      let '(tf_color, colorId) :=
        match config_color config with
        | Some c => (Some c, colorId)
        | None => nextColor colorId
        end in
      let flags_color :=
        match config_flags_color config with
        | Some c => Some c
        | None => tf_color
        end in
      match item with
      | None => (Throws, colorId)
      | Some _ => (Returns flags_color, colorId)
      end
  end.

(** Successive calls of [_createActiveEffect]. *)
Fixpoint created_colors (configs : list Config) (colorId : nat)
    : list (Result (option Color)) :=
  match configs with
  | [] => []
  | config :: rest =>
      let '(c, colorId) := _createActiveEffect_color config colorId in
      c :: created_colors rest colorId
  end.

Definition getAll : list Effect :=
  match terrainEffectsItem with
  | Some item => item_effects item
  | None => []
  end.

Definition terrainEffectExists (effect : Effect) : bool :=
  match terrainEffectsItem with
  | None => false
  | Some item =>
      if isItem item
      then (* [item.effects.has(effect._id)] *)
        existsb (fun e => String.eqb (_id e) (_id effect)) (item_effects item)
      else existsb (fun e => String.eqb (_id e) (_id effect)) (item_effects item)
  end.

Definition getTerrainEffectById (id : string) : option Effect :=
  match terrainEffectsItem with
  | None => None
  | Some item =>
      match find (fun e => String.eqb (_id e) id) (item_effects item) with
      | None => None
      | Some effect =>
          Some (if isActiveEffect effect then effect else documentClass effect)
      end
  end.

(** [new EffectHelper(activeEffect)] *)
Definition constructor (activeEffect : option Effect) : Helper :=
  match activeEffect with
  | None => {| effect := None |}
  | Some activeEffect =>
      let activeEffect :=
        if isActiveEffect activeEffect then activeEffect
        else documentClass activeEffect in
      if terrainEffectExists activeEffect
      then {| effect := getTerrainEffectById (_id activeEffect) |}
      else {| effect := None |}
  end.

(** [fromId]: the helper, or [undefined], and the ids that [console.error]
    reports as not found. *)
Definition fromId (id : string) : option Helper * list string :=
  match getTerrainEffectById id with
  | None => (None, [id])
  | Some effect => (Some (constructor (Some effect)), [])
  end.

(** [tokenD.object?.actor] of [fromUuidSync(tokenUUID)], when both are
    there. *)
Definition token_actor (tokenUUID : string) : option Actor :=
  match fromUuidSync tokenUUID with
  | None => None
  | Some tokenD =>
      match object tokenD with
      | None => None
      | Some token => actor token
      end
  end.

(** [addToToken]: the data handed to [actor.createEmbeddedDocuments], or
    [None] when the method returns before. *)
Definition addToToken (this : Helper) (tokenUUID : string) : option EffectData :=
  match token_actor tokenUUID with
  | None => None
  | Some _ =>
      match effect this with
      | None => None
      | Some effect =>
          let flags := match moduleFlags effect with Some f => f | None => [] end in
          Some {| data_of := effect;
                  origin := "TerrainMapper." ++ _id effect;
                  data_flags := flag_set FLAGS_EFFECT_ID (_id effect) flags;
                  statuses :=
                    match img effect with
                    | Some i =>
                        if negb (String.eqb i "") && DISPLAY_ICON then Some [i] else None
                    | None => None
                    end |}
      end
  end.

(** [e.flags?.[MODULE_ID]?.effectId === id] *)
Definition shares_id (id : string) (e : ActorEffect) : bool :=
  match actor_effect_flags e with
  | None => false
  | Some flags =>
      match flag_get effectId flags with
      | Some v => String.eqb v id
      | None => false
      end
  end.

(** [removeFromToken]: the ids handed to [actor.deleteEmbeddedDocuments],
    or [None] when the method returns before.  The callback of [filter]
    reads [this.effect._id] for every effect of the actor. *)
Definition removeFromToken (this : Helper) (tokenUUID : string)
    : Result (option (list string)) :=
  match token_actor tokenUUID with
  | None => Returns None
  | Some actor =>
      match actor_effects actor, effect this with
      | [], _ => Returns None
      | _ :: _, None => Throws
      | effects, Some effect =>
          match map actor_effect_id (filter (shares_id (_id effect)) effects) with
          | [] => Returns None
          | ids => Returns (Some ids)
          end
      end
  end.

End Class.

(** *** A scene: one terrain effect in the item, one token *)

Definition mud : Effect :=
  {| _id := "mud01"; name := "Mud"; isActiveEffect := true;
     moduleFlags := Some [("anchor", "1")]; img := Some "icons/svg/mountain.svg" |}.

Definition terrainsItem : Item := {| isItem := true; item_effects := [mud] |}.

(** The mud as an effect of an actor. *)
Definition mudOnActor : ActorEffect :=
  {| actor_effect_id := "a2";
     actor_effect_flags := Some [("anchor", "1"); ("effectId", "mud01")] |}.

(** The token's actor carries an effect of its own and the mud. *)
Definition muddyActor : Actor :=
  {| actor_effects :=
       [ {| actor_effect_id := "a1"; actor_effect_flags := None |}; mudOnActor ] |}.

Definition oneToken (tokenUUID : string) : option TokenDocument :=
  if String.eqb tokenUUID "Scene.s.Token.t"
  then Some {| object := Some {| actor := Some muddyActor |} |}
  else None.

Definition theToken : string := "Scene.s.Token.t".

(** A document class that keeps the data it is given. *)
Definition asDocument (data : Effect) : Effect :=
  {| _id := _id data; name := name data; isActiveEffect := true;
     moduleFlags := moduleFlags data; img := img data |}.

(** An effect that is not in the item. *)
Definition fog : Effect :=
  {| _id := "fog02"; name := "Fog"; isActiveEffect := false;
     moduleFlags := None; img := None |}.

End EffectHelper.

(** * The terrain level

    [TerrainLevel]: the terrain at one level of the scene.  The terrain is
    of a class outside this file; its [anchor] and its
    [_elevationMinMaxForAnchorElevation] are fields; [Number.between] is a
    variable. *)
Module TerrainLevel.

(** [FLAGS.ANCHOR.CHOICES], and any other value of [terrain.anchor]. *)
Inductive ANCHOR : Type :=
| ABSOLUTE
| RELATIVE_TO_TERRAIN
| RELATIVE_TO_LAYER
| OTHER.

(** What [getAnchorElevation] returns: a number, the method
    [_layerElevation] itself, or [undefined]. *)
Inductive AnchorElevation : Type :=
| Number (q : Q)
| Method_layerElevation
| Undefined.

Section Class.

(** The result of [_elevationMinMaxForAnchorElevation]. *)
Variable MinMax : Type.
(** [elevation.between(minMaxE.min, minMaxE.max)] *)
Variable between : Q -> MinMax -> bool.

Record Terrain : Type := mkTerrain {
  anchor : ANCHOR;
  _elevationMinMaxForAnchorElevation : AnchorElevation -> MinMax
}.

Record TerrainLevel : Type := mkTerrainLevel {
  terrain : Terrain;
  level : nat
}.

(** [canvas]: the [LAYER_ELEVATIONS] flag of the scene, and
    [canvas.elevation?.elevationAt]. *)
Record Canvas : Type := mkCanvas {
  layerElevations : option (list Q);
  elevationAt : option (pt -> option Q)
}.

Definition _layerElevation (canvas : Canvas) (this : TerrainLevel) : option Q :=
  let layerElevations :=
    match layerElevations canvas with
    | Some l => l
    | None => repeat 0 8
    end in
  nth_error layerElevations (level this).

Definition _canvasElevation (canvas : Canvas) (location : pt) : Q :=
  match elevationAt canvas with
  | None => 0
  | Some elevationAt =>
      match elevationAt location with
      | Some e => e
      | None => 0
      end
  end.

Definition getAnchorElevation (canvas : Canvas) (this : TerrainLevel)
    (location : option pt) : AnchorElevation :=
  match anchor (terrain this) with
  | ABSOLUTE => Number 0
  | RELATIVE_TO_TERRAIN =>
      match location with
      | Some location => Number (_canvasElevation canvas location)
      | None => Number 0
      end
  | RELATIVE_TO_LAYER => Method_layerElevation  (* [this._layerElevation], not called *)
  | OTHER => Undefined
  end.

Definition elevationRange (canvas : Canvas) (this : TerrainLevel)
    (location : option pt) : MinMax :=
  let anchorE := getAnchorElevation canvas this location in
  _elevationMinMaxForAnchorElevation (terrain this) anchorE.

Definition activeAt (canvas : Canvas) (this : TerrainLevel) (elevation : Q)
    (location : option pt) : bool :=
  let minMaxE := elevationRange canvas this location in
  between elevation minMaxE.

End Class.

End TerrainLevel.

(** * Properties *)

(** ** Numbers *)

Lemma num_eqb_eq (a b : num) : num_eqb a b = true <-> num_eq a b.
Proof.
  destruct a, b; simpl; try (split; [discriminate | contradiction]); try tauto.
  apply Qeq_bool_iff.
Qed.

Lemma num_eq_refl (a : num) : num_eq a a.
Proof. destruct a; simpl; [exact I | reflexivity]. Qed.

Lemma num_eqb_refl (a : num) : num_eqb a a = true.
Proof. apply num_eqb_eq, num_eq_refl. Qed.

Lemma num_max_NegInf_l (a : num) : num_max NegInf a = a.
Proof. reflexivity. Qed.

Lemma num_max_Fin_eq (p q e : Q) :
  p == e -> q == e -> exists r, num_max (Fin p) (Fin q) = Fin r /\ r == e.
Proof.
  intros Hp Hq. unfold num_max; simpl.
  destruct (Qle_bool p q); eauto.
Qed.

Lemma MAX_ITER_S : MAX_ITER = S 9999.
Proof. vm_compute. reflexivity. Qed.

Lemma Qeq_bool_refl (q : Q) : Qeq_bool q q = true.
Proof. apply Qeq_bool_iff. reflexivity. Qed.

Section ResolverFacts.

Variables Samples Paths : Type.
Variable elevatedRegions :
  option (list (Region Samples Paths)) -> list (Region Samples Paths).
Variable sceneFloor : Q.
Variable defaultSamples : Samples.

Local Abbreviation Zone := (Region Samples Paths).
Local Abbreviation elevationType := (elevationType elevatedRegions sceneFloor).
Local Abbreviation nearestGroundElevation :=
  (nearestGroundElevation elevatedRegions sceneFloor defaultSamples).

(** What the loop of the classifier computes: [offPlateau] is set at the
    first containing region whose entry elevation is not the waypoint's,
    and [inside] is then set too. *)
Lemma elevationType_loop_spec (waypoint : Waypoint) (regions : list Zone) :
  forall inside0 inside offPlateau,
    elevationType_loop waypoint regions inside0 = (inside, offPlateau) ->
    (offPlateau = true -> inside = true)
    /\ (offPlateau = false ->
        inside = inside0 || negb (Nat.eqb (length (containing waypoint (Fin (elevation waypoint)) regions)) 0)
        /\ forall region, In region (containing waypoint (Fin (elevation waypoint)) regions) ->
                          elevationUponEntry region waypoint == elevation waypoint).
Proof.
  induction regions as [|region rest IH]; intros inside0 inside off H; simpl in H.
  - inversion H; subst. split; [discriminate|]. intros _. split.
    + simpl. now rewrite orb_false_r.
    + intros r [].
  - unfold containing; simpl.
    destruct (testPoint region waypoint (Fin (elevation waypoint))) eqn:Ht; simpl in H.
    + destruct (Qeq_bool (elevationUponEntry region waypoint) (elevation waypoint)) eqn:He;
        simpl in H.
      * apply IH in H. destruct H as [H1 H2]. split; [exact H1|].
        intros Hoff. destruct (H2 Hoff) as [Hin Hall]. split.
        -- simpl. rewrite Hin. simpl. now rewrite orb_true_r.
        -- intros r [<-|Hr]; [now apply Qeq_bool_iff | now apply Hall].
      * inversion H; subst. split; [reflexivity | discriminate].
    + apply IH in H. exact H.
Qed.

(** The maximum of the entry elevations when every containing region has
    the same one. *)
Lemma max_entry_all_eq (waypoint : Waypoint) (c : num) (e : Q) (regions : list Zone) :
  (forall region, In region (containing waypoint c regions) ->
                  elevationUponEntry region waypoint == e) ->
  containing waypoint c regions <> [] ->
  exists q, max_entry waypoint regions c = Fin q /\ q == e.
Proof.
  unfold max_entry, containing.
  assert (Hgen : forall acc,
    (forall region, In region (filter (fun region => testPoint region waypoint c) regions) ->
                    elevationUponEntry region waypoint == e) ->
    (acc = NegInf \/ exists q, acc = Fin q /\ q == e) ->
    (acc = NegInf -> filter (fun region => testPoint region waypoint c) regions <> []) ->
    exists q,
      fold_left (fun maxElevation region =>
                   if negb (testPoint region waypoint c) then maxElevation
                   else num_max maxElevation (Fin (elevationUponEntry region waypoint)))
                regions acc = Fin q /\ q == e).
  { induction regions as [|region rest IH]; intros acc Hall Hacc Hne; simpl in *.
    - destruct Hacc as [->|Hq]; [now exfalso; apply Hne | exact Hq].
    - destruct (testPoint region waypoint c) eqn:Ht; simpl in *.
      + apply IH.
        * intros r Hr. apply Hall. now right.
        * right. destruct Hacc as [->|(q & -> & Hq)].
          -- rewrite num_max_NegInf_l. eexists; split; [reflexivity|]. apply Hall. now left.
          -- apply num_max_Fin_eq; [exact Hq|]. apply Hall. now left.
        * intros Hm. exfalso. destruct Hacc as [->|(q & -> & Hq)].
          -- rewrite num_max_NegInf_l in Hm. discriminate.
          -- unfold num_max in Hm; simpl in Hm.
             destruct (Qle_bool q (elevationUponEntry region waypoint)); discriminate.
      + apply IH; assumption. }
  intros Hall Hne. apply Hgen; auto.
Qed.

(** *** The fixed point *)

(** One pass through the body when the maximum confirms the current
    elevation: the loop stops there. *)
Lemma ground_loop_stop (waypoint : Waypoint) (regions : list Zone) (r : nat) (c : num) :
  num_eqb (max_entry waypoint regions c) c = true ->
  ground_loop waypoint regions (S r) c = (c, r).
Proof. intros H. simpl. now rewrite H. Qed.

(** The loop follows the iterates of [max_entry] up to the first one that
    [max_entry] leaves as it is. *)
Lemma ground_loop_converges (waypoint : Waypoint) (regions : list Zone) :
  forall (k r : nat) (c : num),
    (k <= r)%nat ->
    (forall j, (j < k)%nat ->
       num_eqb (max_entry waypoint regions (Nat.iter j (max_entry waypoint regions) c))
               (Nat.iter j (max_entry waypoint regions) c) = false) ->
    num_eqb (max_entry waypoint regions (Nat.iter k (max_entry waypoint regions) c))
            (Nat.iter k (max_entry waypoint regions) c) = true ->
    ground_loop waypoint regions (S r) c
    = (Nat.iter k (max_entry waypoint regions) c, (r - k)%nat).
Proof.
  induction k as [|k IH]; intros r c Hk Hneq Heq.
  - simpl in Heq. rewrite ground_loop_stop by exact Heq. now rewrite Nat.sub_0_r.
  - destruct r as [|r]; [lia|].
    assert (H0 := Hneq O ltac:(lia)). simpl in H0.
    cbn [ground_loop]. rewrite H0. cbn [negb andb Nat.eqb].
    rewrite Nat.iter_succ_r. rewrite Nat.sub_succ.
    apply IH; [lia | | now rewrite <- Nat.iter_succ_r].
    intros j Hj. rewrite <- Nat.iter_succ_r. apply Hneq. lia.
Qed.


(** The resolver without burrowing, started inside a region: it runs the
    loop from the waypoint's elevation. *)
Lemma nearestGroundElevation_inside (waypoint : Waypoint)
    (regions : option (list Zone)) (samples : option Samples) (burrowing : flag) :
  truthy burrowing = false ->
  containing waypoint (Fin (elevation waypoint)) (elevatedRegions regions) <> [] ->
  nearestGroundElevation waypoint regions samples burrowing
  = let '(currElevation, remaining) :=
      ground_loop waypoint (elevatedRegions regions) MAX_ITER (Fin (elevation waypoint)) in
    mkLogged currElevation (if Nat.eqb remaining 0 then [GroundMaxIter] else []).
Proof.
  intros Hb Hin. unfold nearestGroundElevation, containing in *.
  rewrite Hb. cbn [andb].
  destruct (filter _ (elevatedRegions regions)) as [|z zs]; [contradiction|].
  reflexivity.
Qed.

(** *** The fall *)


(** The head of the sorted intersections is one of them and none is
    nearer. *)
Lemma first_min_dist_spec (ixs : list (RegionIx Samples Paths)) :
  forall best,
    In (first_min_dist best ixs) (best :: ixs)
    /\ forall ix, In ix (best :: ixs) -> ix_dist (first_min_dist best ixs) <= ix_dist ix.
Proof.
  induction ixs as [|ix rest IH]; intros best; simpl.
  - split; [now left|]. intros ix [<-|[]]. apply Qle_refl.
  - destruct (Qlt_le_dec (ix_dist ix) (ix_dist best)) as [Hlt|Hle].
    + destruct (IH ix) as [Hin Hmin]. split.
      * right. exact Hin.
      * intros ix' [<-|Hix'].
        -- apply Qle_trans with (ix_dist ix); [apply Hmin; now left | now apply Qlt_le_weak].
        -- apply Hmin. exact Hix'.
    + destruct (IH best) as [Hin Hmin]. split.
      * destruct Hin as [Hin|Hin]; [now left | now right; right].
      * intros ix' [<-|[<-|Hix']].
        -- apply Hmin. now left.
        -- apply Qle_trans with (ix_dist best); [apply Hmin; now left | exact Hle].
        -- apply Hmin. now right.
Qed.

(** The intersections of the fall: one for every region whose first
    movement segment is an entry, at the end of that segment. *)
Lemma fall_ixs_spec (waypoints : list Waypoint) (samples : Samples) (e : Q)
    (regions : list Zone) (ix : RegionIx Samples Paths) :
  In ix (fall_ixs waypoints samples e regions) <->
  exists region segment rest,
    In region regions
    /\ segmentizeMovement region waypoints samples = segment :: rest
    /\ seg_type segment = ENTER
    /\ ix = {| ix_to := seg_to segment; ix_region := region;
               ix_dist := e - elevation (seg_to segment) |}.
Proof.
  induction regions as [|region rs IH]; simpl.
  - split; [intros [] | intros (r & _ & _ & [] & _)].
  - destruct (segmentizeMovement region waypoints samples) as [|segment rest] eqn:Hs.
    + rewrite IH. split.
      * intros (r & sg & rt & Hr & H). exists r, sg, rt. split; [now right | exact H].
      * intros (r & sg & rt & [<-|Hr] & H1 & H2).
        -- rewrite Hs in H1. discriminate.
        -- exists r, sg, rt. auto.
    + destruct (seg_type segment) eqn:Ht; simpl.
      1,2: rewrite IH; split;
        [ intros (r & sg & rt & Hr & H); exists r, sg, rt; split; [now right | exact H]
        | intros (r & sg & rt & [<-|Hr] & H1 & H2 & H3);
          [ rewrite Hs in H1; inversion H1; subst; rewrite Ht in H2; discriminate
          | exists r, sg, rt; auto ] ].
      split.
      * intros [<-|Hin].
        -- exists region, segment, rest. auto.
        -- apply IH in Hin. destruct Hin as (r & sg & rt & Hr & H).
           exists r, sg, rt. split; [now right | exact H].
      * intros (r & sg & rt & [<-|Hr] & H1 & H2 & H3).
        -- rewrite Hs in H1. inversion H1; subst. now left.
        -- right. apply IH. exists r, sg, rt. auto.
Qed.

Lemma num_max_cases (a b : num) : num_max a b = a \/ num_max a b = b.
Proof. unfold num_max. destruct (num_leb a b); auto. Qed.

(** The maximum of the entry elevations is the entry elevation of a region
    that contains the waypoint, or [-Infinity] when none does. *)
Lemma max_entry_cases (waypoint : Waypoint) (regions : list Zone) (c : num) :
  (containing waypoint c regions = [] /\ max_entry waypoint regions c = NegInf)
  \/ (exists region, In region (containing waypoint c regions)
                     /\ max_entry waypoint regions c
                        = Fin (elevationUponEntry region waypoint)).
Proof.
  unfold max_entry, containing.
  set (step := fun (maxElevation : num) (region : Zone) =>
                 if negb (testPoint region waypoint c) then maxElevation
                 else num_max maxElevation (Fin (elevationUponEntry region waypoint))).
  set (inside := filter (fun region => testPoint region waypoint c)).
  assert (L1 : forall rs acc,
            fold_left step rs acc = acc
            \/ exists region, In region (inside rs)
                              /\ fold_left step rs acc
                                 = Fin (elevationUponEntry region waypoint)).
  { induction rs as [|region rest IH]; intros acc; cbn; [now left|].
    unfold step at 2 4. destruct (testPoint region waypoint c) eqn:Ht; cbn [negb].
    - destruct (IH (num_max acc (Fin (elevationUponEntry region waypoint))))
        as [E | (r & Hr & E)].
      + rewrite E.
        destruct (num_max_cases acc (Fin (elevationUponEntry region waypoint))) as [E'|E'];
          rewrite E'; [now left|].
        right. exists region. split; [now left | reflexivity].
      + right. exists r. split; [now right | exact E].
    - exact (IH acc). }
  assert (L3 : forall rs acc, acc <> NegInf -> fold_left step rs acc <> NegInf).
  { induction rs as [|region rest IH]; intros acc Hacc; cbn; [exact Hacc|].
    apply IH. unfold step. destruct (negb _); [exact Hacc|].
    destruct acc as [|q]; [contradiction|].
    unfold num_max; cbn. destruct (Qle_bool q _); discriminate. }
  destruct (L1 regions NegInf) as [E | H]; [|now right].
  destruct (inside regions) as [|z zs] eqn:Hz; [left; auto|].
  exfalso. clear L1.
  assert (Habs : forall rs acc, inside rs <> [] -> fold_left step rs acc <> NegInf).
  { induction rs as [|region rest IH]; intros acc Hne; cbn in *; [contradiction|].
    unfold step at 2. destruct (testPoint region waypoint c); cbn [negb].
    - apply L3. destruct acc as [|q];
        [cbn; discriminate | unfold num_max; cbn; destruct (Qle_bool q _); discriminate].
    - apply IH. exact Hne. }
  apply (Habs regions NegInf); [rewrite Hz; discriminate | exact E].
Qed.

Lemma num_leb_refl (a : num) : num_leb a a = true.
Proof. destruct a as [|q]; [reflexivity|]. cbn. apply Qle_bool_iff, Qle_refl. Qed.

Lemma num_leb_trans (a b c : num) :
  num_leb a b = true -> num_leb b c = true -> num_leb a c = true.
Proof.
  destruct a as [|p], b as [|q], c as [|r]; cbn; try reflexivity; try discriminate.
  intros H1 H2. apply Qle_bool_iff in H1, H2. apply Qle_bool_iff.
  eapply Qle_trans; eauto.
Qed.

Lemma num_leb_total (a b : num) : num_leb a b = false -> num_leb b a = true.
Proof.
  destruct a as [|p], b as [|q]; cbn; try reflexivity; try discriminate.
  intros H. apply Qle_bool_iff. apply Qlt_le_weak. apply Qnot_le_lt.
  intros Hle. apply Qle_bool_iff in Hle. rewrite Hle in H. discriminate.
Qed.

Lemma num_max_ge_l (a b : num) : num_leb a (num_max a b) = true.
Proof. unfold num_max. destruct (num_leb a b) eqn:E; [exact E | apply num_leb_refl]. Qed.

Lemma num_max_ge_r (a b : num) : num_leb b (num_max a b) = true.
Proof.
  unfold num_max. destruct (num_leb a b) eqn:E; [apply num_leb_refl | now apply num_leb_total].
Qed.

(** No entry elevation of a region that contains the waypoint is above the
    maximum. *)
Lemma max_entry_upper (waypoint : Waypoint) (regions : list Zone) (c : num)
    (region : Zone) :
  In region regions ->
  testPoint region waypoint c = true ->
  num_leb (Fin (elevationUponEntry region waypoint)) (max_entry waypoint regions c) = true.
Proof.
  unfold max_entry.
  set (step := fun (maxElevation : num) (r : Zone) =>
                 if negb (testPoint r waypoint c) then maxElevation
                 else num_max maxElevation (Fin (elevationUponEntry r waypoint))).
  assert (Hmono : forall rs acc, num_leb acc (fold_left step rs acc) = true).
  { induction rs as [|r rest IH]; intros acc; cbn [fold_left]; [apply num_leb_refl|].
    apply num_leb_trans with (step acc r); [|apply IH].
    unfold step. destruct (negb _); [apply num_leb_refl | apply num_max_ge_l]. }
  intros Hin Ht. generalize NegInf.
  induction regions as [|r rest IH]; intros acc; [destruct Hin|].
  cbn [fold_left]. destruct Hin as [->|Hin]; [|now apply IH].
  apply num_leb_trans with (step acc region); [|apply Hmono].
  unfold step. rewrite Ht. cbn [negb]. apply num_max_ge_r.
Qed.

(** [max_entry] is the replacement that the specification describes. *)
Lemma max_entry_meets_spec (waypoint : Waypoint) (regions : list Zone) (c : num) :
  max_entry_spec waypoint regions c (max_entry waypoint regions c).
Proof.
  split; [intros region; apply max_entry_upper|].
  destruct (max_entry_cases waypoint regions c) as [[Hnone Hm] | (region & Hin & Hm)].
  - right. split; [|exact Hm]. intros region Hin.
    destruct (testPoint region waypoint c) eqn:Ht; [|reflexivity].
    exfalso. unfold containing in Hnone.
    assert (Habs : In region (filter (fun r => testPoint r waypoint c) regions))
      by (apply filter_In; auto).
    rewrite Hnone in Habs. destruct Habs.
  - left. unfold containing in Hin. apply filter_In in Hin. destruct Hin as [Hin Ht].
    exists region. auto.
Qed.

(** C6: the four early answers of [nearestGroundElevation].  Burrowing
    inside a region keeps the current elevation; outside every region at the
    scene floor the answer is the scene floor; outside every region off the
    floor, a fall is simulated: the movement from the waypoint straight down
    to the scene floor is segmentized by every region, and a region is
    entered when the first segment it reports is an entry, at the end of
    that segment, whose distance from the start of the fall is the
    difference of the elevations.  The answer is the scene floor when no
    region is entered, and otherwise the elevation on entry of the region
    whose entry is nearest to the start of the fall, which is the answer
    itself when burrowing and the start of the fixed point otherwise. *)
Theorem nearestGroundElevation_cases (waypoint : Waypoint)
    (regions : option (list Zone)) (samples : option Samples) (burrowing : flag) :
  let rs := elevatedRegions regions in
  let e := elevation waypoint in
  let result := nearestGroundElevation waypoint regions samples burrowing in
  let fall := [waypoint; {| x := x waypoint; y := y waypoint; elevation := sceneFloor |}] in
  let ixs :=
    fall_ixs fall (match samples with Some s => s | None => defaultSamples end) e rs in
  (forall ix,
     In ix ixs <->
     exists region segment rest,
       In region rs
       /\ segmentizeMovement region fall
            (match samples with Some s => s | None => defaultSamples end)
          = segment :: rest
       /\ seg_type segment = ENTER
       /\ ix = {| ix_to := seg_to segment; ix_region := region;
                  ix_dist := e - elevation (seg_to segment) |})
  /\ (truthy burrowing = true -> containing waypoint (Fin e) rs <> [] ->
      result = mkLogged (Fin e) [])
  /\ (containing waypoint (Fin e) rs = [] -> e == sceneFloor ->
      result = mkLogged (Fin sceneFloor) [])
  /\ (containing waypoint (Fin e) rs = [] -> ~ e == sceneFloor -> ixs = [] ->
      result = mkLogged (Fin sceneFloor) [])
  /\ (containing waypoint (Fin e) rs = [] -> ~ e == sceneFloor -> ixs <> [] ->
      exists firstIx,
        In firstIx ixs
        /\ (forall ix, In ix ixs -> ix_dist firstIx <= ix_dist ix)
        /\ (truthy burrowing = true ->
            result = mkLogged (Fin (elevationUponEntry (ix_region firstIx) waypoint)) [])
        /\ (truthy burrowing = false ->
            result =
            let '(currElevation, remaining) :=
              ground_loop waypoint rs MAX_ITER
                          (Fin (elevationUponEntry (ix_region firstIx) waypoint)) in
            mkLogged currElevation (if Nat.eqb remaining 0 then [GroundMaxIter] else []))).
Proof.
  cbv zeta. split; [intros ix; apply fall_ixs_spec|].
  unfold nearestGroundElevation, containing.
  repeat split.
  - intros Hb Hne. rewrite Hb.
    destruct (filter _ (elevatedRegions regions)); [contradiction | reflexivity].
  - intros Hin Hf. rewrite Hin. cbn [length Nat.eqb negb]. rewrite andb_false_r.
    apply Qeq_bool_iff in Hf. now rewrite Hf.
  - intros Hin Hf Hix. rewrite Hin. cbn [length Nat.eqb negb]. rewrite andb_false_r.
    destruct (Qeq_bool (elevation waypoint) sceneFloor) eqn:E;
      [apply Qeq_bool_iff in E; contradiction|].
    now rewrite Hix.
  - intros Hin Hf Hix. rewrite Hin. cbn [length Nat.eqb negb]. rewrite andb_false_r.
    destruct (Qeq_bool (elevation waypoint) sceneFloor) eqn:E;
      [apply Qeq_bool_iff in E; contradiction|].
    destruct (fall_ixs _ _ _ _) as [|ix rest]; [contradiction|].
    destruct (first_min_dist_spec rest ix) as [Hmem Hmin].
    exists (first_min_dist ix rest). repeat split.
    + exact Hmem.
    + exact Hmin.
    + intros Hb. now rewrite Hb.
    + intros Hb. now rewrite Hb.
Qed.

(** C5: [nearestGroundElevation] without burrowing, for a waypoint inside
    at least one region at its elevation.  The replacement [F] of the loop is
    the one of the specification: [F c] is the maximum of the entry elevations
    of the regions that contain the waypoint at [c] ([max_entry_spec]).  When
    the iteration of [F] from the waypoint's elevation reaches, within the
    cap, an elevation that [F] leaves as it is, the answer is that fixed point
    and nothing is logged.  And under a ramp and a plateau, the ramp's
    surface above the plateau's and inside the ramp, the answer is the ramp's
    surface. *)
Theorem nearestGroundElevation_fixed_point (waypoint : Waypoint)
    (regions : option (list Zone)) (samples : option Samples) (burrowing : flag) :
  truthy burrowing = false ->
  containing waypoint (Fin (elevation waypoint)) (elevatedRegions regions) <> [] ->
  let F := max_entry waypoint (elevatedRegions regions) in
  let result := nearestGroundElevation waypoint regions samples burrowing in
  (forall c : num, max_entry_spec waypoint (elevatedRegions regions) c (F c))
  /\ (forall k : nat,
     (S k < MAX_ITER)%nat ->
     (forall j, (j < k)%nat ->
        num_eqb (F (Nat.iter j F (Fin (elevation waypoint))))
                (Nat.iter j F (Fin (elevation waypoint))) = false) ->
     num_eqb (F (Nat.iter k F (Fin (elevation waypoint))))
             (Nat.iter k F (Fin (elevation waypoint))) = true ->
     value result = Nat.iter k F (Fin (elevation waypoint))
     /\ num_eq (F (value result)) (value result)
     /\ log result = [])
  /\ (forall plateau ramp : Zone,
       elevatedRegions regions = [plateau; ramp]
       \/ elevatedRegions regions = [ramp; plateau] ->
       testPoint plateau waypoint (Fin (elevation waypoint)) = true ->
       testPoint ramp waypoint (Fin (elevation waypoint)) = true ->
       elevationUponEntry plateau waypoint < elevationUponEntry ramp waypoint ->
       testPoint ramp waypoint (Fin (elevationUponEntry ramp waypoint)) = true ->
       num_eq (value result) (Fin (elevationUponEntry ramp waypoint))
       /\ log result = []).
Proof.
  intros Hb Hin F result.
  assert (Hres : result
    = let '(c, r) := ground_loop waypoint (elevatedRegions regions) MAX_ITER
                                 (Fin (elevation waypoint)) in
      mkLogged c (if Nat.eqb r 0 then [GroundMaxIter] else []))
    by (now apply nearestGroundElevation_inside).
  split; [intros c; apply max_entry_meets_spec|].
  split.
  - intros k Hk Hneq Heq. rewrite Hres, MAX_ITER_S.
    rewrite MAX_ITER_S in Hk.
    rewrite (@ground_loop_converges waypoint (elevatedRegions regions) k 9999
               (Fin (elevation waypoint)) ltac:(lia) Hneq Heq).
    cbn [value log]. split; [reflexivity|]. split.
    + apply num_eqb_eq. exact Heq.
    + destruct (9999 - k)%nat eqn:E; [lia | reflexivity].
  - intros plateau ramp Hrs Hp Hr Hlt Htop.
    set (R := elevationUponEntry ramp waypoint) in *.
    set (P := elevationUponEntry plateau waypoint) in *.
    assert (HleT : Qle_bool P R = true) by (apply Qle_bool_iff; now apply Qlt_le_weak).
    assert (HleF : Qle_bool R P = false).
    { destruct (Qle_bool R P) eqn:E; [|reflexivity].
      apply Qle_bool_iff in E. exfalso. apply (Qlt_not_le _ _ Hlt E). }
    assert (H1 : F (Fin (elevation waypoint)) = Fin R).
    { unfold F, max_entry. destruct Hrs as [-> | ->]; simpl; rewrite Hp, Hr; simpl;
        unfold num_max; simpl; fold P R; [now rewrite HleT | now rewrite HleF]. }
    assert (H2 : F (Fin R) = Fin R).
    { unfold F, max_entry. destruct Hrs as [-> | ->]; simpl; rewrite Htop; simpl;
        destruct (testPoint plateau waypoint (Fin R)); simpl;
        unfold num_max; simpl; fold P R; rewrite ?HleT, ?HleF; reflexivity. }
    rewrite Hres, MAX_ITER_S.
    destruct (num_eqb (Fin R) (Fin (elevation waypoint))) eqn:E.
    + rewrite ground_loop_stop by (fold F; now rewrite H1).
      cbn. split; [|reflexivity]. apply num_eqb_eq in E. simpl in E. now symmetry.
    + rewrite (@ground_loop_converges waypoint (elevatedRegions regions) 1 9999
                 (Fin (elevation waypoint)) ltac:(apply Nat.leb_le; vm_compute; reflexivity)).
      * cbn [Nat.iter nat_rect]. fold F. rewrite H1. cbn. split; reflexivity.
      * intros j Hj. assert (j = O) by lia. subst j. cbn [Nat.iter nat_rect].
        fold F. now rewrite H1.
      * cbn [Nat.iter nat_rect]. change (num_eqb (F (F (Fin (elevation waypoint))))
                                          (F (Fin (elevation waypoint))) = true).
        rewrite H1, H2. apply num_eqb_refl.
Qed.

(** C7: a waypoint that [elevationType] classifies as GROUND is resolved by
    [nearestGroundElevation], over the same regions, to its own elevation,
    and nothing is logged. *)
Theorem nearestGroundElevation_of_ground (waypoint : Waypoint)
    (regions : option (list Zone)) (samples : option Samples) (burrowing : flag) :
  elevationType waypoint regions = GROUND ->
  num_eq (value (nearestGroundElevation waypoint regions samples burrowing))
         (Fin (elevation waypoint))
  /\ log (nearestGroundElevation waypoint regions samples burrowing) = [].
Proof.
  unfold elevationType. intros Hg.
  destruct (elevationType_loop waypoint (elevatedRegions regions) false)
    as [inside off] eqn:Hloop.
  destruct (elevationType_loop_spec _ _ _ Hloop) as [Hoff Hon].
  destruct off.
  - rewrite (Hoff eq_refl) in Hg. discriminate.
  - destruct (Hon eq_refl) as [Hin Hall]. cbn [orb] in Hin.
    destruct inside; cbn [andb negb] in Hg.
    + (* on the plateau of every region that contains the waypoint *)
      assert (Hne : containing waypoint (Fin (elevation waypoint)) (elevatedRegions regions) <> []).
      { intros E. rewrite E in Hin. discriminate. }
      destruct (truthy burrowing) eqn:Hb.
      * unfold nearestGroundElevation. rewrite Hb. cbn [andb].
        unfold containing in Hne.
        destruct (filter _ (elevatedRegions regions)); [contradiction|].
        cbn. split; [reflexivity | reflexivity].
      * rewrite nearestGroundElevation_inside by assumption.
        destruct (@max_entry_all_eq waypoint _ _ _ Hall Hne) as (q & Hq & Hqe).
        rewrite MAX_ITER_S, ground_loop_stop.
        -- cbn. split; reflexivity.
        -- rewrite Hq. simpl. now apply Qeq_bool_iff.
    + (* in no region, at the scene floor *)
      destruct (Qeq_bool (elevation waypoint) sceneFloor) eqn:Hf; [|discriminate].
      symmetry in Hin. apply negb_false_iff, Nat.eqb_eq in Hin.
      unfold nearestGroundElevation. unfold containing in Hin.
      destruct (filter _ (elevatedRegions regions)); [|discriminate].
      cbn [length Nat.eqb negb andb]. rewrite andb_false_r. rewrite Hf.
      cbn. split; [|reflexivity]. apply Qeq_bool_iff in Hf. now symmetry.
Qed.

End ResolverFacts.

Section TracerFacts.

Variables Samples Paths : Type.
Variable elevatedRegions :
  option (list (Region Samples Paths)) -> list (Region Samples Paths).
Variable sceneFloor : Q.
Variable defaultSamples : Samples.
Variable G : Geometry Paths.

Local Abbreviation Zone := (Region Samples Paths).
Local Abbreviation constructRegionsPath :=
  (constructRegionsPath elevatedRegions sceneFloor defaultSamples G).
Local Abbreviation nearestGroundElevation :=
  (nearestGroundElevation elevatedRegions sceneFloor defaultSamples).
Local Abbreviation end_is_snapped := (end_is_snapped elevatedRegions sceneFloor).

(** The cutaway comes back empty only without a log entry. *)
Lemma _regions2dCutaway_empty (start end_ : Waypoint) (regions : list Zone) :
  value (_regions2dCutaway sceneFloor G start end_ regions) = [] ->
  _regions2dCutaway sceneFloor G start end_ regions = mkLogged [] [].
Proof.
  unfold _regions2dCutaway.
  destruct (toPolygons G _) as [|poly polys]; [reflexivity|].
  cbn [length Nat.eqb orb].
  destruct (forallb _ _); [reflexivity|].
  destruct (existsb _ _); discriminate.
Qed.

(** *** The march *)

(** A vertex of a polygon is never the object [start2d]. *)
Lemma vertex_not_start (combinedPolys : list Polygon) (polyIndex : nat) (i : Z) (c : CPoint) :
  vertex G combinedPolys polyIndex i = Some c -> oid c <> OStart.
Proof.
  unfold vertex.
  destruct (nth_error combinedPolys polyIndex); [|discriminate].
  destruct (i <? 0)%Z; [discriminate|].
  destruct (nth_error _ (Z.to_nat i)); [|discriminate].
  intros [= <-]. cbn. discriminate.
Qed.

(** Step 6 hands on the waypoints, moves to [currEnd], and aims at a
    vertex of the polygon. *)
Lemma cycle_spec (combinedPolys : list Polygon) (polyIndex : nat) (c : CPoint)
    (idx : Z) (wps : list CPoint) :
  match cycle G combinedPolys polyIndex c idx wps with
  | Throw => True
  | Break _ => False
  | Continue m' =>
      waypoints m' = wps /\ currPosition m' = c
      /\ forall c', currEnd m' = Some c' -> oid c' <> OStart
  end.
Proof.
  unfold cycle. destruct (nth_error combinedPolys polyIndex) as [poly|] eqn:Hp; [|exact I].
  cbn. repeat split. intros c'. apply vertex_not_start.
Qed.

(** One pass through the body: it records the current position first, and
    then at most the intersection it moves to; a break happens at or past
    the end's distance; and [start2d] is never a position or a target
    again. *)
Lemma march_body_spec (flying burrowing : flag) (endType : ELEVATION_LOCATIONS)
    (combinedPolys : list Polygon) (end2d : CPoint) (destPoly : option nat)
    (iter : nat) (m : March) :
  oid end2d <> OStart ->
  (forall c, currEnd m = Some c -> oid c <> OStart) ->
  match march_body sceneFloor G flying burrowing endType combinedPolys end2d destPoly iter m with
  | Throw => True
  | Break wps =>
      wps = currPosition m :: waypoints m
      /\ Qle_bool (cx end2d) (cx (currPosition m)) = true
  | Continue m' =>
      (exists extra, waypoints m' = extra ++ currPosition m :: waypoints m
                     /\ Forall (fun p => oid p <> OStart) extra)
      /\ oid (currPosition m') <> OStart
      /\ (forall c, currEnd m' = Some c -> oid c <> OStart)
  end.
Proof.
  intros Hend Hce. unfold march_body.
  destruct (currEnd m) as [ce|] eqn:Ece; [|exact I].
  specialize (Hce ce eq_refl).
  set (wps := currPosition m :: waypoints m).
  assert (Hnil : exists extra, wps = extra ++ wps /\ Forall (fun p => oid p <> OStart) extra)
    by (exists []; auto).
  assert (Hcyc : forall polyIndex c idx extra,
             oid c <> OStart -> Forall (fun p => oid p <> OStart) extra ->
             match cycle G combinedPolys polyIndex c idx (extra ++ wps) with
             | Throw => True
             | Break _ => False
             | Continue m' =>
                 (exists extra, waypoints m' = extra ++ wps
                                /\ Forall (fun p => oid p <> OStart) extra)
                 /\ oid (currPosition m') <> OStart
                 /\ (forall c, currEnd m' = Some c -> oid c <> OStart)
             end).
  { intros polyIndex c idx extra Hc Hex.
    pose proof (cycle_spec combinedPolys polyIndex c idx (extra ++ wps)) as Hs.
    destruct (cycle G combinedPolys polyIndex c idx (extra ++ wps)) as [|m'|]; auto.
    destruct Hs as (Hw & Hp & Hc'). rewrite Hw, Hp. eauto. }
  destruct (if Qlt_le_dec (cx ce) (cx (currPosition m)) then _ else _)
    as [ce1 cp1] eqn:E1.
  assert (H1 : oid ce1 <> OStart).
  { destruct (Qlt_le_dec (cx ce) (cx (currPosition m))); [destruct (truthy flying)|];
      inversion E1; subst; cbn; auto; discriminate. }
  destruct (if truthy flying && _ && _ then _ else _) as [ce2 cp2] eqn:E2.
  assert (H2 : oid ce2 <> OStart).
  { destruct (truthy flying && _ && _) in E2; inversion E2; subst; auto. }
  destruct (if cutawayPointsEqual (currPosition m) ce2 then _ else _) as [ce3 cp3] eqn:E3.
  assert (H3 : oid ce3 <> OStart).
  { destruct (cutawayPointsEqual (currPosition m) ce2) in E3; inversion E3; subst; auto. }
  clear E1 E2 E3.
  destruct (Qle_bool (cx end2d) (cx (currPosition m))) eqn:Hbrk; [split; auto|].
  match goal with |- context [if ?c then Continue _ else _] => destruct c end.
  { cbn. repeat split; auto. intros c' [= <-]. exact H3. }
  destruct cp3 as [polyIndex|].
  { specialize (Hcyc polyIndex ce3 (currPolyIndex m) [] H3 (Forall_nil _)).
    cbn [app] in Hcyc.
    destruct (cycle G combinedPolys polyIndex ce3 (currPolyIndex m) wps);
      [destruct Hcyc | exact Hcyc | exact I]. }
  destruct (polygonsIntersections G (cpt (currPosition m)) (cpt ce3) combinedPolys None)
    as [[|ix0 ixs]|]; [| |exact I].
  { cbn. repeat split; auto. intros c' [= <-]. exact H3. }
  destruct (truthy burrowing).
  { cbn. repeat split.
    - eexists [_]. split; [reflexivity|]. repeat constructor. cbn. discriminate.
    - discriminate.
    - intros c' [= <-]. exact Hend. }
  destruct (nth_error combinedPolys (pix_poly ix0)); [|exact I].
  match goal with
  | |- match cycle G combinedPolys ?p ?c ?i (?e :: wps) with _ => _ end =>
      specialize (Hcyc p c i [e]); cbn [app] in Hcyc;
      destruct (cycle G combinedPolys p c i (e :: wps));
      [destruct Hcyc | apply Hcyc | exact I]
  end.
  all: try (cbn; discriminate).
  all: repeat constructor; cbn; discriminate.
Qed.


(** The waypoints of a march that returns: what was recorded before, the
    position it starts from, and then objects other than [start2d].  With
    two iterations or more to go, nothing follows the starting position only
    when the march broke off there. *)
Lemma march_spec (flying burrowing : flag) (endType : ELEVATION_LOCATIONS)
    (combinedPolys : list Polygon) (end2d : CPoint) (destPoly : option nat) :
  oid end2d <> OStart ->
  forall (remaining : nat) (m : March) (wps : list CPoint) (r : nat),
    (forall c, currEnd m = Some c -> oid c <> OStart) ->
    march sceneFloor G flying burrowing endType combinedPolys end2d destPoly remaining m
    = Returns (wps, r) ->
    (0 < remaining)%nat ->
    exists rest,
      wps = rev (waypoints m) ++ currPosition m :: rest
      /\ Forall (fun p => oid p <> OStart) rest
      /\ ((2 <= remaining)%nat -> rest = [] ->
          Qle_bool (cx end2d) (cx (currPosition m)) = true).
Proof.
  intros Hend. induction remaining as [|n IH]; intros m wps r Hce Hm Hpos; [lia|].
  cbn [march] in Hm.
  pose proof (@march_body_spec flying burrowing endType combinedPolys end2d destPoly
                               (MAX_ITER - n) m Hend Hce) as Hb.
  destruct (march_body sceneFloor G flying burrowing endType combinedPolys end2d destPoly
                       (MAX_ITER - n) m) as [wps'|m'|]; [| |discriminate].
  - destruct Hb as [-> Hbrk]. inversion Hm; subst. exists []. auto.
  - destruct Hb as ((extra & Hw & Hex) & Hp' & Hce').
    destruct n as [|n'].
    + cbn [march] in Hm. inversion Hm; subst. exists (rev extra).
      rewrite Hw, rev_app_distr. cbn [rev]. rewrite <- !app_assoc.
      split; [reflexivity|]. split; [now apply Forall_rev|]. lia.
    + destruct (IH m' wps r Hce' Hm ltac:(lia)) as (rest & -> & Hrest & _).
      exists (rev extra ++ currPosition m' :: rest).
      rewrite Hw, rev_app_distr. cbn [rev]. rewrite <- !app_assoc.
      split; [reflexivity|]. split.
      * apply Forall_app. split; [now apply Forall_rev|]. constructor; assumption.
      * intros _ Habs. destruct (rev extra); discriminate.
Qed.

Lemma oid_eqb_start (o : ObjId) : o <> OStart -> oid_eqb OStart o = false.
Proof. destruct o; intros H; try reflexivity. now contradiction H. Qed.

Lemma oid_eqb_refl (o : ObjId) : oid_eqb o o = true.
Proof. destruct o; cbn; rewrite ?Nat.eqb_refl; reflexivity. Qed.

(** The rounding correction leaves the first waypoint as it is, unless it
    is the only one; then only its distance may be set to the end's. *)
Lemma undo_rounding_head (end2d s : CPoint) (rest : list CPoint) :
  oid s = OStart ->
  Forall (fun p => oid p <> OStart) rest ->
  exists h t,
    undo_rounding G end2d (s :: rest) = h :: t
    /\ cy h = cy s
    /\ (cx h = cx s \/ (rest = [] /\ cx h = cx end2d)).
Proof.
  intros Hs Hrest. unfold undo_rounding.
  destruct (rev (s :: rest)) as [|e es] eqn:Hrev; [exists s, rest; auto|].
  destruct (almostEqual G (cx end2d) (cx e) (51 # 100)); [|exists s, rest; auto].
  cbn [map]. destruct rest as [|r rs].
  - cbn in Hrev. inversion Hrev; subst e es. rewrite oid_eqb_refl. cbn.
    eexists _, _. split; [reflexivity|]. cbn. auto.
  - assert (He : In e (r :: rs)).
    { apply in_rev. cbn [rev] in Hrev.
      destruct (rev rs ++ [r]) as [|e' es'] eqn:E.
      - destruct (rev rs); discriminate.
      - cbn in Hrev. inversion Hrev; subst. cbn [rev]. rewrite E. now left. }
    rewrite Forall_forall in Hrest. rewrite Hs, (oid_eqb_start (Hrest e He)).
    eexists _, _. split; [reflexivity|]. auto.
Qed.

Lemma MAX_ITER_large : (2 <= MAX_ITER)%nat.
Proof. apply Nat.leb_le. vm_compute. reflexivity. Qed.

Lemma same_point_of_waypoint (w : Waypoint) : same_point (of_waypoint w) w.
Proof.
  unfold same_point, of_waypoint; cbn. split; [reflexivity|].
  split; [exists (y w); split; reflexivity | reflexivity].
Qed.


(** *** No exception *)

Lemma insert_t0_In (a ix : PolyIx) (l : list PolyIx) :
  In ix (insert_t0 a l) -> ix = a \/ In ix l.
Proof.
  induction l as [|h t IH]; cbn.
  - intros [<-|[]]. now left.
  - destruct (Qlt_le_dec (t0 (pix a)) (t0 (pix h))).
    + intros [<-|H]; [now left | now right].
    + intros [<-|H]; [right; now left|].
      destruct (IH H) as [->|H']; [now left | right; now right].
Qed.

Lemma sort_t0_In (ix : PolyIx) (l : list PolyIx) : In ix (sort_t0 l) -> In ix l.
Proof.
  unfold sort_t0.
  assert (Hgen : forall acc, In ix (fold_left (fun acc ix => insert_t0 ix acc) l acc) ->
                             In ix acc \/ In ix l).
  { induction l as [|h t IH]; cbn; intros acc H; [now left|].
    destruct (IH _ H) as [H'|H']; [|right; now right].
    destruct (insert_t0_In _ _ _ H') as [->|H'']; [right; now left | now left]. }
  intros H. destruct (Hgen [] H) as [[]|H']. exact H'.
Qed.







(** The branches of [constructRegionsPath] that answer [start, end] at
    once. *)
Lemma constructRegionsPath_trivial (start end_ : Waypoint)
    (regions : option (list Zone)) (flying burrowing : flag) (samples : option Samples) :
  regionWaypointsEqual start end_ = true
  \/ (flying = Some true /\ burrowing = Some true)
  \/ elevatedRegions regions = []
  \/ (regionWaypointsXYEqual start end_ = false
      /\ value (_regions2dCutaway sceneFloor G start end_ (elevatedRegions regions)) = []) ->
  constructRegionsPath start end_ regions flying burrowing samples
  = Returns (mkLogged [of_waypoint start; of_waypoint end_] []).
Proof.
  intros H. unfold constructRegionsPath.
  destruct (regionWaypointsEqual start end_) eqn:Heq; [reflexivity|].
  destruct H as [H | [[-> ->] | H]]; [discriminate | reflexivity |].
  cbn [orb].
  destruct (truthy flying && truthy burrowing); [reflexivity|].
  destruct H as [-> | [Hxy Hcut]]; [reflexivity|].
  destruct (Nat.eqb (length (elevatedRegions regions)) 0); [reflexivity|].
  rewrite Hxy. rewrite (_regions2dCutaway_empty _ _ _ Hcut). reflexivity.
Qed.

(** C4: the short circuits of [constructRegionsPath].  Equal start and end,
    flying together with burrowing, no elevated region, and (once the 2D
    positions differ and the cutaway is built) an empty cutaway each give
    the path [start, end]; the call returns and logs nothing. *)
Theorem constructRegionsPath_short_circuits (start end_ : Waypoint)
    (regions : option (list Zone)) (flying burrowing : flag) (samples : option Samples) :
  regionWaypointsEqual start end_ = true
  \/ (flying = Some true /\ burrowing = Some true)
  \/ elevatedRegions regions = []
  \/ (regionWaypointsXYEqual start end_ = false
      /\ value (_regions2dCutaway sceneFloor G start end_ (elevatedRegions regions)) = []) ->
  constructRegionsPath start end_ regions flying burrowing samples
  = Returns (mkLogged [of_waypoint start; of_waypoint end_] []).
Proof. apply constructRegionsPath_trivial. Qed.

(** C3, as the code has it: an elevation-only move returns [start] and an
    end with the [x] of [end_].  When there is an elevated region and the end
    is to be snapped (not flying and FLOATING, or not burrowing and
    UNDERGROUND), its elevation is the answer of the ground resolver, whose
    log is handed on; in every other case the end is [end_] itself. *)
Theorem constructRegionsPath_vertical (start end_ : Waypoint)
    (regions : option (list Zone)) (flying burrowing : flag) (samples : option Samples) :
  regionWaypointsXYEqual start end_ = true ->
  Qeq_bool (elevation start) (elevation end_) = false ->
  let resolved :=
    nearestGroundElevation end_ (Some (elevatedRegions regions)) samples burrowing in
  exists end' lg,
    constructRegionsPath start end_ regions flying burrowing samples
    = Returns (mkLogged [of_waypoint start; end'] lg)
    /\ px end' = x end_
    /\ (if negb (Nat.eqb (length (elevatedRegions regions)) 0)
           && end_is_snapped end_ regions flying burrowing
        then pelevation end' = value resolved /\ lg = log resolved
        else end' = of_waypoint end_ /\ lg = []).
Proof.
  intros Hxy He resolved. unfold constructRegionsPath, end_is_snapped.
  assert (Hne : regionWaypointsEqual start end_ = false).
  { unfold regionWaypointsEqual. rewrite He. apply andb_false_r. }
  rewrite Hne, Hxy. cbn [orb].
  destruct (truthy flying && truthy burrowing) eqn:Hfb.
  - exists (of_waypoint end_), []. split; [reflexivity|]. split; [reflexivity|].
    apply andb_true_iff in Hfb. destruct Hfb as [Hf Hb].
    destruct flying as [[|]|]; try discriminate.
    destruct burrowing as [[|]|]; try discriminate.
    cbn [is_false andb orb]. rewrite andb_false_r. auto.
  - destruct (Nat.eqb (length (elevatedRegions regions)) 0) eqn:Hlen.
    + exists (of_waypoint end_), []. cbn [negb andb]. auto.
    + cbn [negb andb].
      destruct ((is_false flying && loc_eqb _ FLOATING)
                || (is_false burrowing && loc_eqb _ UNDERGROUND)).
      * eexists _, _. split; [reflexivity|]. cbn. auto.
      * exists (of_waypoint end_), []. auto.
Qed.

(** C1, as the code has it: a call that returns gives a sequence that is
    not empty and starts at [start] (distances being zero from a point to
    itself and never negative, and a move by zero staying in place).  The
    sequence ends at [end_] in the short circuits and in an elevation-only
    move whose end is not snapped. *)
Theorem constructRegionsPath_endpoints (start end_ : Waypoint)
    (regions : option (list Zone)) (flying burrowing : flag) (samples : option Samples)
    (path : list PathPoint) (lg : list LogMsg) :
  distanceBetween G start start == 0 ->
  0 <= floor G (distanceBetween G start end_) ->
  (forall d, d == 0 ->
     fst (towardsPoint G (x start, y start) (x end_, y end_) d) == x start
     /\ snd (towardsPoint G (x start, y start) (x end_, y end_) d) == y start) ->
  constructRegionsPath start end_ regions flying burrowing samples
  = Returns (mkLogged path lg) ->
  (exists first, hd_error path = Some first /\ same_point first start)
  /\ (regionWaypointsEqual start end_ = true
      \/ (flying = Some true /\ burrowing = Some true)
      \/ elevatedRegions regions = []
      \/ (regionWaypointsXYEqual start end_ = true
          /\ end_is_snapped end_ regions flying burrowing = false)
      \/ (regionWaypointsXYEqual start end_ = false
          /\ value (_regions2dCutaway sceneFloor G start end_ (elevatedRegions regions)) = [])
      -> hd_error (rev path) = Some (of_waypoint end_)).
Proof.
  intros Hd0 Hfl Htp Hres. split.
  - (* the first element *)
    unfold constructRegionsPath in Hres.
    do 2 (match type of Hres with
          | context [if ?c then _ else _] => destruct c
          end;
          [inversion Hres; subst; exists (of_waypoint start);
           split; [reflexivity | apply same_point_of_waypoint]|]).
    destruct (regionWaypointsXYEqual start end_).
    { match type of Hres with
      | context [if ?c then _ else _] => destruct c
      end;
        inversion Hres; subst; exists (of_waypoint start);
        (split; [reflexivity | apply same_point_of_waypoint]). }
    match type of Hres with
    | context [if ?c then _ else _] => destruct c
    end;
      [inversion Hres; subst; exists (of_waypoint start);
       split; [reflexivity | apply same_point_of_waypoint]|].
    unfold march_setup in Hres.
    match type of Hres with
    | match march _ _ _ _ ?et ?polys ?e2d ?dp _ ?m0 with _ => _ end = _ =>
        destruct (march sceneFloor G flying burrowing et polys e2d dp MAX_ITER m0)
          as [[wps r]|] eqn:Hm;
        [|discriminate];
        assert (Hsp := @march_spec flying burrowing et polys e2d dp
                         ltac:(cbn; discriminate) MAX_ITER m0 wps r)
    end.
    cbn [currEnd waypoints currPosition app rev] in Hsp.
    destruct Hsp as (rest & -> & Hrest & Hone).
    { intros c [= <-].
      destruct ((is_false burrowing && _) || _); cbn; discriminate. }
    { exact Hm. }
    { pose proof MAX_ITER_large. lia. }
    inversion Hres as [[Hpath Hlg]]. clear Hres Hlg.
    match type of Hpath with
    | map _ (undo_rounding G ?e2d (?s :: rest)) = _ =>
        destruct (@undo_rounding_head e2d s rest eq_refl Hrest)
          as (h & t & -> & Hcy & Hcx)
    end.
    cbn [map hd_error]. eexists. split; [reflexivity|].
    unfold same_point, _from2dCutawayCoordinate, cpt. cbn [px py pelevation fst snd].
    assert (Hzero : cx h == 0).
    { destruct Hcx as [-> | [-> ->]]; [exact Hd0|].
      specialize (Hone MAX_ITER_large eq_refl).
      apply Qle_bool_iff in Hone. cbn [cx _to2dCutawayCoordinate fst] in Hone, Hfl |- *.
      unfold _to2dCutawayCoordinate in *. cbn [fst] in *.
      apply Qle_antisym; [|exact Hfl].
      apply Qle_trans with (distanceBetween G start start); [exact Hone|].
      rewrite Hd0. apply Qle_refl. }
    destruct (Htp (cx h) Hzero) as [Hx Hy].
    split; [exact Hx|]. split; [eexists; split; [reflexivity | exact Hy]|].
    rewrite Hcy. cbn. reflexivity.
  - (* the last element *)
    intros Hcase.
    destruct Hcase as [H | [H | [H | [[Hxy Hsnap] | H]]]].
    4: { unfold constructRegionsPath, end_is_snapped in *.
         rewrite Hxy in Hres.
         destruct (regionWaypointsEqual start end_ || (truthy flying && truthy burrowing));
           [inversion Hres; reflexivity|].
         destruct (Nat.eqb (length (elevatedRegions regions)) 0);
           [inversion Hres; reflexivity|].
         rewrite Hsnap in Hres. inversion Hres; reflexivity. }
    all: rewrite constructRegionsPath_trivial in Hres by tauto;
      inversion Hres; reflexivity.
Qed.



End TracerFacts.

(** * The scenarios, checked *)

(** ** The rational geometry is well formed *)





(** ** The plateau scenarios of the specification *)

(** Walking: the path rises to 10 where it enters the plateau and falls to
    0 where it leaves. *)
Lemma plateau_walk :
  constructRegionsPath (elevatedOf [plateau10]) 0 tt (QGeometry plateauUnion)
    {| x := 0; y := 0; elevation := 0 |} {| x := 20; y := 0; elevation := 0 |}
    None None None None
  = Returns (mkLogged
      [ {| px := 0; py := Some 0; pelevation := Fin 0 |};
        {| px := 5; py := Some 0; pelevation := Fin 0 |};
        {| px := 5; py := Some 0; pelevation := Fin 10 |};
        {| px := 15; py := Some 0; pelevation := Fin 10 |};
        {| px := 15; py := Some 0; pelevation := Fin 0 |};
        {| px := 20; py := Some 0; pelevation := Fin 0 |} ] []).
Proof. vm_compute. reflexivity. Qed.

(** Burrowing: the path cuts through the plateau at the elevation it
    enters at. *)
Lemma plateau_burrow :
  constructRegionsPath (elevatedOf [plateau10]) 0 tt (QGeometry plateauUnion)
    {| x := 0; y := 0; elevation := 0 |} {| x := 20; y := 0; elevation := 0 |}
    None None (Some true) None
  = Returns (mkLogged
      [ {| px := 0; py := Some 0; pelevation := Fin 0 |};
        {| px := 5; py := Some 0; pelevation := Fin 0 |};
        {| px := 5; py := Some 0; pelevation := Fin 0 |};
        {| px := 15; py := Some 0; pelevation := Fin 0 |};
        {| px := 15; py := Some 0; pelevation := Fin 0 |};
        {| px := 20; py := Some 0; pelevation := Fin 0 |};
        {| px := 20; py := Some 0; pelevation := Fin 0 |} ] []).
Proof. vm_compute. reflexivity. Qed.

(** Flying above the plateau: the path is the straight move. *)
Lemma plateau_fly_over :
  constructRegionsPath (elevatedOf [plateau10]) 0 tt (QGeometry plateauUnion)
    {| x := 0; y := 0; elevation := 12 |} {| x := 20; y := 0; elevation := 12 |}
    None (Some true) None None
  = Returns (mkLogged
      [ {| px := 0; py := Some 0; pelevation := Fin 12 |};
        {| px := 20; py := Some 0; pelevation := Fin 12 |} ] []).
Proof. vm_compute. reflexivity. Qed.

(** ** The claims on the scenarios *)

(** C7 on a waypoint standing on the plateau. *)
Lemma nearestGroundElevation_of_ground_witness :
  elevationType (elevatedOf [plateau5]) 0 {| x := 10; y := 0; elevation := 5 |} None = GROUND
  /\ num_eq (value (nearestGroundElevation (elevatedOf [plateau5]) 0 tt
                     {| x := 10; y := 0; elevation := 5 |} None None None))
            (Fin 5).
Proof.
  split; [vm_compute; reflexivity|].
  apply (@nearestGroundElevation_of_ground unit (list Polygon) (elevatedOf [plateau5]) 0 tt
           {| x := 10; y := 0; elevation := 5 |} None None None).
  vm_compute. reflexivity.
Defined.

(** C5 under the ramp and the plateau: from elevation 2 at [x = 10] the
    resolver answers the ramp's surface, 8. *)
Lemma nearestGroundElevation_fixed_point_witness :
  num_eq (value (nearestGroundElevation (elevatedOf [plateau5; ramp3]) 0 tt
                   {| x := 10; y := 0; elevation := 2 |} None None None))
         (Fin (3 + (1 # 2) * 10))
  /\ log (nearestGroundElevation (elevatedOf [plateau5; ramp3]) 0 tt
            {| x := 10; y := 0; elevation := 2 |} None None None) = [].
Proof.
  refine (proj2 (proj2 (@nearestGroundElevation_fixed_point unit (list Polygon)
                          (elevatedOf [plateau5; ramp3]) 0 tt
                          {| x := 10; y := 0; elevation := 2 |} None None None _ _))
                plateau5 ramp3 _ _ _ _ _).
  - reflexivity.
  - vm_compute. discriminate.
  - left. reflexivity.
  - vm_compute. reflexivity.
  - vm_compute. reflexivity.
  - vm_compute. reflexivity.
  - vm_compute. reflexivity.
Defined.

(** C6 on a fall: from elevation 9 at [x = 10], above the plateau, a
    burrowing token ends on the plateau's elevation on entry. *)
Lemma nearestGroundElevation_cases_witness :
  nearestGroundElevation (elevatedOf [plateau5]) 0 tt
    {| x := 10; y := 0; elevation := 9 |} None None (Some true)
  = mkLogged (Fin 5) [].
Proof.
  destruct (@nearestGroundElevation_cases unit (list Polygon) (elevatedOf [plateau5]) 0 tt
              {| x := 10; y := 0; elevation := 9 |} None None (Some true))
    as (_ & _ & _ & _ & Hfall).
  destruct Hfall as (firstIx & Hin & _ & Hburrow & _).
  - reflexivity.
  - vm_compute. discriminate.
  - vm_compute. discriminate.
  - destruct Hin as [<- | []]. apply Hburrow. reflexivity.
Defined.

(** C4 with start and end equal, among regions. *)
Lemma constructRegionsPath_short_circuits_witness :
  constructRegionsPath (elevatedOf [plateau5]) 0 tt (QGeometry (@concat Polygon))
    {| x := 3; y := 4; elevation := 5 |} {| x := 3; y := 4; elevation := 5 |}
    None None None None
  = Returns (mkLogged [of_waypoint {| x := 3; y := 4; elevation := 5 |};
                       of_waypoint {| x := 3; y := 4; elevation := 5 |}] []).
Proof.
  apply (@constructRegionsPath_short_circuits unit (list Polygon) (elevatedOf [plateau5])
           0 tt (QGeometry (@concat Polygon))).
  left. vm_compute. reflexivity.
Defined.

(** C3 is not what the code does in a scene without elevated regions: a
    token that does not fly and is asked to end 5 above the scene floor is
    left there, while the resolver would put it on the floor. *)
Lemma vertical_move_spec_fails_without_regions :
  ~ vertical_move_spec (elevatedOf []) 0 tt (QGeometry (@concat Polygon))
      {| x := 0; y := 0; elevation := 0 |} {| x := 0; y := 0; elevation := 5 |}
      None (Some false) None None.
Proof.
  intros H.
  destruct (H eq_refl eq_refl) as (end' & lg & Hres & _ & _ & Hsnap).
  vm_compute in Hres. inversion Hres; subst end' lg.
  vm_compute in Hsnap. discriminate.
Qed.

(** C3 as amended, on a token that does not fly and is asked to end in the
    air beside the floating box: its end is put on the scene floor. *)
Lemma constructRegionsPath_vertical_witness :
  exists end' lg,
    constructRegionsPath (elevatedOf [floatingBox]) 0 tt (QGeometry (@concat Polygon))
      {| x := 0; y := 0; elevation := 0 |} {| x := 0; y := 0; elevation := 5 |}
      None (Some false) None None
    = Returns (mkLogged [of_waypoint {| x := 0; y := 0; elevation := 0 |}; end'] lg)
    /\ px end' = 0
    /\ pelevation end' = Fin 0 /\ lg = [].
Proof.
  destruct (@constructRegionsPath_vertical unit (list Polygon) (elevatedOf [floatingBox])
              0 tt (QGeometry (@concat Polygon))
              {| x := 0; y := 0; elevation := 0 |} {| x := 0; y := 0; elevation := 5 |}
              None (Some false) None None eq_refl eq_refl)
    as (end' & lg & Hres & Hx & Hsnap).
  exists end', lg. split; [exact Hres|]. split; [exact Hx|]. exact Hsnap.
Defined.

(** The end that an elevation-only move snaps has no [y]: the object
    literal that replaces [end] is built from [x] and the elevation only. *)
Lemma constructRegionsPath_vertical_drops_y :
  constructRegionsPath (elevatedOf [floatingBox]) 0 tt (QGeometry (@concat Polygon))
    {| x := 0; y := 0; elevation := 0 |} {| x := 0; y := 0; elevation := 5 |}
    None (Some false) None None
  = Returns (mkLogged [of_waypoint {| x := 0; y := 0; elevation := 0 |};
                       {| px := 0; py := None; pelevation := Fin 0 |}] []).
Proof. vm_compute. reflexivity. Qed.

(** C1 is not what the code does: a token that walks from the scene floor
    towards a point 10 above it, across a box that floats between 2 and 4,
    climbs the box, walks over it, drops to the floor and stops there. *)
Lemma endpoints_spec_fails_over_box :
  ~ endpoints_spec (elevatedOf [lowBox]) 0 tt (QGeometry (@concat Polygon))
      {| x := 0; y := 0; elevation := 0 |} {| x := 20; y := 0; elevation := 10 |}
      None None None None.
Proof.
  intros (path & lg & first & last_ & Hres & _ & _ & Hlast & _ & _ & He).
  vm_compute in Hres. inversion Hres; subst path lg.
  cbn in Hlast. inversion Hlast; subst last_.
  vm_compute in He. discriminate.
Qed.

(** The path of that walk. *)
Lemma constructRegionsPath_over_box :
  constructRegionsPath (elevatedOf [lowBox]) 0 tt (QGeometry (@concat Polygon))
    {| x := 0; y := 0; elevation := 0 |} {| x := 20; y := 0; elevation := 10 |}
    None None None None
  = Returns (mkLogged
      [ {| px := 0; py := Some 0; pelevation := Fin 0 |};
        {| px := 5; py := Some 0; pelevation := Fin (5 # 2) |};
        {| px := 5; py := Some 0; pelevation := Fin 4 |};
        {| px := 15; py := Some 0; pelevation := Fin 4 |};
        {| px := 15; py := Some 0; pelevation := Fin 2 |};
        {| px := 15; py := Some 0; pelevation := Fin 0 |};
        {| px := 20; py := Some 0; pelevation := Fin 0 |} ] []).
Proof. vm_compute. reflexivity. Qed.

(** C1 as amended, on the same walk: the path starts at the start. *)
Lemma constructRegionsPath_endpoints_witness :
  exists path lg first,
    constructRegionsPath (elevatedOf [lowBox]) 0 tt (QGeometry (@concat Polygon))
      {| x := 0; y := 0; elevation := 0 |} {| x := 20; y := 0; elevation := 10 |}
      None None None None
    = Returns (mkLogged path lg)
    /\ hd_error path = Some first
    /\ same_point first {| x := 0; y := 0; elevation := 0 |}.
Proof.
  eexists _, _.
  pose proof (fun H1 H2 H3 =>
    @constructRegionsPath_endpoints unit (list Polygon) (elevatedOf [lowBox]) 0 tt
      (QGeometry (@concat Polygon))
      {| x := 0; y := 0; elevation := 0 |} {| x := 20; y := 0; elevation := 10 |}
      None None None None _ _ H1 H2 H3 constructRegionsPath_over_box) as T.
  destruct T as [(first & Hhd & Hsame) _].
  - vm_compute. reflexivity.
  - vm_compute. discriminate.
  - intros d Hd. cbn -[Qred Qplus Qmult Qdiv Qminus QGeom.sqrt].
    split; (eapply Qeq_trans; [apply Qred_correct|]); rewrite Hd; vm_compute; reflexivity.
  - exists first. split; [exact constructRegionsPath_over_box|]. split; assumption.
Defined.

(** C2 fails on a token that walks from the scene floor towards a point 10
    above it and meets the underside of a box that floats between 4 and 6:
    from the point it hits, 8 from the start, it goes back to the box's
    corner, 5 from the start, then around the box. *)
Theorem constructRegionsPath_moves_backwards :
  constructRegionsPath (elevatedOf [floatingBox]) 0 tt (QGeometry (@concat Polygon))
    {| x := 0; y := 0; elevation := 0 |} {| x := 20; y := 0; elevation := 10 |}
    None None None None
  = Returns (mkLogged
      [ {| px := 0; py := Some 0; pelevation := Fin 0 |};
        {| px := 8; py := Some 0; pelevation := Fin 4 |};
        {| px := 5; py := Some 0; pelevation := Fin 4 |};
        {| px := 5; py := Some 0; pelevation := Fin 6 |};
        {| px := 15; py := Some 0; pelevation := Fin 6 |};
        {| px := 15; py := Some 0; pelevation := Fin 4 |};
        {| px := 15; py := Some 0; pelevation := Fin 0 |};
        {| px := 20; py := Some 0; pelevation := Fin 0 |} ] [])
  /\ ~ monotone_spec (elevatedOf [floatingBox]) 0 tt (QGeometry (@concat Polygon))
        {| x := 0; y := 0; elevation := 0 |} {| x := 20; y := 0; elevation := 10 |}
        None None None None.
Proof.
  split; [vm_compute; reflexivity|].
  intros (path & lg & ds & Hres & Hds & Hnd).
  vm_compute in Hres. inversion Hres; subst path lg. clear Hres.
  vm_compute in Hds.
  do 3 (destruct ds as [|? ds]; [discriminate|]).
  inversion Hds; subst. cbn in Hnd. destruct Hnd as (_ & Hback & _).
  vm_compute in Hback. apply Hback. reflexivity.
Qed.





(** ** The scene floor in the cutaway *)







(** On the short move [constructRegionsPath] takes the branch for an empty
    cutaway. *)
Lemma constructRegionsPath_short_move :
  constructRegionsPath (elevatedOf [plateau5]) 0 tt (QGeometry roundingUnion)
    {| x := 0; y := 0; elevation := 0 |} {| x := 1 # 4; y := 0; elevation := 0 |}
    None None None None
  = Returns (mkLogged [of_waypoint {| x := 0; y := 0; elevation := 0 |};
                       of_waypoint {| x := 1 # 4; y := 0; elevation := 0 |}] []).
Proof. vm_compute. reflexivity. Qed.

(** And so it does with the scene floor at [MIN_ELEV]. *)
Lemma constructRegionsPath_empty_cutaway :
  constructRegionsPath (elevatedOf [plateau5]) MIN_ELEV tt (QGeometry (@concat Polygon))
    {| x := 0; y := 0; elevation := 0 |} {| x := 20; y := 0; elevation := 0 |}
    None None None None
  = Returns (mkLogged [of_waypoint {| x := 0; y := 0; elevation := 0 |};
                       of_waypoint {| x := 20; y := 0; elevation := 0 |}] [])
  /\ value (_regions2dCutaway MIN_ELEV (QGeometry (@concat Polygon))
              {| x := 0; y := 0; elevation := 0 |} {| x := 20; y := 0; elevation := 0 |}
              (elevatedOf [plateau5] None)) = [].
Proof. split; vm_compute; reflexivity. Qed.

(** ** The round trip of the coordinate mapper *)

Section MapperRFacts.
Import MapperR.
Local Open Scope R_scope.

Lemma distance_pos (a b : WaypointR) :
  (xR a, yR a) <> (xR b, yR b) -> 0 < distanceBetween a b.
Proof.
  intros Hne. unfold distanceBetween. apply sqrt_lt_R0.
  destruct (Req_dec (xR b) (xR a)) as [Hx|Hx].
  - destruct (Req_dec (yR b) (yR a)) as [Hy|Hy].
    + exfalso. apply Hne. now rewrite Hx, Hy.
    + assert (0 < (yR b - yR a) * (yR b - yR a)) by (apply Rsqr_pos_lt; Lra.lra).
      assert (0 <= (xR b - xR a) * (xR b - xR a)) by apply Rle_0_sqr.
      Lra.lra.
  - assert (0 < (xR b - xR a) * (xR b - xR a)) by (apply Rsqr_pos_lt; Lra.lra).
    assert (0 <= (yR b - yR a) * (yR b - yR a)) by apply Rle_0_sqr.
    Lra.lra.
Qed.

Lemma distance_on_segment (p start end_ : WaypointR) (s : R) :
  0 <= s ->
  xR p = xR start + s * (xR end_ - xR start) ->
  yR p = yR start + s * (yR end_ - yR start) ->
  distanceBetween start p = s * distanceBetween start end_.
Proof.
  intros Hs Hx Hy. unfold distanceBetween. rewrite Hx, Hy.
  replace ((xR start + s * (xR end_ - xR start) - xR start)
           * (xR start + s * (xR end_ - xR start) - xR start)
           + (yR start + s * (yR end_ - yR start) - yR start)
             * (yR start + s * (yR end_ - yR start) - yR start))
    with ((s * s) * ((xR end_ - xR start) * (xR end_ - xR start)
                     + (yR end_ - yR start) * (yR end_ - yR start))) by ring.
  rewrite sqrt_mult_alt by (apply Rle_0_sqr).
  now rewrite sqrt_square.
Qed.

(** Over the real numbers, for [start] and [end_] at two places of the
    canvas and [p] on the segment between them, mapping [p] to the cutaway
    and back gives [p]. *)
Lemma round_trip_over_reals (p start end_ : WaypointR) :
  (xR start, yR start) <> (xR end_, yR end_) ->
  on_segment p start end_ ->
  _from2dCutawayCoordinate (_to2dCutawayCoordinate p start) start end_ = p.
Proof.
  intros Hne (s & [Hs0 Hs1] & Hx & Hy).
  pose proof (@distance_pos start end_ Hne) as Hpos.
  unfold _from2dCutawayCoordinate, _to2dCutawayCoordinate, towardsPoint. cbn [fst snd].
  rewrite (@distance_on_segment p start end_ s Hs0 Hx Hy).
  replace (s * distanceBetween start end_ / distanceBetween start end_) with s
    by (field; Lra.lra).
  destruct p as [px py pe]. cbn in *. subst px py. f_equal; ring.
Qed.

(** C8, as the code has it.  In the doubles of the program the round trip
    gives back the elevation of every point, whatever the segment.  The
    planar position comes back exactly in exact arithmetic: over the real
    numbers, for [start] and [end_] at two places of the canvas and [p] on
    the segment between them, mapping [p] to the cutaway and back gives
    [p]. *)
Theorem cutaway_round_trip :
  (forall p start end_ : MapperF.WaypointF,
     MapperF.elevationF
       (MapperF._from2dCutawayCoordinate (MapperF._to2dCutawayCoordinate p start)
                                         start end_)
     = MapperF.elevationF p)
  /\ (forall p start end_ : WaypointR,
        (xR start, yR start) <> (xR end_, yR end_) ->
        on_segment p start end_ ->
        _from2dCutawayCoordinate (_to2dCutawayCoordinate p start) start end_ = p).
Proof.
  split.
  - intros p start end_. reflexivity.
  - intros p start end_. apply round_trip_over_reals.
Qed.

Lemma cutaway_round_trip_witness :
  _from2dCutawayCoordinate
    (_to2dCutawayCoordinate {| xR := 3; yR := 4; elevationR := 7 |}
                            {| xR := 0; yR := 0; elevationR := 0 |})
    {| xR := 0; yR := 0; elevationR := 0 |} {| xR := 6; yR := 8; elevationR := 2 |}
  = {| xR := 3; yR := 4; elevationR := 7 |}.
Proof.
  apply (proj2 cutaway_round_trip).
  - intros H. inversion H. Lra.lra.
  - exists (1 / 2). cbn. repeat split; Lra.lra.
Defined.

End MapperRFacts.

Section MapperFFacts.
Import PrimFloat.
Local Open Scope float_scope.

(** Two doubles that [==] tells apart, the second of them a number, are
    not the same. *)
Lemma float_apart (a b : float) : (a =? b) = false -> (b =? b) = true -> a <> b.
Proof. intros H Hb E. rewrite E, Hb in H. discriminate H. Qed.

(** C8 is not what the code does in doubles.  Three quarters of the way
    from (0, 0) to (4, 4), the point (3, 3) comes back from the cutaway with
    [x = 2.9999999999999996]: the distances are the rounded square roots of
    18 and of 32, and their quotient is below 3/4.  And on a segment between
    two waypoints at one place of the canvas the quotient is 0/0: the start
    comes back with [x = NaN]. *)
Lemma cutaway_round_trip_fails_in_doubles :
  ~ MapperF.round_trip_spec MapperF.between MapperF.corner MapperF.far
  /\ MapperF.xF (MapperF._from2dCutawayCoordinate
                   (MapperF._to2dCutawayCoordinate MapperF.between MapperF.corner)
                   MapperF.corner MapperF.far)
     = 0x1.7ffffffffffffp+1
  /\ ~ MapperF.round_trip_spec MapperF.corner MapperF.corner MapperF.above
  /\ MapperF.xF (MapperF._from2dCutawayCoordinate
                   (MapperF._to2dCutawayCoordinate MapperF.corner MapperF.corner)
                   MapperF.corner MapperF.above)
     = nan.
Proof.
  split; [|split; [reflexivity|split; [|reflexivity]]].
  - intros H.
    assert (Hon : MapperF.on_segment MapperF.between MapperF.corner MapperF.far)
      by (exists 0.75; repeat split; reflexivity).
    apply H in Hon. apply (f_equal MapperF.xF) in Hon. revert Hon.
    apply float_apart; reflexivity.
  - intros H.
    assert (Hon : MapperF.on_segment MapperF.corner MapperF.corner MapperF.above)
      by (exists 0; repeat split; reflexivity).
    apply H in Hon. apply (f_equal MapperF.xF) in Hon. revert Hon.
    apply float_apart; reflexivity.
Qed.

End MapperFFacts.

(** * Further properties of the handler *)

Section ClassifierFacts.

Variables Samples Paths : Type.
Variable elevatedRegions :
  option (list (Region Samples Paths)) -> list (Region Samples Paths).
Variable sceneFloor : Q.
Variable defaultSamples : Samples.

Local Abbreviation Zone := (Region Samples Paths).
Local Abbreviation elevationType := (elevationType elevatedRegions sceneFloor).
Local Abbreviation nearestGroundElevation :=
  (nearestGroundElevation elevatedRegions sceneFloor defaultSamples).

(** When the loop of the classifier sets [offPlateau], a region contains
    the waypoint and would put it at another elevation. *)
Lemma elevationType_loop_off (waypoint : Waypoint) (regions : list Zone) :
  forall inside0 inside,
    elevationType_loop waypoint regions inside0 = (inside, true) ->
    exists region,
      In region (containing waypoint (Fin (elevation waypoint)) regions)
      /\ ~ elevationUponEntry region waypoint == elevation waypoint.
Proof.
  induction regions as [|region rest IH]; intros inside0 inside H; cbn in H.
  - discriminate.
  - unfold containing; cbn [filter].
    destruct (testPoint region waypoint (Fin (elevation waypoint))) eqn:Ht; cbn in H.
    + destruct (Qeq_bool (elevationUponEntry region waypoint) (elevation waypoint)) eqn:He;
        cbn in H.
      * destruct (IH _ _ H) as (r & Hr & Hne). exists r. split; [now right | exact Hne].
      * exists region. split; [now left|].
        intros Heq. apply Qeq_bool_iff in Heq. rewrite Heq in He. discriminate.
    + exact (IH _ _ H).
Qed.

(** X1: The classification does not depend on where the loop stops: a
    waypoint is UNDERGROUND when some region that contains it would put it at
    another elevation, FLOATING when no region contains it and it is not at
    the scene floor, and GROUND in the two cases left. *)
Theorem elevationType_characterised (waypoint : Waypoint) (regions : option (list Zone)) :
  let inside := containing waypoint (Fin (elevation waypoint)) (elevatedRegions regions) in
  (elevationType waypoint regions = UNDERGROUND <->
   exists region, In region inside
                  /\ ~ elevationUponEntry region waypoint == elevation waypoint)
  /\ (elevationType waypoint regions = FLOATING <->
      inside = [] /\ ~ elevation waypoint == sceneFloor)
  /\ (elevationType waypoint regions = GROUND <->
      (inside <> []
       /\ forall region, In region inside ->
                         elevationUponEntry region waypoint == elevation waypoint)
      \/ (inside = [] /\ elevation waypoint == sceneFloor)).
Proof.
  intros inside. unfold elevationType.
  destruct (elevationType_loop waypoint (elevatedRegions regions) false)
    as [ins off] eqn:Hloop.
  destruct (elevationType_loop_spec _ _ _ Hloop) as [Hoff Hon].
  destruct off.
  - rewrite (Hoff eq_refl). cbn [andb].
    destruct (elevationType_loop_off _ _ _ Hloop) as (r & Hr & Hne).
    fold inside in Hr.
    split; [|split].
    + split; [eauto | reflexivity].
    + split; [discriminate|]. intros [E _]. rewrite E in Hr. destruct Hr.
    + split; [discriminate|].
      intros [[_ Hall] | [E _]]; [exfalso; apply Hne, Hall, Hr | rewrite E in Hr; destruct Hr].
  - destruct (Hon eq_refl) as [Hin Hall]. cbn [orb] in Hin. fold inside in Hin, Hall.
    assert (Hins : ins = true <-> inside <> []).
    { rewrite Hin. destruct inside; cbn; split; congruence. }
    destruct ins; cbn [andb negb].
    + assert (Hne : inside <> []) by now apply Hins.
      split; [|split].
      * split; [discriminate|]. intros (r & Hr & Hnq). exfalso. apply Hnq, Hall, Hr.
      * split; [discriminate|]. intros [E _]. contradiction.
      * split; [auto | reflexivity].
    + assert (He : inside = []).
      { destruct inside; [reflexivity|]. exfalso.
        assert (false = true) by (apply Hins; discriminate). discriminate. }
      destruct (Qeq_bool (elevation waypoint) sceneFloor) eqn:Hf.
      * apply Qeq_bool_iff in Hf. split; [|split].
        -- split; [discriminate|]. intros (r & Hr & _). rewrite He in Hr. destruct Hr.
        -- split; [discriminate|]. intros [_ Hn]. contradiction.
        -- split; [auto | reflexivity].
      * assert (Hn : ~ elevation waypoint == sceneFloor).
        { intros E. apply Qeq_bool_iff in E. rewrite E in Hf. discriminate. }
        split; [|split].
        -- split; [discriminate|]. intros (r & Hr & _). rewrite He in Hr. destruct Hr.
        -- split; [auto | reflexivity].
        -- split; [discriminate|].
           intros [[Hne _] | [_ E]]; [contradiction | contradiction].
Qed.

End ClassifierFacts.

Section ResolverMoreFacts.

Variables Samples Paths : Type.
Variable elevatedRegions :
  option (list (Region Samples Paths)) -> list (Region Samples Paths).
Variable sceneFloor : Q.
Variable defaultSamples : Samples.

Local Abbreviation Zone := (Region Samples Paths).
Local Abbreviation nearestGroundElevation :=
  (nearestGroundElevation elevatedRegions sceneFloor defaultSamples).

(** The loop answers the elevation it starts from, [-Infinity], or the
    entry elevation of a region. *)
Lemma ground_loop_provenance (waypoint : Waypoint) (regions : list Zone) :
  forall (n : nat) (c0 c : num) (r : nat),
    ground_loop waypoint regions n c0 = (c, r) ->
    c = c0 \/ c = NegInf
    \/ exists region, In region regions /\ c = Fin (elevationUponEntry region waypoint).
Proof.
  induction n as [|n IH]; intros c0 c r H; cbn [ground_loop] in H.
  - inversion H. auto.
  - destruct (negb (num_eqb (max_entry waypoint regions c0) c0) && negb (Nat.eqb n 0)).
    + destruct (IH _ _ _ H) as [-> | [-> | Hr]]; auto.
      destruct (max_entry_cases waypoint regions c0) as [[_ E] | (region & Hin & E)];
        rewrite E; auto.
      right. right. exists region. split; [|reflexivity].
      unfold containing in Hin. apply filter_In in Hin. tauto.
    + inversion H. auto.
Qed.

(** A loop that stops with iterations to spare stops at a fixed point. *)
Lemma ground_loop_fixed (waypoint : Waypoint) (regions : list Zone) :
  forall (n : nat) (c0 c : num) (r : nat),
    ground_loop waypoint regions n c0 = (c, r) ->
    r <> O ->
    num_eqb (max_entry waypoint regions c) c = true.
Proof.
  induction n as [|n IH]; intros c0 c r H Hr; cbn [ground_loop] in H.
  - inversion H. congruence.
  - destruct (num_eqb (max_entry waypoint regions c0) c0) eqn:E; cbn [negb andb] in H.
    + inversion H; subst. exact E.
    + destruct (Nat.eqb n 0) eqn:En; cbn [negb] in H.
      * inversion H; subst. apply Nat.eqb_eq in En. contradiction.
      * eapply IH; eauto.
Qed.

(** X2: The resolver never invents an elevation: its answer is the scene
    floor, the waypoint's own elevation, the elevation on entry of one of the
    regions, or [-Infinity]. *)
Theorem nearestGroundElevation_provenance (waypoint : Waypoint)
    (regions : option (list Zone)) (samples : option Samples) (burrowing : flag) :
  let v := value (nearestGroundElevation waypoint regions samples burrowing) in
  v = Fin sceneFloor
  \/ v = Fin (elevation waypoint)
  \/ v = NegInf
  \/ exists region, In region (elevatedRegions regions)
                    /\ v = Fin (elevationUponEntry region waypoint).
Proof.
  cbv zeta. unfold nearestGroundElevation.
  set (rs := elevatedRegions regions).
  set (smp := match samples with Some s => s | None => defaultSamples end).
  destruct (truthy burrowing && _); [cbn [value]; auto|].
  assert (Hloop : forall c0,
    (c0 = Fin (elevation waypoint)
     \/ exists region, In region rs /\ c0 = Fin (elevationUponEntry region waypoint)) ->
    let v := value (if truthy burrowing then mkLogged c0 []
                    else let '(c, r) := ground_loop waypoint rs MAX_ITER c0 in
                         mkLogged c (if Nat.eqb r 0 then [GroundMaxIter] else [])) in
    v = Fin sceneFloor \/ v = Fin (elevation waypoint) \/ v = NegInf
    \/ exists region, In region rs /\ v = Fin (elevationUponEntry region waypoint)).
  { intros c0 Hc0. destruct (truthy burrowing); cbn [value].
    - destruct Hc0 as [-> | H]; auto.
    - destruct (ground_loop waypoint rs MAX_ITER c0) as [c r] eqn:Hg. cbn [value].
      destruct (ground_loop_provenance _ _ _ _ Hg) as [-> | [-> | H]]; auto.
      destruct Hc0 as [-> | H]; auto. }
  destruct (Nat.eqb (length (filter _ rs)) 0).
  - destruct (Qeq_bool (elevation waypoint) sceneFloor); [cbn [value]; auto|].
    destruct (fall_ixs _ smp (elevation waypoint) rs) as [|ix rest] eqn:Hfall;
      [cbn [value]; auto|].
    apply Hloop. right.
    exists (ix_region (first_min_dist ix rest)). split; [|reflexivity].
    destruct (first_min_dist_spec rest ix) as [Hin _].
    rewrite <- Hfall in Hin. apply fall_ixs_spec in Hin.
    destruct Hin as (region & sg & rt & Hr & _ & _ & ->). exact Hr.
  - apply Hloop. auto.
Qed.

(** X3: Without burrowing, an answer that comes without a logged error is a
    fixed point of the replacement (the maximum entry elevation at the answer
    is the answer), or it is the scene floor for a waypoint outside every
    region. *)
Theorem nearestGroundElevation_settled (waypoint : Waypoint)
    (regions : option (list Zone)) (samples : option Samples) (burrowing : flag) :
  truthy burrowing = false ->
  log (nearestGroundElevation waypoint regions samples burrowing) = [] ->
  let v := value (nearestGroundElevation waypoint regions samples burrowing) in
  num_eq (max_entry waypoint (elevatedRegions regions) v) v
  \/ (containing waypoint (Fin (elevation waypoint)) (elevatedRegions regions) = []
      /\ v = Fin sceneFloor).
Proof.
  intros Hb. unfold nearestGroundElevation, containing. rewrite Hb. cbn [andb].
  set (rs := elevatedRegions regions).
  assert (Hloop : forall c0,
    log (let '(c, r) := ground_loop waypoint rs MAX_ITER c0 in
         mkLogged c (if Nat.eqb r 0 then [GroundMaxIter] else [])) = [] ->
    num_eq (max_entry waypoint rs
              (value (let '(c, r) := ground_loop waypoint rs MAX_ITER c0 in
                      mkLogged c (if Nat.eqb r 0 then [GroundMaxIter] else []))))
           (value (let '(c, r) := ground_loop waypoint rs MAX_ITER c0 in
                   mkLogged c (if Nat.eqb r 0 then [GroundMaxIter] else [])))).
  { intros c0. destruct (ground_loop waypoint rs MAX_ITER c0) as [c r] eqn:Hg.
    cbn [value log].
    destruct (Nat.eqb r 0) eqn:Er; [discriminate|]. intros _.
    apply num_eqb_eq. eapply ground_loop_fixed; eauto.
    intros ->. discriminate. }
  destruct (filter _ rs) as [|z zs] eqn:Hf; cbn [length Nat.eqb].
  - destruct (Qeq_bool (elevation waypoint) sceneFloor); [cbn [value log]; auto|].
    destruct (fall_ixs _ _ (elevation waypoint) rs) as [|ix rest]; [cbn [value log]; auto|].
    intros Hlog. left. now apply Hloop.
  - intros Hlog. left. now apply Hloop.
Qed.

(** X4: A region that puts the waypoint outside every region sends the
    resolver to [-Infinity]: when the maximum entry elevation at the waypoint
    differs from its elevation, and no region contains the waypoint there or
    at [-Infinity], the answer is [-Infinity], without a logged error. *)
Theorem nearestGroundElevation_minus_infinity (waypoint : Waypoint)
    (regions : option (list Zone)) (samples : option Samples) (burrowing : flag) :
  truthy burrowing = false ->
  let rs := elevatedRegions regions in
  let m := max_entry waypoint rs (Fin (elevation waypoint)) in
  containing waypoint (Fin (elevation waypoint)) rs <> [] ->
  num_eqb m (Fin (elevation waypoint)) = false ->
  containing waypoint m rs = [] ->
  containing waypoint NegInf rs = [] ->
  nearestGroundElevation waypoint regions samples burrowing = mkLogged NegInf [].
Proof.
  intros Hb rs m Hin Hm Hatm Hinf.
  rewrite (@nearestGroundElevation_inside Samples Paths elevatedRegions sceneFloor
             defaultSamples waypoint regions samples burrowing Hb Hin).
  fold rs.
  assert (Fm : max_entry waypoint rs m = NegInf).
  { destruct (max_entry_cases waypoint rs m) as [[_ E] | (r & Hr & _)]; [exact E|].
    rewrite Hatm in Hr. destruct Hr. }
  assert (Fi : max_entry waypoint rs NegInf = NegInf).
  { destruct (max_entry_cases waypoint rs NegInf) as [[_ E] | (r & Hr & _)]; [exact E|].
    rewrite Hinf in Hr. destruct Hr. }
  assert (Hfin : exists q, m = Fin q).
  { destruct (max_entry_cases waypoint rs (Fin (elevation waypoint)))
      as [[E _] | (r & _ & E)]; [contradiction | eauto]. }
  destruct Hfin as [q Hq].
  rewrite MAX_ITER_S.
  rewrite (@ground_loop_converges Samples Paths waypoint rs 2 9999 (Fin (elevation waypoint))).
  - cbn [Nat.iter nat_rect]. fold m. rewrite Fm. cbn [fst snd].
    destruct (9999 - 2)%nat eqn:E; [|reflexivity].
    exfalso. apply Nat.sub_0_le in E. apply Nat.leb_le in E. vm_compute in E. discriminate.
  - apply Nat.leb_le. vm_compute. reflexivity.
  - intros j Hj. destruct j as [|[|j]]; [| |lia]; cbn [Nat.iter nat_rect]; fold m.
    + exact Hm.
    + rewrite Fm, Hq. reflexivity.
  - cbn [Nat.iter nat_rect]. fold m. rewrite Fm, Fi. reflexivity.
Qed.

(** A best candidate that nothing beats stays the head. *)
Lemma first_min_dist_least (ixs : list (RegionIx Samples Paths)) :
  forall best, (forall x, In x ixs -> ix_dist best <= ix_dist x) ->
               first_min_dist best ixs = best.
Proof.
  induction ixs as [|x rest IH]; intros best Hall; cbn; [reflexivity|].
  destruct (Qlt_le_dec (ix_dist x) (ix_dist best)) as [Hlt|_].
  - exfalso. apply (Qlt_not_le _ _ Hlt). apply Hall. now left.
  - apply IH. intros y Hy. apply Hall. now right.
Qed.

(** The first of the nearest intersections is the head. *)
Lemma first_min_dist_first (ix : RegionIx Samples Paths) (l2 : list (RegionIx Samples Paths)) :
  (forall x, In x l2 -> ix_dist ix <= ix_dist x) ->
  forall l1 best,
    ix_dist ix < ix_dist best ->
    (forall x, In x l1 -> ix_dist ix < ix_dist x) ->
    first_min_dist best (l1 ++ ix :: l2) = ix.
Proof.
  intros Hl2. induction l1 as [|x l1 IH]; intros best Hb Hl1; cbn.
  - destruct (Qlt_le_dec (ix_dist ix) (ix_dist best)) as [_|Hle].
    + now apply first_min_dist_least.
    + exfalso. apply (Qlt_not_le _ _ Hb Hle).
  - destruct (Qlt_le_dec (ix_dist x) (ix_dist best)).
    + apply IH; [apply Hl1; now left | intros y Hy; apply Hl1; now right].
    + apply IH; [exact Hb | intros y Hy; apply Hl1; now right].
Qed.

(** X5: Ties of the fall go to the region that comes first: when the
    intersections of the fall split into ones strictly farther than [ix],
    then [ix], then ones not nearer than [ix], a burrowing token outside
    every region and off the scene floor ends at the elevation on entry of
    the region of [ix]. *)
Theorem nearestGroundElevation_fall_ties (waypoint : Waypoint)
    (regions : option (list Zone)) (samples : option Samples) (burrowing : flag)
    (l1 l2 : list (RegionIx Samples Paths)) (ix : RegionIx Samples Paths) :
  truthy burrowing = true ->
  containing waypoint (Fin (elevation waypoint)) (elevatedRegions regions) = [] ->
  ~ elevation waypoint == sceneFloor ->
  fall_ixs [waypoint; {| x := x waypoint; y := y waypoint; elevation := sceneFloor |}]
           (match samples with Some s => s | None => defaultSamples end)
           (elevation waypoint) (elevatedRegions regions)
  = l1 ++ ix :: l2 ->
  (forall x, In x l1 -> ix_dist ix < ix_dist x) ->
  (forall x, In x l2 -> ix_dist ix <= ix_dist x) ->
  nearestGroundElevation waypoint regions samples burrowing
  = mkLogged (Fin (elevationUponEntry (ix_region ix) waypoint)) [].
Proof.
  intros Hb Hout Hf Hfall Hl1 Hl2.
  unfold nearestGroundElevation. unfold containing in Hout. rewrite Hout, Hb.
  cbn [length Nat.eqb negb andb].
  destruct (Qeq_bool (elevation waypoint) sceneFloor) eqn:E;
    [apply Qeq_bool_iff in E; contradiction|].
  rewrite Hfall.
  destruct l1 as [|b l1]; cbn [app].
  - now rewrite first_min_dist_least.
  - rewrite first_min_dist_first; auto.
    + apply Hl1. now left.
    + intros y Hy. apply Hl1. now right.
Qed.

End ResolverMoreFacts.

Section ResolverFixedFacts.

Variables Samples Paths : Type.
Variable elevatedRegions :
  option (list (Region Samples Paths)) -> list (Region Samples Paths).
Variable sceneFloor : Q.
Variable defaultSamples : Samples.

Local Abbreviation Zone := (Region Samples Paths).
Local Abbreviation elevationType := (elevationType elevatedRegions sceneFloor).
Local Abbreviation nearestGroundElevation :=
  (nearestGroundElevation elevatedRegions sceneFloor defaultSamples).

Lemma max_entry_ext (w w' : Waypoint) (c c' : num) (regions : list Zone) :
  (forall region, In region regions ->
     testPoint region w c = testPoint region w' c'
     /\ elevationUponEntry region w = elevationUponEntry region w') ->
  max_entry w regions c = max_entry w' regions c'.
Proof.
  unfold max_entry. generalize NegInf.
  induction regions as [|region rest IH]; intros acc H; [reflexivity|].
  cbn [fold_left]. destruct (H region (or_introl eq_refl)) as [-> ->].
  apply IH. intros r Hr. apply H. now right.
Qed.

Lemma containing_ext (w w' : Waypoint) (c c' : num) (regions : list Zone) :
  (forall region, In region regions ->
     testPoint region w c = testPoint region w' c') ->
  containing w c regions = containing w' c' regions.
Proof. intros H. unfold containing. apply filter_ext_in. exact H. Qed.

(** X6: Without burrowing, the elevation the resolver settles on is a fixed
    point of the resolver, and a place the classifier does not call
    FLOATING: resolving the waypoint again from that elevation gives that
    elevation.  The regions must test and answer by the planar position of
    the waypoint given to them (its [elevation] property is not read), and
    the result must not be the scene floor reached by a fall that entered
    no region, below which a region may still lie. *)
Theorem nearestGroundElevation_idempotent (waypoint : Waypoint)
    (regions : option (list Zone)) (samples : option Samples) (burrowing : flag)
    (v : Q) :
  let resolved := {| x := x waypoint; y := y waypoint; elevation := v |} in
  (forall region, In region (elevatedRegions regions) ->
     forall a b e e', x a = x b -> y a = y b -> num_eq e e' ->
       testPoint region a e = testPoint region b e'
       /\ elevationUponEntry region a = elevationUponEntry region b) ->
  truthy burrowing = false ->
  nearestGroundElevation waypoint regions samples burrowing = mkLogged (Fin v) [] ->
  (containing waypoint (Fin (elevation waypoint)) (elevatedRegions regions) = [] ->
   ~ elevation waypoint == sceneFloor ->
   fall_ixs [waypoint;
             {| x := x waypoint; y := y waypoint; elevation := sceneFloor |}]
            (match samples with Some s => s | None => defaultSamples end)
            (elevation waypoint) (elevatedRegions regions) <> []) ->
  nearestGroundElevation resolved regions samples burrowing = mkLogged (Fin v) []
  /\ elevationType resolved regions <> FLOATING.
Proof.
  intros resolved Hplanar Hb Hres Hfall.
  set (rs := elevatedRegions regions) in *.
  assert (K : (containing waypoint (Fin (elevation waypoint)) rs = []
               /\ elevation waypoint == sceneFloor /\ v = sceneFloor)
              \/ num_eqb (max_entry waypoint rs (Fin v)) (Fin v) = true).
  { assert (Hloop : forall c0,
      (let '(c, r) := ground_loop waypoint rs MAX_ITER c0 in
       mkLogged c (if Nat.eqb r 0 then [GroundMaxIter] else [])) = mkLogged (Fin v) [] ->
      num_eqb (max_entry waypoint rs (Fin v)) (Fin v) = true).
    { intros c0. destruct (ground_loop waypoint rs MAX_ITER c0) as [c r] eqn:Hg.
      destruct (Nat.eqb r 0) eqn:Er; [discriminate|]. intros [= ->].
      eapply ground_loop_fixed; eauto. intros ->. discriminate. }
    revert Hres Hfall. unfold nearestGroundElevation, containing. fold rs.
    rewrite Hb. cbn [andb].
    destruct (filter _ rs) as [|z zs] eqn:Hf; cbn [length Nat.eqb].
    - destruct (Qeq_bool (elevation waypoint) sceneFloor) eqn:Hq.
      + intros [= <-] _. left. apply Qeq_bool_iff in Hq. auto.
      + intros Hres Hfall.
        assert (Hne : ~ elevation waypoint == sceneFloor).
        { intros E. apply Qeq_bool_iff in E. rewrite E in Hq. discriminate. }
        specialize (Hfall eq_refl Hne).
        destruct (fall_ixs _ _ (elevation waypoint) rs) as [|ix rest];
          [contradiction|].
        right. eapply Hloop. exact Hres.
    - intros Hres _. right. eapply Hloop. exact Hres. }
  destruct K as [(Hout & Hq & ->) | Hfix].
  - assert (Hout' : containing resolved (Fin sceneFloor) rs = []).
    { rewrite <- Hout. apply containing_ext. intros region Hin.
      apply (Hplanar region Hin); [reflexivity | reflexivity|].
      cbn. symmetry. exact Hq. }
    split.
    + unfold nearestGroundElevation. fold rs. rewrite Hb. cbn [andb].
      change (elevation resolved) with sceneFloor.
      unfold containing in Hout'. rewrite Hout'. cbn [length Nat.eqb].
      rewrite Qeq_bool_refl. reflexivity.
    + unfold elevationType. fold rs.
      destruct (elevationType_loop resolved rs false) as [inside off].
      change (elevation resolved) with sceneFloor. rewrite Qeq_bool_refl.
      destruct inside, off; cbn; discriminate.
  - assert (Hsame : max_entry resolved rs (Fin v) = max_entry waypoint rs (Fin v)).
    { apply max_entry_ext. intros region Hin.
      apply (Hplanar region Hin); [reflexivity | reflexivity | apply num_eq_refl]. }
    assert (Hin : containing resolved (Fin v) rs <> []).
    { destruct (max_entry_cases resolved rs (Fin v)) as [[_ Hm] | (region & Hr & _)].
      - rewrite Hsame in Hm. rewrite Hm in Hfix. discriminate.
      - intros E. rewrite E in Hr. destruct Hr. }
    split.
    + rewrite (@nearestGroundElevation_inside _ _ elevatedRegions sceneFloor
                 defaultSamples resolved regions samples burrowing Hb Hin).
      fold rs. change (elevation resolved) with v.
      rewrite MAX_ITER_S, ground_loop_stop by (rewrite Hsame; exact Hfix).
      destruct (Nat.eqb 9999 0) eqn:E; [vm_compute in E; discriminate | reflexivity].
    + unfold elevationType. fold rs.
      destruct (elevationType_loop resolved rs false) as [inside off] eqn:Hl.
      destruct (elevationType_loop_spec _ _ _ Hl) as [Hoff Hon].
      destruct off.
      * rewrite (Hoff eq_refl). cbn. discriminate.
      * destruct (Hon eq_refl) as [-> _]. cbn [orb].
        change (elevation resolved) with v.
        destruct (containing resolved (Fin v) rs); [contradiction|].
        cbn. discriminate.
Qed.

End ResolverFixedFacts.

Section IntersectionFacts.

Variable Paths : Type.
Variable G : Geometry Paths.

Lemma nondecreasing_cons (a : Q) (l : list Q) :
  nondecreasing (a :: l) <-> (match l with [] => True | b :: _ => a <= b end)
                             /\ nondecreasing l.
Proof. destruct l; cbn; tauto. Qed.

(** Insertion keeps a list of intersections ordered by [t0]. *)
Lemma insert_t0_sorted (ix : PolyIx) (l : list PolyIx) :
  nondecreasing (map (fun i => t0 (pix i)) l) ->
  nondecreasing (map (fun i => t0 (pix i)) (insert_t0 ix l)).
Proof.
  induction l as [|h t IH]; intros Hs; cbn [insert_t0 map].
  - exact I.
  - destruct (Qlt_le_dec (t0 (pix ix)) (t0 (pix h))) as [Hlt|Hle].
    + cbn [map]. apply nondecreasing_cons. split; [now apply Qlt_le_weak | exact Hs].
    + cbn [map]. apply nondecreasing_cons in Hs. destruct Hs as [Hh Ht].
      apply nondecreasing_cons. split; [|now apply IH].
      destruct t as [|h' t']; cbn [insert_t0 map]; [exact Hle|].
      destruct (Qlt_le_dec (t0 (pix ix)) (t0 (pix h'))); cbn [map]; assumption.
Qed.

Lemma sort_t0_sorted (l : list PolyIx) :
  nondecreasing (map (fun i => t0 (pix i)) (sort_t0 l)).
Proof.
  unfold sort_t0.
  assert (Hgen : forall acc, nondecreasing (map (fun i => t0 (pix i)) acc) ->
            nondecreasing (map (fun i => t0 (pix i))
                               (fold_left (fun acc ix => insert_t0 ix acc) l acc))).
  { induction l as [|h t IH]; intros acc Hacc; cbn [fold_left]; [exact Hacc|].
    apply IH. now apply insert_t0_sorted. }
  apply Hgen. exact I.
Qed.

Lemma insert_t0_keeps (a ix : PolyIx) (l : list PolyIx) :
  ix = a \/ In ix l -> In ix (insert_t0 a l).
Proof.
  induction l as [|h t IH]; cbn.
  - intros [->|[]]. now left.
  - destruct (Qlt_le_dec (t0 (pix a)) (t0 (pix h))).
    + intros [->|H]; [now left | now right].
    + intros [->|[->|H]]; [right; apply IH; now left | now left | right; apply IH; now right].
Qed.

Lemma sort_t0_keeps (ix : PolyIx) (l : list PolyIx) : In ix l -> In ix (sort_t0 l).
Proof.
  unfold sort_t0.
  assert (Hgen : forall acc, In ix acc \/ In ix l ->
                             In ix (fold_left (fun acc ix => insert_t0 ix acc) l acc)).
  { induction l as [|h t IH]; cbn [fold_left]; intros acc H.
    - destruct H as [H|[]]. exact H.
    - apply IH. destruct H as [H|[->|H]].
      + left. apply insert_t0_keeps. now right.
      + left. apply insert_t0_keeps. now left.
      + now right. }
  intros H. apply Hgen. now right.
Qed.

(** What the intersections of [polygon_ixs] are. *)
Lemma polygon_ixs_sound (a b : pt) (polyIndex : nat) (edges : list Edge) :
  forall ixIndices ixs,
    polygon_ixs G a b polyIndex edges ixIndices = Returns ixs ->
    forall ix,
      In ix ixs <->
      (pix_poly ix = polyIndex
       /\ ~ t0 (pix ix) == 0
       /\ In (pix_edge_index ix) ixIndices
       /\ nth_error edges (pix_edge_index ix) = Some (pix_edge ix)
       /\ lineLineIntersection G a b (eA (pix_edge ix)) (eB (pix_edge ix))
          = Some (pix ix)).
Proof.
  induction ixIndices as [|i rest IH]; intros ixs H ix; cbn [polygon_ixs] in H.
  - inversion H; subst. split; [intros [] | intros (_ & _ & [] & _)].
  - destruct (nth_error edges i) as [edge|] eqn:He; [|discriminate].
    destruct (lineLineIntersection G a b (eA edge) (eB edge)) as [lix|] eqn:Hl; [|discriminate].
    destruct (polygon_ixs G a b polyIndex edges rest) as [more|] eqn:Hm; [|discriminate].
    specialize (IH more eq_refl ix).
    assert (Hhead : forall ix0 : PolyIx,
              pix_edge_index ix0 = i ->
              nth_error edges (pix_edge_index ix0) = Some (pix_edge ix0) ->
              lineLineIntersection G a b (eA (pix_edge ix0)) (eB (pix_edge ix0))
              = Some (pix ix0) ->
              pix_poly ix0 = polyIndex ->
              ix0 = {| pix := lix; pix_edge := edge; pix_edge_index := i;
                       pix_poly := polyIndex |}).
    { intros [p e n k] Hi Hn Hx Hk. cbn in *. subst n k.
      rewrite He in Hn. inversion Hn; subst e. rewrite Hl in Hx. inversion Hx; subst p.
      reflexivity. }
    destruct (Qeq_bool (t0 lix) 0) eqn:Hz; inversion H; subst; clear H.
    + rewrite IH. split.
      * intros (H1 & H2 & H3 & H4 & H5). repeat split; auto. now right.
      * intros (H1 & H2 & [Hi|H3] & H4 & H5); [|repeat split; auto].
        exfalso. apply H2. symmetry in Hi.
        rewrite (Hhead ix Hi H4 H5 H1). cbn. now apply Qeq_bool_iff.
    + split.
      * intros [<-|Hin].
        -- cbn. repeat split; auto.
           intros E. apply Qeq_bool_iff in E. rewrite E in Hz. discriminate.
        -- apply IH in Hin. destruct Hin as (H1 & H2 & H3 & H4 & H5).
           repeat split; auto. now right.
      * intros (H1 & H2 & [Hi|H3] & H4 & H5).
        -- left. symmetry in Hi. symmetry. exact (Hhead ix Hi H4 H5 H1).
        -- right. apply IH. repeat split; auto.
Qed.

Lemma polygons_ixs_sound (a b : pt) (skipPoly : option nat) :
  forall (polys : list Polygon) (k : nat) (ixs : list PolyIx),
    polygons_ixs G a b k polys skipPoly = Returns ixs ->
    forall ix,
      In ix ixs <->
      exists poly,
        (k <= pix_poly ix)%nat
        /\ nth_error polys (pix_poly ix - k) = Some poly
        /\ skipPoly <> Some (pix_poly ix)
        /\ lineSegmentIntersects G poly a b (iterateEdges G poly) = true
        /\ In (pix_edge_index ix)
              (segmentIntersections G poly a b (iterateEdges G poly))
        /\ nth_error (iterateEdges G poly) (pix_edge_index ix) = Some (pix_edge ix)
        /\ lineLineIntersection G a b (eA (pix_edge ix)) (eB (pix_edge ix))
           = Some (pix ix)
        /\ ~ t0 (pix ix) == 0.
Proof.
  induction polys as [|poly rest IH]; intros k ixs H ix; cbn [polygons_ixs] in H.
  - inversion H; subst. split; [intros [] | intros (p & _ & Hn & _)].
    destruct (pix_poly ix - k)%nat; discriminate Hn.
  - match type of H with
    | match ?here with _ => _ end = _ => destruct here as [hixs|] eqn:Hhere; [|discriminate]
    end.
    destruct (polygons_ixs G a b (S k) rest skipPoly) as [more|] eqn:Hm; [|discriminate].
    inversion H; subst; clear H. specialize (IH (S k) more Hm ix).
    assert (Hrest : In ix more <->
              exists p, (S k <= pix_poly ix)%nat
                        /\ nth_error (poly :: rest) (pix_poly ix - k) = Some p
                        /\ skipPoly <> Some (pix_poly ix)
                        /\ lineSegmentIntersects G p a b (iterateEdges G p) = true
                        /\ In (pix_edge_index ix)
                              (segmentIntersections G p a b (iterateEdges G p))
                        /\ nth_error (iterateEdges G p) (pix_edge_index ix)
                           = Some (pix_edge ix)
                        /\ lineLineIntersection G a b (eA (pix_edge ix)) (eB (pix_edge ix))
                           = Some (pix ix)
                        /\ ~ t0 (pix ix) == 0).
    { rewrite IH. split; intros (p & Hle & Hn & Hr); exists p; (split; [exact Hle|]);
        (split; [|exact Hr]).
      - replace (pix_poly ix - k)%nat with (S (pix_poly ix - S k)) by lia. exact Hn.
      - replace (pix_poly ix - k)%nat with (S (pix_poly ix - S k)) in Hn by lia. exact Hn. }
    assert (Hhere' : In ix hixs <->
              (pix_poly ix = k
               /\ skipPoly <> Some k
               /\ lineSegmentIntersects G poly a b (iterateEdges G poly) = true
               /\ In (pix_edge_index ix)
                     (segmentIntersections G poly a b (iterateEdges G poly))
               /\ nth_error (iterateEdges G poly) (pix_edge_index ix) = Some (pix_edge ix)
               /\ lineLineIntersection G a b (eA (pix_edge ix)) (eB (pix_edge ix))
                  = Some (pix ix)
               /\ ~ t0 (pix ix) == 0)).
    { destruct (match skipPoly with Some j => Nat.eqb j k | None => false end) eqn:Hskip.
      { inversion Hhere; subst. split; [intros []|].
        intros (_ & Hs & _). exfalso. apply Hs.
        destruct skipPoly as [j|]; [|discriminate]. apply Nat.eqb_eq in Hskip. now subst. }
      assert (Hs : skipPoly <> Some k).
      { intros ->. rewrite Nat.eqb_refl in Hskip. discriminate. }
      destruct (lineSegmentIntersects G poly a b (iterateEdges G poly)) eqn:Hls;
        cbn [negb] in Hhere.
      - rewrite (polygon_ixs_sound _ _ _ _ _ Hhere ix). split.
        + intros (H1 & H2 & H3 & H4 & H5). repeat split; auto.
        + intros (H1 & _ & _ & H3 & H4 & H5 & H2). repeat split; auto.
      - inversion Hhere; subst. split; [intros []|].
        intros (_ & _ & Habs & _). discriminate Habs. }
    rewrite in_app_iff, Hhere', Hrest. split.
    + intros [(H1 & Hs & Hr) | (p & Hle & Hn & Hr)].
      * exists poly. rewrite H1, Nat.sub_diag. split; [lia|]. split; [reflexivity|].
        split; [exact Hs | exact Hr].
      * exists p. split; [lia|]. split; [exact Hn | exact Hr].
    + intros (p & Hle & Hn & Hs & Hr).
      destruct (Nat.eq_dec (pix_poly ix) k) as [E|E].
      * left. rewrite E, Nat.sub_diag in Hn. cbn in Hn. inversion Hn; subst p.
        split; [exact E|]. split; [now rewrite <- E | exact Hr].
      * right. exists p. split; [lia|]. split; [exact Hn|]. split; [exact Hs | exact Hr].
Qed.

(** X7: The intersections that [polygonsIntersections] returns come nearest
    first, and they are these: for every polygon but the one to skip that
    [lineSegmentIntersects] says the segment meets, and every index of an
    edge that [segmentIntersections] reports for it, the line intersection
    of the segment with that edge, unless it is at the start of the segment
    ([t0] is 0). *)
Theorem polygonsIntersections_sound (a b : pt) (combinedPolys : list Polygon)
    (skipPoly : option nat) (ixs : list PolyIx) :
  polygonsIntersections G a b combinedPolys skipPoly = Returns ixs ->
  nondecreasing (map (fun ix => t0 (pix ix)) ixs)
  /\ forall ix,
       In ix ixs <->
       exists poly,
         nth_error combinedPolys (pix_poly ix) = Some poly
         /\ skipPoly <> Some (pix_poly ix)
         /\ lineSegmentIntersects G poly a b (iterateEdges G poly) = true
         /\ In (pix_edge_index ix)
               (segmentIntersections G poly a b (iterateEdges G poly))
         /\ nth_error (iterateEdges G poly) (pix_edge_index ix) = Some (pix_edge ix)
         /\ lineLineIntersection G a b (eA (pix_edge ix)) (eB (pix_edge ix))
            = Some (pix ix)
         /\ ~ t0 (pix ix) == 0.
Proof.
  unfold polygonsIntersections.
  destruct (polygons_ixs G a b 0 combinedPolys skipPoly) as [raw|] eqn:Hraw; [|discriminate].
  intros H. inversion H; subst. split; [apply sort_t0_sorted|].
  intros ix.
  assert (Hsort : In ix (sort_t0 raw) <-> In ix raw)
    by (split; [apply sort_t0_In | apply sort_t0_keeps]).
  rewrite Hsort, (polygons_ixs_sound _ _ _ _ _ Hraw ix).
  split; intros (p & Hr); exists p.
  - destruct Hr as (_ & Hn & Hr). rewrite Nat.sub_0_r in Hn. auto.
  - destruct Hr as (Hn & Hr). rewrite Nat.sub_0_r. split; [lia | auto].
Qed.

End IntersectionFacts.

Section MarchFacts.

Variables Samples Paths : Type.
Variable elevatedRegions :
  option (list (Region Samples Paths)) -> list (Region Samples Paths).
Variable sceneFloor : Q.
Variable defaultSamples : Samples.
Variable G : Geometry Paths.

Local Abbreviation Zone := (Region Samples Paths).
Local Abbreviation constructRegionsPath :=
  (constructRegionsPath elevatedRegions sceneFloor defaultSamples G).

(** The target of a pass after steps 1 to 3 of the body. *)
Lemma march_body_cases (flying burrowing : flag) (endType : ELEVATION_LOCATIONS)
    (combinedPolys : list Polygon) (end2d : CPoint) (destPoly : option nat)
    (iter : nat) (m : March) (ce : CPoint) :
  currEnd m = Some ce ->
  let wps := currPosition m :: waypoints m in
  (Qle_bool (cx end2d) (cx (currPosition m)) = true
   /\ march_body sceneFloor G flying burrowing endType combinedPolys end2d destPoly iter m = Break wps)
  \/ (Qle_bool (cx end2d) (cx (currPosition m)) = false
      /\ exists ce3 cp3,
           cx (currPosition m) <= cx ce3
           /\ (cx (currPosition m) <= cx ce -> ce3 = ce \/ ce3 = end2d)
           /\ (ce = end2d -> ce3 = end2d /\ (currPoly m = None -> cp3 = None))
           /\ march_body sceneFloor G flying burrowing endType combinedPolys end2d destPoly iter m
              = (if (if truthy flying || truthy burrowing
                     then negb (existsb (fun poly =>
                                 linesCross G poly (cpt (currPosition m)) (cpt end2d))
                               combinedPolys)
                     else false)
                    && ((truthy flying && loc_eqb endType FLOATING)
                        || (truthy burrowing && same_poly destPoly cp3))
                 then Continue {| currPosition := ce3; currEnd := Some ce3;
                                  currPoly := None; currPolyIndex := currPolyIndex m;
                                  waypoints := wps |}
                 else match cp3 with
                      | Some polyIndex =>
                          cycle G combinedPolys polyIndex ce3 (currPolyIndex m) wps
                      | None =>
                          match polygonsIntersections G (cpt (currPosition m)) (cpt ce3)
                                                      combinedPolys None with
                          | Throws => Throw
                          | Returns [] =>
                              Continue {| currPosition := ce3; currEnd := Some ce3;
                                          currPoly := None;
                                          currPolyIndex := currPolyIndex m;
                                          waypoints := wps |}
                          | Returns (ix0 :: _) =>
                              let ixp := {| cx := lx (pix ix0); cy := ly (pix ix0);
                                            oid := OIx iter |} in
                              if truthy burrowing
                              then Continue {| currPosition := ixp;
                                               currEnd := Some end2d;
                                               currPoly := None;
                                               currPolyIndex := currPolyIndex m;
                                               waypoints := ixp :: wps |}
                              else
                                match nth_error combinedPolys (pix_poly ix0) with
                                | None => Throw
                                | Some poly =>
                                    cycle G combinedPolys (pix_poly ix0)
                                      {| cx := fst (eB (pix_edge ix0));
                                         cy := snd (eB (pix_edge ix0));
                                         oid := OEdgeB (pix_poly ix0) (pix_edge_index ix0) |}
                                      (match findIndex
                                               (fun p => pointAlmostEqual G p (eB (pix_edge ix0)))
                                               (iteratePoints G poly) with
                                       | Some i => Z.of_nat i
                                       | None => (-1)%Z
                                       end)
                                      (ixp :: wps)
                                end
                          end
                      end)).
Proof.
  intros Ece wps. unfold march_body. rewrite Ece. fold wps.
  destruct (Qle_bool (cx end2d) (cx (currPosition m))) eqn:Hbrk.
  { left. split; [reflexivity|].
    destruct (if Qlt_le_dec (cx ce) (cx (currPosition m)) then _ else _) as [ce1 cp1].
    destruct (if truthy flying && _ && _ then _ else _) as [ce2 cp2].
    destruct (if cutawayPointsEqual (currPosition m) ce2 then _ else _) as [ce3 cp3].
    reflexivity. }
  right. split; [reflexivity|].
  assert (Hlt : cx (currPosition m) <= cx end2d).
  { apply Qnot_lt_le. intros Habs. apply Qlt_le_weak in Habs.
    apply Qle_bool_iff in Habs. rewrite Habs in Hbrk. discriminate. }
  destruct (if Qlt_le_dec (cx ce) (cx (currPosition m)) then _ else _)
    as [ce1 cp1] eqn:E1.
  assert (H1 : cx (currPosition m) <= cx ce1
               /\ (cx (currPosition m) <= cx ce -> ce1 = ce)
               /\ (ce = end2d -> ce1 = end2d /\ (currPoly m = None -> cp1 = None))).
  { destruct (Qlt_le_dec (cx ce) (cx (currPosition m))) as [Hb|Hf].
    - assert (Hno : ~ cx (currPosition m) <= cx ce)
        by (intros Hc; apply (Qlt_irrefl (cx ce)); eapply Qlt_le_trans; eauto).
      destruct (truthy flying); inversion E1; subst; cbn [cx];
        (split; [try apply Qle_refl; try exact Hlt|]); (split; [tauto|]).
      + intros ->. auto.
      + intros ->. exfalso. apply Hno. exact Hlt.
    - inversion E1; subst. split; [exact Hf|]. split; [auto|]. intros ->. auto. }
  destruct (if truthy flying && _ && _ then _ else _) as [ce2 cp2] eqn:E2.
  assert (H2 : cx (currPosition m) <= cx ce2
               /\ (cx (currPosition m) <= cx ce -> ce2 = ce \/ ce2 = end2d)
               /\ (ce = end2d -> ce2 = end2d /\ (currPoly m = None -> cp2 = None))).
  { destruct H1 as (Ha & Hb & Hc).
    destruct (truthy flying && _ && _) in E2; inversion E2; subst.
    - split; [exact Hlt|]. split; auto.
    - split; [exact Ha|]. split; [intros Hx; left; auto | exact Hc]. }
  destruct (if cutawayPointsEqual (currPosition m) ce2 then _ else _) as [ce3 cp3] eqn:E3.
  assert (H3 : cx (currPosition m) <= cx ce3
               /\ (cx (currPosition m) <= cx ce -> ce3 = ce \/ ce3 = end2d)
               /\ (ce = end2d -> ce3 = end2d /\ (currPoly m = None -> cp3 = None))).
  { destruct H2 as (Ha & Hb & Hc).
    destruct (cutawayPointsEqual (currPosition m) ce2) in E3; inversion E3; subst.
    - split; [exact Hlt|]. split; auto.
    - split; [exact Ha|]. split; [exact Hb | exact Hc]. }
  clear E1 E2 E3 H1 H2. destruct H3 as (Ha & Hb & Hc).
  exists ce3, cp3. split; [exact Ha|]. split; [exact Hb|]. split; [exact Hc|].
  destruct cp3; reflexivity.
Qed.

Lemma cycle_inv (combinedPolys : list Polygon) (polyIndex : nat) (c : CPoint)
    (idx : Z) (wps : list CPoint) (m' : March) :
  cycle G combinedPolys polyIndex c idx wps = Continue m' ->
  waypoints m' = wps /\ currPosition m' = c.
Proof.
  unfold cycle. destruct (nth_error combinedPolys polyIndex); [|discriminate].
  intros [= <-]. split; reflexivity.
Qed.

Lemma cycle_no_break (combinedPolys : list Polygon) (polyIndex : nat) (c : CPoint)
    (idx : Z) (wps wps' : list CPoint) :
  cycle G combinedPolys polyIndex c idx wps <> Break wps'.
Proof. unfold cycle. destruct (nth_error combinedPolys polyIndex); discriminate. Qed.

(** One pass through the body ends in one of three ways.  It breaks, at or
    past the end's distance, with the position recorded.  It goes on with
    the position recorded and moves to a point that is not nearer to the
    start than the position.  Or it goes on with the position and the first
    intersection [ix] recorded. *)
Lemma march_body_moves (flying burrowing : flag) (endType : ELEVATION_LOCATIONS)
    (combinedPolys : list Polygon) (end2d : CPoint) (destPoly : option nat)
    (iter : nat) (m : March) :
  match march_body sceneFloor G flying burrowing endType combinedPolys end2d destPoly iter m with
  | Throw => True
  | Break wps =>
      wps = currPosition m :: waypoints m
      /\ Qle_bool (cx end2d) (cx (currPosition m)) = true
  | Continue m' =>
      Qle_bool (cx end2d) (cx (currPosition m)) = false
      /\ ((waypoints m' = currPosition m :: waypoints m
           /\ cx (currPosition m) <= cx (currPosition m'))
          \/ exists ixp, oid ixp = OIx iter
                         /\ waypoints m' = ixp :: currPosition m :: waypoints m)
  end.
Proof.
  destruct (currEnd m) as [ce|] eqn:Ece;
    [|unfold march_body; rewrite Ece; exact I].
  destruct (@march_body_cases flying burrowing endType combinedPolys end2d destPoly
                              iter m ce Ece)
    as [[Hb ->] | (Hb & ce3 & cp3 & Hle & _ & _ & ->)]; [auto|].
  match goal with |- context [if ?c then Continue _ else _] => destruct c end.
  { cbn. auto. }
  destruct cp3 as [polyIndex|].
  { destruct (cycle G combinedPolys polyIndex ce3 (currPolyIndex m) _) as [w|m'|] eqn:Hc;
      [exfalso; exact (cycle_no_break _ _ _ _ _ Hc) | | exact I].
    apply cycle_inv in Hc. destruct Hc as [-> ->]. auto. }
  destruct (polygonsIntersections G _ _ combinedPolys None) as [[|ix0 ixs]|]; [| |exact I].
  { cbn. auto. }
  cbn zeta. destruct (truthy burrowing).
  { cbn. split; [exact Hb|]. right. eexists. split; [|reflexivity]. reflexivity. }
  destruct (nth_error combinedPolys (pix_poly ix0)); [|exact I].
  match goal with
  | |- match ?c with _ => _ end =>
      destruct c as [w|m'|] eqn:Hc;
      [exfalso; exact (cycle_no_break _ _ _ _ _ Hc) | | exact I]
  end.
  apply cycle_inv in Hc. destruct Hc as [-> _].
  split; [exact Hb|]. right. eexists. split; [|reflexivity]. reflexivity.
Qed.

(** X8: A pass that takes the march backwards records an intersection: when
    the body goes on having recorded the position only, the new position is
    not nearer to the start than the old one. *)
Theorem march_body_forward (flying burrowing : flag) (endType : ELEVATION_LOCATIONS)
    (combinedPolys : list Polygon) (end2d : CPoint) (destPoly : option nat)
    (iter : nat) (m m' : March) :
  march_body sceneFloor G flying burrowing endType combinedPolys end2d destPoly iter m = Continue m' ->
  cx (currPosition m') < cx (currPosition m) ->
  cx (currPosition m) < cx end2d
  /\ exists ixp, oid ixp = OIx iter
                 /\ waypoints m' = ixp :: currPosition m :: waypoints m.
Proof.
  intros Hm Hback.
  pose proof (march_body_moves flying burrowing endType combinedPolys end2d destPoly
                               iter m) as H.
  rewrite Hm in H. destruct H as [Hb [[_ Hle] | Hix]].
  - exfalso. apply (Qlt_irrefl (cx (currPosition m'))).
    eapply Qlt_le_trans; eauto.
  - split; [|exact Hix]. apply Qnot_le_lt. intros Habs.
    apply Qle_bool_iff in Habs. rewrite Habs in Hb. discriminate.
Qed.

(** The number of waypoints of a march that returns: every pass records
    one or two of them. *)
Lemma march_length (flying burrowing : flag) (endType : ELEVATION_LOCATIONS)
    (combinedPolys : list Polygon) (end2d : CPoint) (destPoly : option nat) :
  forall (n : nat) (m : March) (wps : list CPoint) (r : nat),
    march sceneFloor G flying burrowing endType combinedPolys end2d destPoly n m = Returns (wps, r) ->
    (r <= n - 1
     /\ length (waypoints m) + (n - r) <= length wps
     /\ length wps <= length (waypoints m) + 2 * (n - r))%nat.
Proof.
  induction n as [|n IH]; intros m wps r Hm; cbn [march] in Hm.
  - inversion Hm; subst. rewrite length_rev. lia.
  - pose proof (march_body_moves flying burrowing endType combinedPolys end2d destPoly
                                 (MAX_ITER - n) m) as Hb.
    destruct (march_body sceneFloor G flying burrowing endType combinedPolys end2d
                              destPoly (MAX_ITER - n) m) as [wps'|m'|]; [| |discriminate].
    + destruct Hb as [-> _]. inversion Hm; subst. cbn [rev].
      rewrite length_app, length_rev. cbn [length]. lia.
    + destruct (IH m' wps r Hm) as (Hr & Hlo & Hhi).
      destruct Hb as [_ [[Hw _] | (ixp & _ & Hw)]]; rewrite Hw in Hlo, Hhi;
        cbn [length] in Hlo, Hhi.
      * destruct n as [|n']; [cbn [march] in Hm; inversion Hm; subst; lia | lia].
      * destruct n as [|n']; [cbn [march] in Hm; inversion Hm; subst; lia | lia].
Qed.

Lemma undo_rounding_length (end2d : CPoint) (wps : list CPoint) :
  length (undo_rounding G end2d wps) = length wps.
Proof.
  unfold undo_rounding. destruct (rev wps) as [|w ?]; [reflexivity|].
  destruct (almostEqual G _ _ _); [apply length_map | reflexivity].
Qed.

Lemma nearestGroundElevation_log (waypoint : Waypoint) (regions : option (list Zone))
    (samples : option Samples) (burrowing : flag) :
  ~ In PathMaxIter
       (log (nearestGroundElevation elevatedRegions sceneFloor defaultSamples
               waypoint regions samples burrowing)).
Proof.
  unfold nearestGroundElevation.
  destruct (truthy burrowing && _); [intros []|].
  match goal with
  | |- ~ In _ (log (match ?f with _ => _ end)) => destruct f as [c|]; [|intros []]
  end.
  destruct (truthy burrowing); [intros []|].
  destruct (ground_loop _ _ MAX_ITER c) as [c' r].
  destruct (Nat.eqb r 0); cbn [log]; [intros [H|[]]; discriminate H | intros []].
Qed.

Lemma _regions2dCutaway_log (start end_ : Waypoint) (regions : list Zone) :
  ~ In PathMaxIter (log (_regions2dCutaway sceneFloor G start end_ regions)).
Proof.
  unfold _regions2dCutaway.
  destruct (_ || _); [intros []|].
  destruct (existsb _ _); cbn [log]; [intros [H|[]]; discriminate H | intros []].
Qed.

(** X9: A path that [constructRegionsPath] returns has at least one point and
    at most two for every iteration the loop is allowed; and when the
    iteration cap is reported, [MAX_ITER] points at least. *)
Theorem constructRegionsPath_length (start end_ : Waypoint)
    (regions : option (list Zone)) (flying burrowing : flag)
    (samples : option Samples) (r : Logged (list PathPoint)) :
  constructRegionsPath start end_ regions flying burrowing samples = Returns r ->
  (1 <= length (value r) <= 2 * MAX_ITER)%nat
  /\ (In PathMaxIter (log r) -> (MAX_ITER <= length (value r))%nat).
Proof.
  pose proof MAX_ITER_large as Hbig. revert Hbig.
  unfold constructRegionsPath. generalize MAX_ITER as cap. intros cap Hbig.
  destruct (_ || _); [intros [= <-]; cbn; split; [lia | intros []]|].
  destruct (Nat.eqb (length (elevatedRegions regions)) 0);
    [intros [= <-]; cbn; split; [lia | intros []]|].
  destruct (regionWaypointsXYEqual start end_).
  { destruct (_ || _); intros [= <-]; cbn [value log length];
      (split; [lia|]); [|intros []].
    intros H. exfalso. revert H. apply nearestGroundElevation_log. }
  destruct (Nat.eqb (length (value (_regions2dCutaway sceneFloor G start end_
                                      (elevatedRegions regions)))) 0).
  { intros [= <-]. cbn [value log length]. split; [lia|].
    intros H. exfalso. revert H. apply _regions2dCutaway_log. }
  destruct (march_setup _ _ _ _ _ _ _ _) as [[[polys end2d] destPoly] m0] eqn:Hs.
  assert (Hw0 : waypoints m0 = []).
  { unfold march_setup in Hs. inversion Hs; subst. reflexivity. }
  destruct (march sceneFloor G flying burrowing _ polys end2d destPoly cap m0)
    as [[wps rem]|] eqn:Hm; [|discriminate].
  intros [= <-]. cbn [value log].
  rewrite length_map, undo_rounding_length.
  apply march_length in Hm. rewrite Hw0 in Hm. cbn [length] in Hm.
  destruct Hm as (Hr & Hlo & Hhi). split; [lia|].
  intros Hin. apply in_app_or in Hin. destruct Hin as [Hin|Hin].
  - exfalso. revert Hin. apply _regions2dCutaway_log.
  - destruct (Nat.eqb rem 0) eqn:Hz; [|destruct Hin].
    apply Nat.eqb_eq in Hz. lia.
Qed.

(** At or past the end's distance, with a target set, the pass breaks. *)
Lemma march_body_break (flying burrowing : flag) (endType : ELEVATION_LOCATIONS)
    (combinedPolys : list Polygon) (end2d : CPoint) (destPoly : option nat)
    (iter : nat) (m : March) (ce : CPoint) :
  currEnd m = Some ce ->
  Qle_bool (cx end2d) (cx (currPosition m)) = true ->
  march_body sceneFloor G flying burrowing endType combinedPolys end2d destPoly iter m
  = Break (currPosition m :: waypoints m).
Proof.
  intros Ece Hb.
  destruct (@march_body_cases flying burrowing endType combinedPolys end2d destPoly
                              iter m ce Ece) as [[_ H] | [Hb' _]]; [exact H|].
  rewrite Hb in Hb'. discriminate.
Qed.

Lemma Qlt_Qle_bool_false (a b : Q) : a < b -> Qle_bool b a = false.
Proof.
  intros H. destruct (Qle_bool b a) eqn:E; [|reflexivity].
  apply Qle_bool_iff in E. exfalso. apply (Qlt_irrefl a). eapply Qlt_le_trans; eauto.
Qed.

(** X12: A flying token whose end is in the air, with nothing across the line
    from its position to the end, goes there in one move: the march adds the
    position and the end, and stops. *)
Theorem march_line_of_sight (burrowing : flag) (combinedPolys : list Polygon)
    (end2d : CPoint) (destPoly : option nat) (n : nat) (m : March) :
  currEnd m = Some end2d ->
  cx (currPosition m) < cx end2d ->
  existsb (fun poly => linesCross G poly (cpt (currPosition m)) (cpt end2d))
          combinedPolys = false ->
  march sceneFloor G (Some true) burrowing FLOATING combinedPolys end2d destPoly (S (S n)) m
  = Returns (rev (waypoints m) ++ [currPosition m; end2d], n).
Proof.
  intros Ece Hlt Hlos. cbn [march].
  destruct (@march_body_cases (Some true) burrowing FLOATING combinedPolys end2d destPoly
                              (MAX_ITER - S n) m end2d Ece)
    as [[Hb _] | (_ & ce3 & cp3 & _ & _ & Hend & ->)].
  { rewrite (Qlt_Qle_bool_false Hlt) in Hb. discriminate. }
  destruct (Hend eq_refl) as [-> _].
  rewrite Hlos. cbn [truthy orb negb andb loc_eqb].
  erewrite (@march_body_break (Some true) burrowing FLOATING combinedPolys end2d destPoly
                              (MAX_ITER - n) _ end2d).
  - cbn [currPosition waypoints rev]. rewrite <- app_assoc. reflexivity.
  - reflexivity.
  - cbn [currPosition]. apply Qle_bool_iff, Qle_refl.
Qed.

(** X13: With the end as its target, no polygon followed, and no intersection
    between its position and the end, the march adds the position and the
    end, and stops, whatever the flags. *)
Theorem march_unobstructed (flying burrowing : flag) (endType : ELEVATION_LOCATIONS)
    (combinedPolys : list Polygon) (end2d : CPoint) (destPoly : option nat)
    (n : nat) (m : March) :
  currEnd m = Some end2d ->
  currPoly m = None ->
  cx (currPosition m) < cx end2d ->
  polygonsIntersections G (cpt (currPosition m)) (cpt end2d) combinedPolys None
  = Returns [] ->
  march sceneFloor G flying burrowing endType combinedPolys end2d destPoly (S (S n)) m
  = Returns (rev (waypoints m) ++ [currPosition m; end2d], n).
Proof.
  intros Ece Hcp Hlt Hix. cbn [march].
  destruct (@march_body_cases flying burrowing endType combinedPolys end2d destPoly
                              (MAX_ITER - S n) m end2d Ece)
    as [[Hb _] | (_ & ce3 & cp3 & _ & _ & Hend & ->)].
  { rewrite (Qlt_Qle_bool_false Hlt) in Hb. discriminate. }
  destruct (Hend eq_refl) as [-> Hcp3]. rewrite (Hcp3 Hcp), Hix.
  assert (Hnext :
    march sceneFloor G flying burrowing endType combinedPolys end2d destPoly (S n)
      {| currPosition := end2d; currEnd := Some end2d; currPoly := None;
         currPolyIndex := currPolyIndex m;
         waypoints := currPosition m :: waypoints m |}
    = Returns (rev (waypoints m) ++ [currPosition m; end2d], n)).
  { cbn [march].
    erewrite (@march_body_break flying burrowing endType combinedPolys end2d destPoly
                                (MAX_ITER - n) _ end2d).
    - cbn [currPosition waypoints rev]. rewrite <- app_assoc. reflexivity.
    - reflexivity.
    - cbn [currPosition]. apply Qle_bool_iff, Qle_refl. }
  match goal with |- context [if ?c then Continue _ else _] => destruct c end;
    exact Hnext.
Qed.

Lemma nearestGroundElevation_logs (waypoint : Waypoint) (regions : option (list Zone))
    (samples : option Samples) (burrowing : flag) :
  let lg := log (nearestGroundElevation elevatedRegions sceneFloor defaultSamples
                   waypoint regions samples burrowing) in
  lg = [] \/ lg = [GroundMaxIter].
Proof.
  unfold nearestGroundElevation. cbv zeta.
  destruct (truthy burrowing && _); [now left|].
  match goal with
  | |- log (match ?f with _ => _ end) = [] \/ _ => destruct f as [c|]; [|now left]
  end.
  destruct (truthy burrowing); [now left|].
  destruct (ground_loop _ _ MAX_ITER c) as [c' r].
  destruct (Nat.eqb r 0); cbn [log]; auto.
Qed.

Lemma _regions2dCutaway_logs (start end_ : Waypoint) (regions : list Zone) :
  let lg := log (_regions2dCutaway sceneFloor G start end_ regions) in
  lg = [] \/ lg = [CutawayHoles].
Proof.
  unfold _regions2dCutaway. cbv zeta.
  destruct (_ || _); [now left|].
  destruct (existsb _ _); cbn [log]; auto.
Qed.

(** X10: What a call of [constructRegionsPath] that returns can have reported:
    nothing; the iteration cap of the ground resolver, in an elevation-only
    move; holes in the cutaway; the iteration cap of the march; or holes
    and then the cap of the march.  No error is reported twice. *)
Theorem constructRegionsPath_log (start end_ : Waypoint)
    (regions : option (list Zone)) (flying burrowing : flag)
    (samples : option Samples) (r : Logged (list PathPoint)) :
  constructRegionsPath start end_ regions flying burrowing samples = Returns r ->
  log r = []
  \/ (log r = [GroundMaxIter] /\ regionWaypointsXYEqual start end_ = true)
  \/ (regionWaypointsXYEqual start end_ = false
      /\ (log r = [CutawayHoles] \/ log r = [PathMaxIter]
          \/ log r = [CutawayHoles; PathMaxIter])).
Proof.
  unfold constructRegionsPath.
  destruct (_ || _); [intros [= <-]; now left|].
  destruct (Nat.eqb (length (elevatedRegions regions)) 0); [intros [= <-]; now left|].
  destruct (regionWaypointsXYEqual start end_).
  { destruct (_ || _); intros [= <-]; cbn [log]; [|now left].
    destruct (nearestGroundElevation_logs end_ (Some (elevatedRegions regions))
                                          samples burrowing) as [H|H];
      rewrite H; auto. }
  pose proof (_regions2dCutaway_logs start end_ (elevatedRegions regions)) as Hc.
  cbv zeta in Hc.
  destruct (Nat.eqb (length (value (_regions2dCutaway sceneFloor G start end_
                                      (elevatedRegions regions)))) 0).
  { intros [= <-]. cbn [log]. destruct Hc as [H|H]; rewrite H; auto. }
  destruct (march_setup _ _ _ _ _ _ _ _) as [[[polys end2d] destPoly] m0].
  destruct (march sceneFloor G flying burrowing _ polys end2d destPoly MAX_ITER m0)
    as [[wps rem]|]; [|discriminate].
  intros [= <-]. cbn [log].
  destruct Hc as [H|H]; rewrite H; destruct (Nat.eqb rem 0); cbn [app]; auto 6.
Qed.

End MarchFacts.

Section CutawayFacts.

Variables Samples Paths : Type.
Variable elevatedRegions :
  option (list (Region Samples Paths)) -> list (Region Samples Paths).
Variable sceneFloor : Q.
Variable defaultSamples : Samples.
Variable G : Geometry Paths.

Local Abbreviation Zone := (Region Samples Paths).
Local Abbreviation constructRegionsPath :=
  (constructRegionsPath elevatedRegions sceneFloor defaultSamples G).
Local Abbreviation nearestGroundElevation :=
  (nearestGroundElevation elevatedRegions sceneFloor defaultSamples).

Lemma forallb_negb_existsb (A : Type) (f : A -> bool) (l : list A) :
  forallb (fun a => negb (f a)) l = negb (existsb f l).
Proof.
  induction l as [|a l IH]; [reflexivity|].
  cbn. rewrite IH. now destruct (f a).
Qed.

(** X15: What [_regions2dCutaway] hands to the tracer is never made of holes
    only: it is nothing, or has a polygon of positive orientation.  Holes
    stay among the polygons; they are reported, exactly when there is one,
    and nothing else is reported. *)
Theorem regions2dCutaway_result (start end_ : Waypoint) (regions : list Zone) :
  let r := _regions2dCutaway sceneFloor G start end_ regions in
  (value r <> [] -> exists poly, In poly (value r) /\ isPositive G poly = true)
  /\ (In CutawayHoles (log r)
      <-> exists hole, In hole (value r) /\ isPositive G hole = false)
  /\ (forall msg, In msg (log r) -> msg = CutawayHoles).
Proof.
  unfold _regions2dCutaway.
  set (polys := toPolygons G _).
  rewrite forallb_negb_existsb.
  destruct (Nat.eqb (length polys) 0) eqn:Hlen; cbn [orb].
  { cbn [value log]. split; [intros H; now destruct H|].
    split; [|intros msg []]. split; [intros []|intros (hole & [] & _)]. }
  destruct (existsb (isPositive G) polys) eqn:Hpos; cbn [negb].
  - destruct (existsb (fun poly => negb (isPositive G poly)) polys) eqn:Hneg;
      cbn [value log].
    + split.
      { intros _. apply existsb_exists in Hpos. exact Hpos. }
      split; [|intros msg [<-|[]]; reflexivity].
      split; [|intros _; now left].
      intros _. apply existsb_exists in Hneg. destruct Hneg as (hole & Hin & Hh).
      exists hole. split; [exact Hin|]. now destruct (isPositive G hole).
    + split.
      { intros _. apply existsb_exists in Hpos. exact Hpos. }
      split; [|intros msg []].
      split; [intros []|]. intros (hole & Hin & Hh).
      assert (Habs : existsb (fun poly => negb (isPositive G poly)) polys = true).
      { apply existsb_exists. exists hole. split; [exact Hin|]. now rewrite Hh. }
      rewrite Habs in Hneg. discriminate.
  - cbn [value log]. split; [intros H; now destruct H|].
    split; [|intros msg []]. split; [intros []|intros (hole & [] & _)].
Qed.

Lemma existsb_ext_In (A : Type) (f : A -> bool) (l l' : list A) :
  (forall a, In a l <-> In a l') -> existsb f l = existsb f l'.
Proof.
  intros H. destruct (existsb f l) eqn:E; symmetry.
  - apply existsb_exists in E. destruct E as (a & Ha & Hf).
    apply existsb_exists. exists a. split; [now apply H | exact Hf].
  - destruct (existsb f l') eqn:E'; [|reflexivity].
    apply existsb_exists in E'. destruct E' as (a & Ha & Hf).
    assert (Habs : existsb f l = true).
    { apply existsb_exists. exists a. split; [now apply H | exact Hf]. }
    rewrite Habs in E. discriminate.
Qed.

(** X16: The type of a cutaway point does not depend on the order of the
    polygons, nor on how often one of them occurs: a polygon that contains
    the point makes it [UNDERGROUND] also when an earlier polygon has the
    point on an edge. *)
Theorem cutawayElevationType_order (a : pt) (polys polys' : list Polygon) :
  (forall poly, In poly polys <-> In poly polys') ->
  cutawayElevationType G a polys = cutawayElevationType G a polys'.
Proof.
  intros H. unfold cutawayElevationType.
  rewrite (@existsb_ext_In _ (fun poly => contains G poly (fst a) (snd a)) _ _ H).
  rewrite (@existsb_ext_In _
             (fun poly => match pointOnPolygonEdge G a poly with
                          | Some _ => true | None => false end) _ _ H).
  reflexivity.
Qed.

(** X14: "Undo rounding of the end point" writes to distances only, and only
    the distance of [end2d]: the number of waypoints, their elevations and
    their identities stay; and a last waypoint within the tolerance of
    [end2d] gets the distance of [end2d]. *)
Theorem undo_rounding_spec (end2d : CPoint) (wps : list CPoint) :
  Forall2 (fun w w' => cy w' = cy w /\ oid w' = oid w
                       /\ (cx w' = cx w \/ cx w' = cx end2d))
          wps (undo_rounding G end2d wps)
  /\ forall front w,
       wps = front ++ [w] ->
       almostEqual G (cx end2d) (cx w) (51 # 100) = true ->
       exists front',
         undo_rounding G end2d wps
         = front' ++ [{| cx := cx end2d; cy := cy w; oid := oid w |}].
Proof.
  assert (Hsame : forall l : list CPoint,
             Forall2 (fun w w' => cy w' = cy w /\ oid w' = oid w
                                  /\ (cx w' = cx w \/ cx w' = cx end2d)) l l).
  { induction l; constructor; auto. }
  split.
  - unfold undo_rounding. destruct (rev wps) as [|endWaypoint rest]; [apply Hsame|].
    destruct (almostEqual G _ _ _); [|apply Hsame].
    clear Hsame. induction wps as [|w l IH]; cbn [map]; constructor; [|exact IH].
    destruct (oid_eqb (oid w) (oid endWaypoint)); cbn; auto.
  - intros front w -> Hnear. unfold undo_rounding.
    rewrite rev_app_distr. cbn [rev app]. rewrite Hnear, map_app. cbn [map].
    rewrite oid_eqb_refl. eexists. reflexivity.
Qed.

(** X11: Only the snapped end of an elevation-only move lacks a [y] or has an
    elevation that is not a number: every other point of every path that
    [constructRegionsPath] returns has both. *)
Theorem constructRegionsPath_points (start end_ : Waypoint)
    (regions : option (list Zone)) (flying burrowing : flag)
    (samples : option Samples) (r : Logged (list PathPoint)) (p : PathPoint) :
  constructRegionsPath start end_ regions flying burrowing samples = Returns r ->
  In p (value r) ->
  (exists q e, py p = Some q /\ pelevation p = Fin e)
  \/ (regionWaypointsXYEqual start end_ = true
      /\ p = {| px := x end_; py := None;
                pelevation := value (nearestGroundElevation end_
                                       (Some (elevatedRegions regions))
                                       samples burrowing) |}).
Proof.
  assert (Hw : forall w : Waypoint,
             exists q e, py (of_waypoint w) = Some q /\ pelevation (of_waypoint w) = Fin e)
    by (intros w; eexists _, _; split; reflexivity).
  assert (H2 : forall a b : Waypoint, In p [of_waypoint a; of_waypoint b] ->
             exists q e, py p = Some q /\ pelevation p = Fin e)
    by (intros a b [<-|[<-|[]]]; apply Hw).
  unfold constructRegionsPath.
  destruct (_ || _); [intros [= <-]; cbn [value]; intros Hin; left; eapply H2; eauto|].
  destruct (Nat.eqb (length (elevatedRegions regions)) 0);
    [intros [= <-]; cbn [value]; intros Hin; left; eapply H2; eauto|].
  destruct (regionWaypointsXYEqual start end_).
  { destruct (_ || _); intros [= <-]; cbn [value]; intros Hin;
      [|left; eapply H2; eauto].
    destruct Hin as [<-|[<-|[]]]; [left; apply Hw | right; auto]. }
  destruct (Nat.eqb (length (value (_regions2dCutaway sceneFloor G start end_
                                      (elevatedRegions regions)))) 0);
    [intros [= <-]; cbn [value]; intros Hin; left; eapply H2; eauto|].
  destruct (march_setup _ _ _ _ _ _ _ _) as [[[polys end2d] destPoly] m0].
  destruct (march sceneFloor G flying burrowing _ polys end2d destPoly MAX_ITER m0)
    as [[wps rem]|]; [|discriminate].
  intros [= <-]. cbn [value]. intros Hin. apply in_map_iff in Hin.
  destruct Hin as (w & <- & _). left. eexists _, _. split; reflexivity.
Qed.

End CutawayFacts.

(** * Properties of the effect helper and of the terrain level *)

Section EffectHelperFacts.

Import EffectHelper.

Variable Color : Type.
Variable COLORS : list Color.
Variable terrainEffectsItem : option Item.
Variable documentClass : Effect -> Effect.
Variable fromUuidSync : String.string -> option TokenDocument.
Variable FLAGS_EFFECT_ID : String.string.
Variable DISPLAY_ICON : bool.

(** X17: The colour flag of the effect that the [i]-th of successive calls
    of [_createActiveEffect] creates, in a world with a terrains item: the
    colour flag of [config.flags], when there is one; otherwise
    [config.color], when there is one; otherwise the default colour whose
    index is [#colorId] before the first call plus the number of earlier
    configs without a [color].  A default colour is taken for every config
    without a [color], also when the flags of the config then overwrite it;
    none is skipped or given twice, and once [COLORS] is exhausted the
    colour is [undefined].  Without a terrains item every call throws. *)
Theorem created_colors_nth (configs : list (Config Color)) :
  forall (colorId i : nat),
    nth_error (created_colors COLORS terrainEffectsItem configs colorId) i
    = match nth_error configs i, terrainEffectsItem with
      | None, _ => None
      | Some _, None => Some Throws
      | Some config, Some _ =>
          Some (Returns
                  match config_flags_color config, config_color config with
                  | Some c, _ => Some c
                  | None, Some c => Some c
                  | None, None =>
                      nth_error COLORS
                        (colorId
                         + length (filter (fun c => match config_color c with
                                                    | None => true
                                                    | Some _ => false
                                                    end)
                                          (firstn i configs)))
                  end)
      end.
Proof.
  induction configs as [|config rest IH]; intros colorId i.
  - destruct i; reflexivity.
  - destruct i as [|i].
    + cbn [created_colors nth_error firstn filter length].
      unfold _createActiveEffect_color, nextColor.
      rewrite Nat.add_0_r.
      destruct terrainEffectsItem as [item|], (config_origin config),
        (config_color config), (config_flags_color config); reflexivity.
    + cbn [created_colors nth_error firstn filter].
      destruct (_createActiveEffect_color COLORS terrainEffectsItem config colorId)
        as [c colorId'] eqn:E.
      cbn [nth_error]. rewrite IH.
      destruct (nth_error rest i) as [cfg|]; [|reflexivity].
      destruct terrainEffectsItem as [item|]; [|reflexivity].
      unfold _createActiveEffect_color, nextColor in E.
      destruct (config_flags_color cfg); [reflexivity|].
      destruct (config_color cfg); [reflexivity|].
      assert (Hid : (colorId'
                     = colorId + (if match config_color config with
                                     | None => true | Some _ => false end
                                  then 1 else 0))%nat).
      { destruct (config_origin config), (config_color config); inversion E; lia. }
      rewrite Hid. destruct (config_color config); cbn [length];
        do 3 f_equal; lia.
Qed.

Lemma find_id (id : String.string) (effects : list Effect) (e : Effect) :
  find (fun e => String.eqb (_id e) id) effects = Some e ->
  _id e = id /\ In e effects.
Proof.
  intros H. apply find_some in H. destruct H as [Hin He].
  apply String.eqb_eq in He. auto.
Qed.

Lemma find_id_none (id : String.string) (effects : list Effect) :
  find (fun e => String.eqb (_id e) id) effects = None ->
  forall e, In e effects -> _id e <> id.
Proof.
  intros H e Hin Hid. apply (find_none _ _ H) in Hin.
  apply String.eqb_neq in Hin. contradiction.
Qed.

Lemma existsb_id (id : String.string) (effects : list Effect) :
  existsb (fun e => String.eqb (_id e) id) effects
  = match find (fun e => String.eqb (_id e) id) effects with
    | Some _ => true
    | None => false
    end.
Proof.
  induction effects as [|e rest IH]; [reflexivity|].
  cbn. destruct (String.eqb (_id e) id); [reflexivity | exact IH].
Qed.

(** X18: [fromId] never gives a helper without an effect.  With a document
    class that keeps the [_id] of its data and makes active effects, the
    helper it returns holds an active effect with the [_id] asked for, the
    one [getTerrainEffectById] finds, and nothing is reported; it returns
    [undefined], and reports the id, exactly when no effect of the terrains
    item has the id. *)
Theorem fromId_spec (id : String.string) :
  (forall data, _id (documentClass data) = _id data
                /\ isActiveEffect (documentClass data) = true) ->
  match fromId terrainEffectsItem documentClass id with
  | (Some helper, errors) =>
      errors = []
      /\ exists e, effect helper = Some e
                   /\ _id e = id /\ isActiveEffect e = true
                   /\ getTerrainEffectById terrainEffectsItem documentClass id = Some e
  | (None, errors) =>
      errors = [id]
      /\ forall e, In e (getAll terrainEffectsItem) -> _id e <> id
  end.
Proof.
  intros Hdoc. unfold fromId.
  destruct (getTerrainEffectById terrainEffectsItem documentClass id) as [e|] eqn:Hget.
  - split; [reflexivity|]. exists e.
    assert (He : _id e = id /\ isActiveEffect e = true).
    { unfold getTerrainEffectById in Hget.
      destruct terrainEffectsItem as [item|]; [|discriminate].
      destruct (find _ (item_effects item)) as [e0|] eqn:Hfind; [|discriminate].
      apply find_id in Hfind. destruct Hfind as [Hid _].
      destruct (isActiveEffect e0) eqn:Ha; inversion Hget; subst; [auto|].
      destruct (Hdoc e0) as [H1 H2]. rewrite H1, H2. auto. }
    destruct He as [Hid Ha]. unfold constructor. rewrite Ha, Hid, Hget.
    assert (Hex : terrainEffectExists terrainEffectsItem e = true).
    { unfold terrainEffectExists. unfold getTerrainEffectById in Hget.
      destruct terrainEffectsItem as [item|]; [|discriminate].
      rewrite Hid, existsb_id.
      destruct (find _ (item_effects item)); [|discriminate].
      now destruct (isItem item). }
    rewrite Hex. cbn [effect]. auto.
  - split; [reflexivity|]. unfold getTerrainEffectById, getAll in *.
    destruct terrainEffectsItem as [item|]; [|intros e []].
    destruct (find _ (item_effects item)) eqn:Hfind; [discriminate|].
    now apply find_id_none.
Qed.

(** X19: A helper made from an effect that is not in the terrains item has no
    effect.  [addToToken] then returns without a call; [removeFromToken]
    throws, exactly when the token has an actor with an effect on it. *)
Theorem removeFromToken_without_effect (activeEffect : Effect)
    (tokenUUID : String.string) :
  (forall data, _id (documentClass data) = _id data) ->
  (forall e, In e (getAll terrainEffectsItem) -> _id e <> _id activeEffect) ->
  let this := constructor terrainEffectsItem documentClass (Some activeEffect) in
  effect this = None
  /\ addToToken fromUuidSync FLAGS_EFFECT_ID DISPLAY_ICON this tokenUUID = None
  /\ (removeFromToken fromUuidSync this tokenUUID = Throws
      <-> exists actor, token_actor fromUuidSync tokenUUID = Some actor
                        /\ actor_effects actor <> []).
Proof.
  intros Hdoc Hnot this.
  assert (Hnone : effect this = None).
  { unfold this, constructor.
    set (a := if isActiveEffect activeEffect then activeEffect
              else documentClass activeEffect).
    assert (Ha : _id a = _id activeEffect)
      by (unfold a; destruct (isActiveEffect activeEffect); [reflexivity | apply Hdoc]).
    assert (Hex : terrainEffectExists terrainEffectsItem a = false).
    { unfold terrainEffectExists, getAll in *.
      destruct terrainEffectsItem as [item|]; [|reflexivity].
      rewrite Ha.
      assert (H : existsb (fun e => String.eqb (_id e) (_id activeEffect))
                          (item_effects item) = false).
      { destruct (existsb _ _) eqn:E; [|reflexivity].
        apply existsb_exists in E. destruct E as (e & Hin & He).
        apply String.eqb_eq in He. exfalso. exact (Hnot e Hin He). }
      rewrite H. now destruct (isItem item). }
    rewrite Hex. reflexivity. }
  split; [exact Hnone|]. split.
  - unfold addToToken. rewrite Hnone. now destruct (token_actor fromUuidSync tokenUUID).
  - unfold removeFromToken. rewrite Hnone.
    destruct (token_actor fromUuidSync tokenUUID) as [actor|].
    + destruct (actor_effects actor) as [|e rest] eqn:Heff.
      * split; [discriminate|]. intros (actor' & [= <-] & Hne). contradiction.
      * split; [|reflexivity]. intros _. exists actor. split; [reflexivity|].
        rewrite Heff. discriminate.
    + split; [discriminate|]. intros (actor' & Habs & _). discriminate.
Qed.

Lemma flag_get_set (key v : String.string) (flags : Flags) :
  flag_get key (flag_set key v flags) = Some v.
Proof.
  induction flags as [|[k w] rest IH]; cbn.
  - now rewrite String.eqb_refl.
  - destruct (String.eqb k key) eqn:E; cbn; rewrite E; [reflexivity | exact IH].
Qed.

(** X20: What [addToToken] creates, [removeFromToken] finds, when
    [FLAGS.EFFECT_ID] is the property [effectId] that [removeFromToken]
    reads: an effect of the actor that carries the flags of the data handed
    to [createEmbeddedDocuments] is among the ids handed to
    [deleteEmbeddedDocuments]. *)
Theorem addToToken_removeFromToken
    (fromUuidSync' : String.string -> option TokenDocument)
    (this : Helper) (tokenUUID : String.string) (data : EffectData)
    (actor' : Actor) (created : ActorEffect) :
  FLAGS_EFFECT_ID = effectId ->
  addToToken fromUuidSync FLAGS_EFFECT_ID DISPLAY_ICON this tokenUUID = Some data ->
  token_actor fromUuidSync' tokenUUID = Some actor' ->
  In created (actor_effects actor') ->
  actor_effect_flags created = Some (data_flags data) ->
  exists ids,
    removeFromToken fromUuidSync' this tokenUUID = Returns (Some ids)
    /\ In (actor_effect_id created) ids.
Proof.
  intros Hkey Hadd Hactor Hin Hflags.
  unfold addToToken in Hadd.
  destruct (token_actor fromUuidSync tokenUUID) as [actor0|]; [|discriminate].
  destruct (effect this) as [e|] eqn:He; [|discriminate].
  inversion Hadd; subst data; clear Hadd. cbn [data_flags] in Hflags.
  assert (Hshare : shares_id (_id e) created = true).
  { unfold shares_id. rewrite Hflags, Hkey, flag_get_set. apply String.eqb_refl. }
  assert (Hid : In (actor_effect_id created)
                   (map actor_effect_id (filter (shares_id (_id e)) (actor_effects actor')))).
  { apply in_map. apply filter_In. auto. }
  unfold removeFromToken. rewrite Hactor, He.
  destruct (actor_effects actor') as [|a rest] eqn:Heff; [destruct Hin|].
  destruct (map actor_effect_id (filter (shares_id (_id e)) (a :: rest))) as [|i ids];
    [destruct Hid|].
  eexists. split; [reflexivity | exact Hid].
Qed.

End EffectHelperFacts.

Section TerrainLevelFacts.

Import TerrainLevel.

Variable MinMax : Type.
Variable between : Q -> MinMax -> bool.

(** X21: Neither the level nor the layer elevations of the scene have a say in
    the anchor elevation, the elevation range or [activeAt]: two levels of
    the same terrain give the same, in scenes with the same elevation
    layer.  With the anchor RELATIVE_TO_LAYER, the anchor elevation is the
    method [_layerElevation], and not the number that the method returns. *)
Theorem getAnchorElevation_ignores_level (canvas : Canvas)
    (this : TerrainLevel MinMax) (location : option pt) :
  (forall canvas' (this' : TerrainLevel MinMax) elevation,
     terrain this' = terrain this ->
     elevationAt canvas' = elevationAt canvas ->
     getAnchorElevation canvas' this' location = getAnchorElevation canvas this location
     /\ elevationRange canvas' this' location = elevationRange canvas this location
     /\ activeAt between canvas' this' elevation location
        = activeAt between canvas this elevation location)
  /\ (anchor (terrain this) = RELATIVE_TO_LAYER ->
      forall q, _layerElevation canvas this = Some q ->
                getAnchorElevation canvas this location <> Number q).
Proof.
  split.
  - intros canvas' this' elevation Ht He.
    assert (Ha : getAnchorElevation canvas' this' location
                 = getAnchorElevation canvas this location).
    { unfold getAnchorElevation, _canvasElevation. rewrite Ht, He. reflexivity. }
    unfold activeAt, elevationRange. rewrite Ha, Ht. auto.
  - intros Hanchor q _. unfold getAnchorElevation. rewrite Hanchor. discriminate.
Qed.

End TerrainLevelFacts.

(** ** The further properties on the scenarios *)

(** X3, on a scenario: The resolver under the ramp and the plateau settles on a fixed point
    of the replacement. *)
Lemma nearestGroundElevation_settled_witness :
  let waypoint := {| x := 10; y := 0; elevation := 2 |} in
  let v := value (nearestGroundElevation (elevatedOf [plateau5; ramp3]) 0 tt
                    waypoint None None None) in
  num_eq (max_entry waypoint [plateau5; ramp3] v) v
  \/ (containing waypoint (Fin 2) [plateau5; ramp3] = [] /\ v = Fin 0).
Proof.
  apply (@nearestGroundElevation_settled unit (list Polygon)
           (elevatedOf [plateau5; ramp3]) 0 tt
           {| x := 10; y := 0; elevation := 2 |} None None None).
  - reflexivity.
  - vm_compute. reflexivity.
Defined.

(** X4, on a scenario: The lower region alone puts a waypoint inside it at 10, above itself:
    the resolver answers [-Infinity]. *)
Lemma nearestGroundElevation_minus_infinity_witness :
  nearestGroundElevation (elevatedOf [lowerZone]) 0 tt
    {| x := 10; y := 0; elevation := 2 |} None None None
  = mkLogged NegInf [].
Proof.
  apply (@nearestGroundElevation_minus_infinity unit (list Polygon)
           (elevatedOf [lowerZone]) 0 tt
           {| x := 10; y := 0; elevation := 2 |} None None None).
  - reflexivity.
  - vm_compute. discriminate.
  - vm_compute. reflexivity.
  - vm_compute. reflexivity.
  - vm_compute. reflexivity.
Defined.

(** X5, on a scenario: A burrowing fall from 9 enters the plateau and the ledge at 5, at the
    same distance: the plateau, which comes first, decides. *)
Lemma nearestGroundElevation_fall_ties_witness :
  nearestGroundElevation (elevatedOf [plateau5; ledge]) 0 tt
    {| x := 10; y := 0; elevation := 9 |} None None (Some true)
  = mkLogged (Fin 5) [].
Proof.
  apply (@nearestGroundElevation_fall_ties unit (list Polygon)
           (elevatedOf [plateau5; ledge]) 0 tt
           {| x := 10; y := 0; elevation := 9 |} None None (Some true)
           []
           [ {| ix_to := {| x := 10; y := 0; elevation := 5 |};
                ix_region := ledge; ix_dist := 9 - 5 |} ]
           {| ix_to := {| x := 10; y := 0; elevation := 5 |};
              ix_region := plateau5; ix_dist := 9 - 5 |}).
  - reflexivity.
  - vm_compute. reflexivity.
  - vm_compute. discriminate.
  - reflexivity.
  - intros ix [].
  - intros ix [<-|[]]. vm_compute. discriminate.
Defined.

Lemma Qle_bool_comp_r (a q q' : Q) : q == q' -> Qle_bool a q = Qle_bool a q'.
Proof.
  intros H. destruct (Qle_bool a q) eqn:E, (Qle_bool a q') eqn:E'; try reflexivity.
  - apply Qle_bool_iff in E. rewrite H in E. apply Qle_bool_iff in E.
    rewrite E in E'. discriminate.
  - apply Qle_bool_iff in E'. rewrite <- H in E'. apply Qle_bool_iff in E'.
    rewrite E' in E. discriminate.
Qed.

Lemma Qle_bool_comp_l (a q q' : Q) : q == q' -> Qle_bool q a = Qle_bool q' a.
Proof.
  intros H. destruct (Qle_bool q a) eqn:E, (Qle_bool q' a) eqn:E'; try reflexivity.
  - apply Qle_bool_iff in E. rewrite H in E. apply Qle_bool_iff in E.
    rewrite E in E'. discriminate.
  - apply Qle_bool_iff in E'. rewrite <- H in E'. apply Qle_bool_iff in E'.
    rewrite E' in E. discriminate.
Qed.

(** A strip whose surface depends on [x] alone tests and answers by the
    planar position. *)
Lemma stripZone_planar (x0 x1 bottom top : Q) (surface : Waypoint -> Q)
    (cut : option (list Polygon)) :
  (forall a b, x a = x b -> surface a = surface b) ->
  forall a b e e', x a = x b -> y a = y b -> num_eq e e' ->
    testPoint (stripZone x0 x1 bottom top surface cut) a e
    = testPoint (stripZone x0 x1 bottom top surface cut) b e'
    /\ elevationUponEntry (stripZone x0 x1 bottom top surface cut) a
       = elevationUponEntry (stripZone x0 x1 bottom top surface cut) b.
Proof.
  intros Hs a b e e' Hx _ He. cbn [stripZone testPoint elevationUponEntry].
  rewrite Hx. split; [|now apply Hs].
  destruct e as [|q], e' as [|q']; cbn in He; try contradiction; [reflexivity|].
  now rewrite (Qle_bool_comp_r bottom He), (Qle_bool_comp_l top He).
Qed.

(** X6, on a scenario: Under the ramp and the plateau the resolver answers 8; from 8 it
    answers 8 again, and the classifier does not call the place FLOATING. *)
Lemma nearestGroundElevation_idempotent_witness :
  nearestGroundElevation (elevatedOf [plateau5; ramp3]) 0 tt
    {| x := 10; y := 0; elevation := 3 + (1 # 2) * 10 |} None None None
  = mkLogged (Fin (3 + (1 # 2) * 10)) []
  /\ elevationType (elevatedOf [plateau5; ramp3]) 0
       {| x := 10; y := 0; elevation := 3 + (1 # 2) * 10 |} None <> FLOATING.
Proof.
  apply (@nearestGroundElevation_idempotent unit (list Polygon)
           (elevatedOf [plateau5; ramp3]) 0 tt
           {| x := 10; y := 0; elevation := 2 |} None None None (3 + (1 # 2) * 10)).
  - intros region [<-|[<-|[]]]; apply stripZone_planar.
    + reflexivity.
    + intros a b Hx. now rewrite Hx.
  - reflexivity.
  - reflexivity.
  - intros Habs. vm_compute in Habs. discriminate Habs.
Defined.

(** X7, on a scenario: The segment from the start to the end of the walk over the floating
    box meets the box twice, the underside first. *)
Lemma polygonsIntersections_sound_witness :
  exists ixs,
    polygonsIntersections (QGeometry (@concat Polygon)) (0, 0) (20, 10)
      [[(5, 4); (15, 4); (15, 6); (5, 6)]] None = Returns ixs
    /\ length ixs = 2%nat
    /\ nondecreasing (map (fun ix => t0 (pix ix)) ixs).
Proof.
  destruct (polygonsIntersections (QGeometry (@concat Polygon)) (0, 0) (20, 10)
              [[(5, 4); (15, 4); (15, 6); (5, 6)]] None) as [ixs|] eqn:E;
    [|vm_compute in E; discriminate E].
  exists ixs. split; [reflexivity|]. split.
  - vm_compute in E. inversion E. reflexivity.
  - exact (proj1 (@polygonsIntersections_sound (list Polygon)
                    (QGeometry (@concat Polygon)) (0, 0) (20, 10)
                    [[(5, 4); (15, 4); (15, 6); (5, 6)]] None ixs E)).
Defined.

(** X8, on a scenario: A pass from (6, 0) towards (20, 10) under a box whose underside runs
    from 15 back to 5: the pass records the intersection with the underside
    and moves to the far end of that edge, at 5, behind the position. *)
Lemma march_body_forward_witness :
  exists m',
    march_body 0 (QGeometry (@concat Polygon)) None None GROUND
      [[(5, 6); (15, 6); (15, 4); (5, 4)]]
      {| cx := 20; cy := 10; oid := OEnd |} None 1
      {| currPosition := {| cx := 6; cy := 0; oid := OStart |};
         currEnd := Some {| cx := 20; cy := 10; oid := OEnd |};
         currPoly := None; currPolyIndex := (-1)%Z; waypoints := [] |}
    = Continue m'
    /\ cx (currPosition m') == 5
    /\ exists ixp, oid ixp = OIx 1
                   /\ waypoints m' = [ixp; {| cx := 6; cy := 0; oid := OStart |}].
Proof.
  destruct (march_body 0 (QGeometry (@concat Polygon)) None None GROUND
              [[(5, 6); (15, 6); (15, 4); (5, 4)]]
              {| cx := 20; cy := 10; oid := OEnd |} None 1
              {| currPosition := {| cx := 6; cy := 0; oid := OStart |};
                 currEnd := Some {| cx := 20; cy := 10; oid := OEnd |};
                 currPoly := None; currPolyIndex := (-1)%Z; waypoints := [] |})
    as [wps|m'|] eqn:E; [vm_compute in E; discriminate E | | vm_compute in E; discriminate E].
  exists m'. split; [reflexivity|].
  assert (H5 : cx (currPosition m') == 5).
  { vm_compute in E. inversion E. reflexivity. }
  split; [exact H5|].
  refine (proj2 (@march_body_forward (list Polygon) 0 (QGeometry (@concat Polygon))
                   None None GROUND [[(5, 6); (15, 6); (15, 4); (5, 4)]]
                   {| cx := 20; cy := 10; oid := OEnd |} None 1 _ m' E _)).
  cbn [currPosition cx]. rewrite H5. reflexivity.
Defined.

(** X9, on a scenario: The walk over the plateau returns six points. *)
Lemma constructRegionsPath_length_witness :
  exists r,
    constructRegionsPath (elevatedOf [plateau10]) 0 tt (QGeometry plateauUnion)
      {| x := 0; y := 0; elevation := 0 |} {| x := 20; y := 0; elevation := 0 |}
      None None None None
    = Returns r
    /\ (1 <= length (value r) <= 2 * MAX_ITER)%nat.
Proof.
  eexists. split; [exact plateau_walk|].
  exact (proj1 (@constructRegionsPath_length unit (list Polygon)
                  (elevatedOf [plateau10]) 0 tt (QGeometry plateauUnion)
                  _ _ _ _ _ _ _ plateau_walk)).
Defined.

(** X12, on a scenario: Flying at 20 over the plateau, with the end in the air: two waypoints. *)
Lemma march_line_of_sight_witness :
  march 0 (QGeometry plateauUnion) (Some true) None FLOATING
    [[(5, 0); (15, 0); (15, 10); (5, 10)]]
    {| cx := 20; cy := 20; oid := OEnd |} None 2
    {| currPosition := {| cx := 0; cy := 20; oid := OStart |};
       currEnd := Some {| cx := 20; cy := 20; oid := OEnd |};
       currPoly := None; currPolyIndex := (-1)%Z; waypoints := [] |}
  = Returns ([ {| cx := 0; cy := 20; oid := OStart |};
               {| cx := 20; cy := 20; oid := OEnd |} ], 0%nat).
Proof.
  apply (@march_line_of_sight (list Polygon) 0 (QGeometry plateauUnion) None
           [[(5, 0); (15, 0); (15, 10); (5, 10)]]
           {| cx := 20; cy := 20; oid := OEnd |} None 0
           {| currPosition := {| cx := 0; cy := 20; oid := OStart |};
              currEnd := Some {| cx := 20; cy := 20; oid := OEnd |};
              currPoly := None; currPolyIndex := (-1)%Z; waypoints := [] |}).
  - reflexivity.
  - reflexivity.
  - vm_compute. reflexivity.
Defined.

(** X13, on a scenario: Walking at 20, above the plateau, nothing is met: two waypoints. *)
Lemma march_unobstructed_witness :
  march 0 (QGeometry plateauUnion) None None FLOATING
    [[(5, 0); (15, 0); (15, 10); (5, 10)]]
    {| cx := 20; cy := 20; oid := OEnd |} None 2
    {| currPosition := {| cx := 0; cy := 20; oid := OStart |};
       currEnd := Some {| cx := 20; cy := 20; oid := OEnd |};
       currPoly := None; currPolyIndex := (-1)%Z; waypoints := [] |}
  = Returns ([ {| cx := 0; cy := 20; oid := OStart |};
               {| cx := 20; cy := 20; oid := OEnd |} ], 0%nat).
Proof.
  apply (@march_unobstructed (list Polygon) 0 (QGeometry plateauUnion) None None FLOATING
           [[(5, 0); (15, 0); (15, 10); (5, 10)]]
           {| cx := 20; cy := 20; oid := OEnd |} None 0
           {| currPosition := {| cx := 0; cy := 20; oid := OStart |};
              currEnd := Some {| cx := 20; cy := 20; oid := OEnd |};
              currPoly := None; currPolyIndex := (-1)%Z; waypoints := [] |}).
  - reflexivity.
  - reflexivity.
  - reflexivity.
  - vm_compute. reflexivity.
Defined.

(** X16, on a scenario: The corner (5, 4) of the box is on an edge of the box and inside the
    slab next to it: UNDERGROUND, whichever comes first. *)
Lemma cutawayElevationType_order_witness :
  cutawayElevationType (QGeometry (@concat Polygon)) (5, 4)
    [[(5, 2); (15, 2); (15, 4); (5, 4)]; [(0, 0); (10, 0); (10, 8); (0, 8)]]
  = cutawayElevationType (QGeometry (@concat Polygon)) (5, 4)
      [[(0, 0); (10, 0); (10, 8); (0, 8)]; [(5, 2); (15, 2); (15, 4); (5, 4)];
       [(0, 0); (10, 0); (10, 8); (0, 8)]].
Proof.
  apply (@cutawayElevationType_order (list Polygon) (QGeometry (@concat Polygon)) (5, 4)).
  intros poly. cbn [In]. tauto.
Defined.

(** X11, on a scenario: The first point of the walk over the plateau has a [y] and an
    elevation. *)
Lemma constructRegionsPath_points_witness :
  (exists q e, py {| px := 0; py := Some 0; pelevation := Fin 0 |} = Some q
               /\ pelevation {| px := 0; py := Some 0; pelevation := Fin 0 |} = Fin e)
  \/ (regionWaypointsXYEqual {| x := 0; y := 0; elevation := 0 |}
                             {| x := 20; y := 0; elevation := 0 |} = true
      /\ {| px := 0; py := Some 0; pelevation := Fin 0 |}
         = {| px := 20; py := None;
              pelevation :=
                value (nearestGroundElevation (elevatedOf [plateau10]) 0 tt
                         {| x := 20; y := 0; elevation := 0 |}
                         (Some (elevatedOf [plateau10] None)) None None) |}).
Proof.
  apply (@constructRegionsPath_points unit (list Polygon)
           (elevatedOf [plateau10]) 0 tt (QGeometry plateauUnion)
           {| x := 0; y := 0; elevation := 0 |} {| x := 20; y := 0; elevation := 0 |}
           None None None None _ _ plateau_walk).
  left. reflexivity.
Defined.

(** X10, on a scenario: The walk over the plateau reports nothing. *)
Lemma constructRegionsPath_log_witness :
  exists r,
    constructRegionsPath (elevatedOf [plateau10]) 0 tt (QGeometry plateauUnion)
      {| x := 0; y := 0; elevation := 0 |} {| x := 20; y := 0; elevation := 0 |}
      None None None None
    = Returns r
    /\ (log r = []
        \/ (log r = [GroundMaxIter]
            /\ regionWaypointsXYEqual {| x := 0; y := 0; elevation := 0 |}
                                      {| x := 20; y := 0; elevation := 0 |} = true)
        \/ (regionWaypointsXYEqual {| x := 0; y := 0; elevation := 0 |}
                                   {| x := 20; y := 0; elevation := 0 |} = false
            /\ (log r = [CutawayHoles] \/ log r = [PathMaxIter]
                \/ log r = [CutawayHoles; PathMaxIter]))).
Proof.
  eexists. split; [exact plateau_walk|].
  exact (@constructRegionsPath_log unit (list Polygon)
           (elevatedOf [plateau10]) 0 tt (QGeometry plateauUnion)
           _ _ _ _ _ _ _ plateau_walk).
Defined.

(** X18, on a scenario: [fromId] of the id of the mud: a helper that holds the mud. *)
Lemma fromId_spec_witness :
  match EffectHelper.fromId (Some EffectHelper.terrainsItem) EffectHelper.asDocument
                            (EffectHelper._id EffectHelper.mud) with
  | (Some helper, errors) =>
      errors = []
      /\ exists e, EffectHelper.effect helper = Some e
                   /\ EffectHelper._id e = EffectHelper._id EffectHelper.mud
                   /\ EffectHelper.isActiveEffect e = true
                   /\ EffectHelper.getTerrainEffectById
                        (Some EffectHelper.terrainsItem) EffectHelper.asDocument
                        (EffectHelper._id EffectHelper.mud) = Some e
  | (None, errors) =>
      errors = [EffectHelper._id EffectHelper.mud]
      /\ forall e, In e (EffectHelper.getAll (Some EffectHelper.terrainsItem)) ->
                   EffectHelper._id e <> EffectHelper._id EffectHelper.mud
  end.
Proof.
  apply (@fromId_spec (Some EffectHelper.terrainsItem) EffectHelper.asDocument
           (EffectHelper._id EffectHelper.mud)).
  intros data. split; reflexivity.
Defined.

(** X19, on a scenario: A helper made from the fog, which is not in the item, throws when
    asked to leave the token. *)
Lemma removeFromToken_without_effect_witness :
  EffectHelper.removeFromToken EffectHelper.oneToken
    (EffectHelper.constructor (Some EffectHelper.terrainsItem) EffectHelper.asDocument
       (Some EffectHelper.fog))
    EffectHelper.theToken
  = Throws.
Proof.
  assert (Hnot : forall e,
             In e (EffectHelper.getAll (Some EffectHelper.terrainsItem)) ->
             EffectHelper._id e <> EffectHelper._id EffectHelper.fog).
  { intros e [<-|[]]. cbn. discriminate. }
  apply (proj2 (proj2 (@removeFromToken_without_effect
                         (Some EffectHelper.terrainsItem) EffectHelper.asDocument
                         EffectHelper.oneToken EffectHelper.effectId true
                         EffectHelper.fog EffectHelper.theToken
                         (fun data => eq_refl) Hnot))).
  exists EffectHelper.muddyActor. split; [reflexivity | discriminate].
Defined.

(** X20, on a scenario: The mud on the token's actor carries the flags that [addToToken]
    writes: [removeFromToken] hands its id to the deletion. *)
Lemma addToToken_removeFromToken_witness :
  exists ids,
    EffectHelper.removeFromToken EffectHelper.oneToken
      {| EffectHelper.effect := Some EffectHelper.mud |} EffectHelper.theToken
    = Returns (Some ids)
    /\ In (EffectHelper.actor_effect_id EffectHelper.mudOnActor) ids.
Proof.
  eapply (@addToToken_removeFromToken EffectHelper.oneToken EffectHelper.effectId true
            EffectHelper.oneToken {| EffectHelper.effect := Some EffectHelper.mud |}
            EffectHelper.theToken _ EffectHelper.muddyActor EffectHelper.mudOnActor).
  - reflexivity.
  - reflexivity.
  - reflexivity.
  - right. left. reflexivity.
  - reflexivity.
Defined.
